(** * The simulation core of the platformer (src/app/page.tsx)

    A shallow embedding of [update], [moveAndCollide], [bossIntegrate],
    [findGroundBelow], [spawnShockwave], [aabb] and [clamp], and the
    properties of the tick that the specification states about them.

    Numbers.  A TypeScript [number] that holds a coordinate, a size, a
    velocity, a time stamp or the frame scale is a rational [Q]: arithmetic is
    exact, and NaN, the infinities and IEEE rounding are outside the model.
    Counters that the code only ever moves by whole steps from whole
    constants ([life], [cooldown], [fireRate], [timer], [phase], [hp], [tick])
    are integers [Z].

    Mutation.  [update] mutates the level and the player in place and calls
    the audio engine; here every block of [update] maps a simulation state
    (level, player, sound cues emitted so far) to the next one. *)

From Stdlib Require Import String.
From Stdlib Require Import QArith ZArith List Bool Lia Lqa Qminmax Qabs.
Import ListNotations.

Open Scope Q_scope.

(** ** Comparisons of numbers, as booleans *)

Definition Qltb (a b : Q) : bool := negb (Qle_bool b a).
Definition Qleb (a b : Q) : bool := Qle_bool a b.
Definition Qgtb (a b : Q) : bool := Qltb b a.
Definition Qgeb (a b : Q) : bool := Qle_bool b a.

(** [Math.sign] *)
Definition Qsign (a : Q) : Q := inject_Z (Z.sgn (Qnum a)).

(** ** Constants *)

Definition BASE_W : Q := 256.
Definition BASE_H : Q := 144.
Definition GRAVITY : Q := 0.35.
Definition MOVE_SPEED : Q := 1.
Definition JUMP_VEL : Q := -6.
Definition MAX_FALL : Q := 6.5.

(** ** Entities *)

Record Keys := mkKeys {
  k_left : bool; k_right : bool; k_up : bool; k_down : bool;
  k_jump : bool; k_fire : bool; k_crouch : bool
}.

Record Rect := mkRect { x : Q; y : Q; w : Q; h : Q }.

(** [Platform = Rect & { vx?, range? }] *)
Record Platform := mkPlatform {
  pl_box : Rect;
  pl_vx : option Q;
  pl_range : option (Q * Q)
}.

(** [Projectile = Rect & { vx, vy, life, friendly }] *)
Record Projectile := mkProjectile {
  pr_box : Rect;
  pr_vx : Q;
  pr_vy : Q;
  life : Z;
  friendly : bool
}.

(** [Enemy = Swordsman | Archer], a tagged union over the shared base. *)
Inductive EnemyKind :=
| swordsman (dir minX maxX speed : Q)
| archer (cooldown fireRate : Z).

Record Enemy := mkEnemy {
  e_box : Rect;
  e_alive : bool;
  e_kind : EnemyKind
}.

(** The fields that [moveAndCollide] reaches through [body as any]: the box,
    the velocity and the ground flag.  For the player the flag is [onGround];
    for the boss it is [grounded] (the [onGround] property that
    [moveAndCollide] also writes on a boss object carries the same value and
    is never read). *)
Record Body := mkBody {
  b_box : Rect;
  vx : Q;
  vy : Q;
  onGround : bool
}.

Record Boss := mkBoss {
  bo_body : Body;
  hp : Z;
  bo_alive : bool;
  phase : Z;
  timer : Z
}.

Definition grounded (b : Boss) : bool := onGround (bo_body b).

(** [facing: 1 | -1] *)
Inductive Facing := FaceRight | FaceLeft.

Definition facingNum (f : Facing) : Q :=
  match f with FaceRight => 1 | FaceLeft => -1 end.

Record Player := mkPlayer {
  p_body : Body;
  facing : Facing;
  crouch : bool;
  canFireAt : Q;
  invuln : Q
}.

Inductive LevelKind := intro | fase1 | fase2 | fase3 | bossLevel.

Record Level := mkLevel {
  kind : LevelKind;
  platforms : list Platform;
  enemies : list Enemy;
  arrows : list Projectile;
  projs : list Projectile;
  gem : Rect;
  boss : option Boss;
  cameraX : Q;
  worldW : Q;
  worldH : Q;
  tick : Z
}.

(** The audio cues [update] triggers ([audio.sfxJump()] and the like). *)
Inductive Cue := SfxJump | SfxShoot | SfxHit.

(** The state a tick works on: the level, the player, and the cues emitted
    so far (oldest first). *)
Record Sim := mkSim {
  lv : Level;
  pl : Player;
  out : list Cue
}.

(** ** Field updates *)

Definition setX (r : Rect) (v : Q) : Rect := mkRect v (y r) (w r) (h r).
Definition setY (r : Rect) (v : Q) : Rect := mkRect (x r) v (w r) (h r).
Definition setH (r : Rect) (v : Q) : Rect := mkRect (x r) (y r) (w r) v.

Definition bodyX (b : Body) (v : Q) : Body :=
  mkBody (setX (b_box b) v) (vx b) (vy b) (onGround b).
Definition bodyY (b : Body) (v : Q) : Body :=
  mkBody (setY (b_box b) v) (vx b) (vy b) (onGround b).
Definition bodyH (b : Body) (v : Q) : Body :=
  mkBody (setH (b_box b) v) (vx b) (vy b) (onGround b).
Definition bodyVx (b : Body) (v : Q) : Body :=
  mkBody (b_box b) v (vy b) (onGround b).
Definition bodyVy (b : Body) (v : Q) : Body :=
  mkBody (b_box b) (vx b) v (onGround b).
Definition bodyGround (b : Body) (g : bool) : Body :=
  mkBody (b_box b) (vx b) (vy b) g.

Definition withBody (p : Player) (b : Body) : Player :=
  mkPlayer b (facing p) (crouch p) (canFireAt p) (invuln p).
Definition withFacing (p : Player) (f : Facing) : Player :=
  mkPlayer (p_body p) f (crouch p) (canFireAt p) (invuln p).
Definition withCrouch (p : Player) (c : bool) : Player :=
  mkPlayer (p_body p) (facing p) c (canFireAt p) (invuln p).
Definition withCanFireAt (p : Player) (t : Q) : Player :=
  mkPlayer (p_body p) (facing p) (crouch p) t (invuln p).

Definition p_box (p : Player) : Rect := b_box (p_body p).
Definition bo_box (b : Boss) : Rect := b_box (bo_body b).

Definition bossBody (b : Boss) (k : Body) : Boss :=
  mkBoss k (hp b) (bo_alive b) (phase b) (timer b).
Definition bossHp (b : Boss) (v : Z) : Boss :=
  mkBoss (bo_body b) v (bo_alive b) (phase b) (timer b).
Definition bossAlive (b : Boss) (a : bool) : Boss :=
  mkBoss (bo_body b) (hp b) a (phase b) (timer b).
Definition bossPhase (b : Boss) (ph t : Z) : Boss :=
  mkBoss (bo_body b) (hp b) (bo_alive b) ph t.
Definition bossTimer (b : Boss) (t : Z) : Boss :=
  mkBoss (bo_body b) (hp b) (bo_alive b) (phase b) t.

Definition lvPlatforms (l : Level) (v : list Platform) : Level :=
  mkLevel (kind l) v (enemies l) (arrows l) (projs l) (gem l) (boss l)
          (cameraX l) (worldW l) (worldH l) (tick l).
Definition lvEnemies (l : Level) (v : list Enemy) : Level :=
  mkLevel (kind l) (platforms l) v (arrows l) (projs l) (gem l) (boss l)
          (cameraX l) (worldW l) (worldH l) (tick l).
Definition lvArrows (l : Level) (v : list Projectile) : Level :=
  mkLevel (kind l) (platforms l) (enemies l) v (projs l) (gem l) (boss l)
          (cameraX l) (worldW l) (worldH l) (tick l).
Definition lvProjs (l : Level) (v : list Projectile) : Level :=
  mkLevel (kind l) (platforms l) (enemies l) (arrows l) v (gem l) (boss l)
          (cameraX l) (worldW l) (worldH l) (tick l).
Definition lvBoss (l : Level) (v : option Boss) : Level :=
  mkLevel (kind l) (platforms l) (enemies l) (arrows l) (projs l) (gem l) v
          (cameraX l) (worldW l) (worldH l) (tick l).
Definition lvCameraX (l : Level) (v : Q) : Level :=
  mkLevel (kind l) (platforms l) (enemies l) (arrows l) (projs l) (gem l)
          (boss l) v (worldW l) (worldH l) (tick l).
Definition lvTick (l : Level) (v : Z) : Level :=
  mkLevel (kind l) (platforms l) (enemies l) (arrows l) (projs l) (gem l)
          (boss l) (cameraX l) (worldW l) (worldH l) v.

Definition simLv (s : Sim) (l : Level) : Sim := mkSim l (pl s) (out s).
Definition simPl (s : Sim) (p : Player) : Sim := mkSim (lv s) p (out s).
Definition emit (s : Sim) (c : Cue) : Sim := mkSim (lv s) (pl s) (out s ++ [c]).

(** ** Utils *)

(** [aabb]: the boxes overlap unless one lies wholly to one side of the
    other. *)
Definition aabb (a b : Rect) : bool :=
  negb (Qleb (x a + w a) (x b) || Qgeb (x a) (x b + w b)
        || Qleb (y a + h a) (y b) || Qgeb (y a) (y b + h b)).

(** [clamp v min max = Math.max(min, Math.min(max, v))] *)
Definition clamp (v lo hi : Q) : Q := Qmax lo (Qmin hi v).

Definition makePlayer (spawnX spawnY : Q) : Player :=
  mkPlayer (mkBody (mkRect spawnX spawnY 8 12) 0 0 false) FaceRight false 0 0.

(** ** Levels *)

Definition still (box : Rect) : Platform := mkPlatform box None None.

Definition levelIntro : Level :=
  let worldW := 520 in
  let groundY := 110 in
  mkLevel intro
    [still (mkRect 0 groundY worldW 8); still (mkRect 160 (groundY - 12) 30 6)]
    [] [] [] (mkRect (worldW - 30) (groundY - 20) 10 10) None 0 worldW BASE_H 0.

Definition levelFase1 : Level :=
  let worldW := 820 in
  let groundY := 110 in
  mkLevel fase1
    [still (mkRect 0 groundY 180 8); still (mkRect 196 groundY 110 8);
     still (mkRect 324 groundY 100 8); still (mkRect 444 groundY 90 8);
     still (mkRect 552 groundY 90 8); still (mkRect 662 groundY 120 8);
     mkPlatform (mkRect 308 (groundY - 22) 34 6) (Some 0.3) (Some (300, 360))]
    [] [] [] (mkRect (worldW - 26) (groundY - 20) 10 10) None 0 worldW BASE_H 0.

Definition levelFase2 : Level :=
  let worldW := 700 in
  let groundY := 110 in
  mkLevel fase2
    [still (mkRect 0 groundY worldW 8); still (mkRect 220 (groundY - 24) 36 6);
     still (mkRect 420 (groundY - 18) 36 6)]
    [mkEnemy (mkRect 360 (groundY - 16) 10 14) true (swordsman (-1) 330 480 0.4)]
    [] [] (mkRect (worldW - 26) (groundY - 20) 10 10) None 0 worldW BASE_H 0.

Definition levelFase3 : Level :=
  let worldW := 720 in
  let groundY := 110 in
  mkLevel fase3
    [still (mkRect 0 groundY worldW 8); still (mkRect 160 (groundY - 22) 40 6);
     still (mkRect 220 (groundY - 32) 40 6); still (mkRect 280 (groundY - 22) 40 6)]
    [mkEnemy (mkRect 380 (groundY - 16) 10 14) true (archer 0 180)]
    [] [] (mkRect (worldW - 26) (groundY - 20) 10 10) None 0 worldW BASE_H 0.

Definition levelBoss : Level :=
  let worldW := 640 in
  let groundY := 110 in
  mkLevel bossLevel
    [still (mkRect 0 groundY worldW 8)]
    [] [] [] (mkRect (worldW - 32) (groundY - 20) 12 12)
    (Some (mkBoss (mkBody (mkRect (worldW - 90) (groundY - 20) 18 20) 0 0 true)
                  3 true 0 0))
    0 worldW BASE_H 0.

(** ** Movement and collisions *)

(** One iteration of the horizontal loop of [moveAndCollide]. *)
Definition collideX (body : Body) (p : Platform) : Body :=
  if aabb (b_box body) (pl_box p) then
    let moved :=
      if Qgtb (vx body) 0 then bodyX body (x (pl_box p) - w (b_box body))
      else if Qltb (vx body) 0 then bodyX body (x (pl_box p) + w (pl_box p))
      else body in
    bodyVx moved 0
  else body.

(** One iteration of the vertical loop of [moveAndCollide]. *)
Definition collideY (body : Body) (p : Platform) : Body :=
  if aabb (b_box body) (pl_box p) then
    if Qgtb (vy body) 0 then
      bodyGround (bodyVy (bodyY body (y (pl_box p) - h (b_box body))) 0) true
    else if Qltb (vy body) 0 then
      bodyVy (bodyY body (y (pl_box p) + h (pl_box p))) 0
    else body
  else body.

(** The horizontal pass: [body.x += vx * dt], then the loop. *)
Definition horizontalPass (body : Body) (platforms : list Platform) (dt : Q) : Body :=
  fold_left collideX platforms (bodyX body (x (b_box body) + vx body * dt)).

(** The vertical pass: the ground flag is cleared, [body.y += vy * dt], then
    the loop. *)
Definition verticalPass (body : Body) (platforms : list Platform) (dt : Q) : Body :=
  let cleared := bodyGround body false in
  fold_left collideY platforms
            (bodyY cleared (y (b_box cleared) + vy cleared * dt)).

Definition moveAndCollide (body : Body) (platforms : list Platform) (dt : Q) : Body :=
  verticalPass (horizontalPass body platforms dt) platforms dt.

Definition bossIntegrate (b : Boss) (platforms : list Platform) (dt : Q) : Boss :=
  let k1 := bodyVy (bo_body b) (vy (bo_body b) + GRAVITY * dt) in
  let k2 := bodyVy k1 (clamp (vy k1) (-999) MAX_FALL) in
  bossBody b (moveAndCollide k2 platforms dt).

(** The loop state of [findGroundBelow]: [best], and [bestY] with [None] for
    [Infinity]. *)
Definition groundStep (a : Rect) (acc : option Platform * option Q) (p : Platform)
  : option Platform * option Q :=
  if Qgtb (x a + w a) (x (pl_box p)) && Qltb (x a) (x (pl_box p) + w (pl_box p)) then
    if Qgeb (y (pl_box p)) (y a)
       && match snd acc with
          | None => true
          | Some bestY => Qltb (y (pl_box p)) bestY
          end
    then (Some p, Some (y (pl_box p)))
    else acc
  else acc.

Definition findGroundBelow (a : Rect) (platforms : list Platform) : option Platform :=
  fst (fold_left (groundStep a) platforms (None, None)).

Definition spawnShockwave (level : Level) (b : Boss) : Level :=
  let bx := bo_box b in
  let left := mkProjectile (mkRect (x bx) (y bx + h bx - 2) 6 2) (-1.6) 0 90 false in
  let right := mkProjectile (mkRect (x bx + w bx - 6) (y bx + h bx - 2) 6 2) 1.6 0 90 false in
  lvArrows level (arrows level ++ [left; right]).

(** ** The blocks of [update], in source order *)

(** "Move platforms (optional)": [pl.vx && pl.range] holds when both are
    present and [vx] is not zero. *)
Definition movePlatform (dt : Q) (p : Platform) : Platform :=
  match pl_vx p, pl_range p with
  | Some v, Some (lo, hi) =>
      if Qeq_bool v 0 then p
      else
        let x1 := x (pl_box p) + v * dt in
        let v1 := if Qltb x1 lo || Qgtb (x1 + w (pl_box p)) hi then v * -1 else v in
        mkPlatform (setX (pl_box p) x1) (Some v1) (pl_range p)
  | _, _ => p
  end.

Definition movePlatforms (dt : Q) (s : Sim) : Sim :=
  simLv s (lvPlatforms (lv s) (map (movePlatform dt) (platforms (lv s)))).

(** "Input": direction, crouch gate, friction, jump. *)
Definition inputStep (keys : Keys) (s : Sim) : Sim :=
  let p := pl s in
  let wantLeft := k_left keys && negb (k_right keys) in
  let wantRight := k_right keys && negb (k_left keys) in
  let onGround0 := onGround (p_body p) in
  let p1 := withCrouch p (k_crouch keys && onGround0) in
  let maxSpeed := if crouch p1 then MOVE_SPEED * 0.6 else MOVE_SPEED in
  let p2 :=
    if wantLeft then withFacing (withBody p1 (bodyVx (p_body p1) (- maxSpeed))) FaceLeft
    else if wantRight then withFacing (withBody p1 (bodyVx (p_body p1) maxSpeed)) FaceRight
    else
      let v := vx (p_body p1) * 0.8 in
      withBody p1 (bodyVx (p_body p1) (if Qltb (Qabs v) 0.02 then 0 else v)) in
  if k_jump keys && onGround0 && negb (crouch p2) then
    emit (simPl s (withBody p2 (bodyGround (bodyVy (p_body p2) JUMP_VEL) false))) SfxJump
  else simPl s p2.

(** "Fireball": the fire gate and the cooldown. *)
Definition fireStep (keys : Keys) (t : Q) (s : Sim) : Sim :=
  let p := pl s in
  if k_fire keys && Qgeb t (canFireAt p) then
    let fb := mkProjectile
                (mkRect (match facing p with
                         | FaceRight => x (p_box p) + w (p_box p)
                         | FaceLeft => x (p_box p) - 4
                         end)
                        (y (p_box p) + 4) 4 3)
                (facingNum (facing p) * 2.2) 0 120 true in
    emit (mkSim (lvProjs (lv s) (projs (lv s) ++ [fb]))
                (withCanFireAt p (t + 5000)) (out s)) SfxShoot
  else s.

(** "Gravity" *)
Definition gravityStep (dt : Q) (s : Sim) : Sim :=
  let k := p_body (pl s) in
  let k1 := bodyVy k (vy k + GRAVITY * dt) in
  simPl s (withBody (pl s) (bodyVy k1 (clamp (vy k1) (-999) MAX_FALL))).

(** "Crouch height" *)
Definition baseH : Q := 12.
Definition crouchH : Q := 8.

Definition crouchHeight (p : Player) : Player :=
  let prevH := h (p_box p) in
  let p1 := withBody p (bodyH (p_body p) (if crouch p then crouchH else baseH)) in
  if Qltb (h (p_box p1)) prevH
  then withBody p1 (bodyY (p_body p1) (y (p_box p1) + (prevH - h (p_box p1))))
  else p1.

Definition crouchStep (s : Sim) : Sim := simPl s (crouchHeight (pl s)).

(** "Integrate and collide" *)
Definition integrateStep (dt : Q) (s : Sim) : Sim :=
  simPl s (withBody (pl s) (moveAndCollide (p_body (pl s)) (platforms (lv s)) dt)).

(** "Camera follow" *)
Definition cameraStep (s : Sim) : Sim :=
  let p := pl s in
  simLv s (lvCameraX (lv s)
             (clamp (x (p_box p) - BASE_W / 2 + w (p_box p) / 2) 0
                    (worldW (lv s) - BASE_W))).

(** "Enemies AI": one iteration of the loop, on a living enemy. *)
Definition snapToGround (box : Rect) (platforms : list Platform) : Rect :=
  match findGroundBelow box platforms with
  | Some ground => setY box (y (pl_box ground) - h box)
  | None => box
  end.

Definition enemyAI (platforms : list Platform) (dt : Q) (e : Enemy)
           (p : Player) (ars : list Projectile)
  : Enemy * Player * list Projectile :=
  if negb (e_alive e) then (e, p, ars)
  else
    match e_kind e with
    | swordsman dir minX maxX speed =>
        let box1 := setX (e_box e) (x (e_box e) + dir * speed * dt) in
        let dir1 := if Qltb (x box1) minX || Qgtb (x box1 + w box1) maxX
                    then dir * -1 else dir in
        let box2 := snapToGround box1 platforms in
        let e' := mkEnemy box2 (e_alive e) (swordsman dir1 minX maxX speed) in
        let p' :=
          if aabb (p_box p) box2 then
            withBody p
              (bodyVy (bodyVx (p_body p)
                              ((if Qltb (x (p_box p)) (x box2) then -1 else 1) * 1.2))
                      (-2))
          else p in
        (e', p', ars)
    | archer cooldown fireRate =>
        let cooldown1 := (cooldown - 1)%Z in
        let box1 := snapToGround (e_box e) platforms in
        if (cooldown1 <=? 0)%Z then
          let arrow :=
            mkProjectile (mkRect (x box1 + w box1) (y box1 + 6) 5 2)
                         (if Qgtb (x (p_box p)) (x box1) then 1.6 else -1.6)
                         0 240 false in
          (mkEnemy box1 (e_alive e) (archer fireRate fireRate), p, ars ++ [arrow])
        else (mkEnemy box1 (e_alive e) (archer cooldown1 fireRate), p, ars)
    end.

Fixpoint enemiesAI (platforms : list Platform) (dt : Q) (es : list Enemy)
         (p : Player) (ars : list Projectile)
  : list Enemy * Player * list Projectile :=
  match es with
  | [] => ([], p, ars)
  | e :: rest =>
      let '(e', p1, ars1) := enemyAI platforms dt e p ars in
      let '(rest', p2, ars2) := enemiesAI platforms dt rest p1 ars1 in
      (e' :: rest', p2, ars2)
  end.

Definition enemiesStep (dt : Q) (s : Sim) : Sim :=
  let '(es, p, ars) :=
    enemiesAI (platforms (lv s)) dt (enemies (lv s)) (pl s) (arrows (lv s)) in
  mkSim (lvArrows (lvEnemies (lv s) es) ars) p (out s).

(** "Projectiles": integration, then the two filters. *)
Definition prLife (pr : Projectile) (v : Z) : Projectile :=
  mkProjectile (pr_box pr) (pr_vx pr) (pr_vy pr) v (friendly pr).

Definition integrateProj (dt : Q) (pr : Projectile) : Projectile :=
  mkProjectile
    (mkRect (x (pr_box pr) + pr_vx pr * dt) (y (pr_box pr) + pr_vy pr * dt)
            (w (pr_box pr)) (h (pr_box pr)))
    (pr_vx pr) (pr_vy pr) (life pr - 1)%Z (friendly pr).

Definition inPlay (worldW : Q) (pr : Projectile) : bool :=
  (0 <? life pr)%Z && Qgtb (x (pr_box pr)) (-10)
  && Qltb (x (pr_box pr)) (worldW + 10).

Definition projectilesStep (dt : Q) (s : Sim) : Sim :=
  let l := lv s in
  let ps := map (integrateProj dt) (projs l) in
  let ars := map (integrateProj dt) (arrows l) in
  simLv s (lvArrows (lvProjs l (filter (inPlay (worldW l)) ps))
                    (filter (inPlay (worldW l)) ars)).

(** "Fireball collisions": the inner loop over the enemies, for one
    projectile.  There is no [break]: the loop visits every enemy. *)
Definition enemyAlive (e : Enemy) (a : bool) : Enemy :=
  mkEnemy (e_box e) a (e_kind e).

Fixpoint hitEnemies (pr : Projectile) (es : list Enemy) (cues : list Cue)
  : Projectile * list Enemy * list Cue :=
  match es with
  | [] => (pr, [], cues)
  | e :: rest =>
      if negb (e_alive e) then
        let '(pr', rest', cues') := hitEnemies pr rest cues in
        (pr', e :: rest', cues')
      else if aabb (pr_box pr) (e_box e) then
        let '(pr', rest', cues') :=
          hitEnemies (prLife pr 0) rest (cues ++ [SfxHit]) in
        (pr', enemyAlive e false :: rest', cues')
      else
        let '(pr', rest', cues') := hitEnemies pr rest cues in
        (pr', e :: rest', cues')
  end.

(** The boss test that follows the inner loop. *)
Definition hitBoss (pr : Projectile) (ob : option Boss) (cues : list Cue)
  : Projectile * option Boss * list Cue :=
  match ob with
  | Some b =>
      if bo_alive b && aabb (pr_box pr) (bo_box b) then
        let b1 := bossHp b (hp b - 1) in
        let b2 := if (hp b1 <=? 0)%Z then bossAlive b1 false else b1 in
        (prLife pr 0, Some b2, cues ++ [SfxHit])
      else (pr, ob, cues)
  | None => (pr, None, cues)
  end.

(** The body of the outer loop. *)
Definition fireballHit (pr : Projectile) (es : list Enemy) (ob : option Boss)
           (cues : list Cue)
  : Projectile * list Enemy * option Boss * list Cue :=
  if negb (friendly pr) then (pr, es, ob, cues)
  else
    let '(pr1, es1, cues1) := hitEnemies pr es cues in
    let '(pr2, ob2, cues2) := hitBoss pr1 ob cues1 in
    (pr2, es1, ob2, cues2).

Fixpoint fireballCollisions (prs : list Projectile) (es : list Enemy)
         (ob : option Boss) (cues : list Cue)
  : list Projectile * list Enemy * option Boss * list Cue :=
  match prs with
  | [] => ([], es, ob, cues)
  | pr :: rest =>
      let '(pr', es1, ob1, cues1) := fireballHit pr es ob cues in
      let '(rest', es2, ob2, cues2) := fireballCollisions rest es1 ob1 cues1 in
      (pr' :: rest', es2, ob2, cues2)
  end.

Definition fireballStep (s : Sim) : Sim :=
  let l := lv s in
  let '(prs, es, ob, cues) :=
    fireballCollisions (projs l) (enemies l) (boss l) (out s) in
  mkSim (lvBoss (lvEnemies (lvProjs l prs) es) ob) (pl s) cues.

(** "Arrows hit player (crouch aids)": one iteration. *)
Definition arrowHit (p : Player) (cues : list Cue) (ar : Projectile)
  : Player * list Cue :=
  if aabb (pr_box ar) (p_box p) then
    let arrowMidY := y (pr_box ar) + h (pr_box ar) / 2 in
    let headHeight := y (p_box p) + (if crouch p then 4 else 6) in
    if negb (crouch p && Qltb arrowMidY headHeight) then
      (withBody p (bodyVy (bodyVx (p_body p) (- Qsign (pr_vx ar) * 1.6)) (-2.5)),
       cues ++ [SfxHit])
    else (p, cues)
  else (p, cues).

Definition arrowsHitPlayer (ars : list Projectile) (p : Player) (cues : list Cue)
  : Player * list Cue :=
  fold_left (fun acc ar => arrowHit (fst acc) (snd acc) ar) ars (p, cues).

Definition arrowsStep (s : Sim) : Sim :=
  let '(p, cues) := arrowsHitPlayer (arrows (lv s)) (pl s) (out s) in
  mkSim (lv s) p cues.

(** "Boss AI" *)
Definition volleyArrow (b : Boss) (p : Player) : Projectile :=
  let dir : Q := if Qltb (x (p_box p)) (x (bo_box b)) then -1 else 1 in
  mkProjectile
    (mkRect (x (bo_box b) + (if Qeq_bool dir 1 then w (bo_box b) else -4))
            (y (bo_box b) + 7) 5 2)
    (dir * 1.8) 0 200 false.

Definition bossAI (dt : Q) (l : Level) (p : Player) (b0 : Boss) : Level * Boss :=
  let b := bossTimer b0 (timer b0 + 1) in
  if (phase b =? 0)%Z then
    let b1 :=
      if (timer b =? 1)%Z then
        bossBody b
          (bodyVy (bodyVx (bo_body b)
                          (if Qltb (x (p_box p)) (x (bo_box b)) then -1.2 else 1.2))
                  (-4.5))
      else b in
    let b2 := bossIntegrate b1 (platforms l) dt in
    (l, if grounded b2 && (90 <? timer b2)%Z then bossPhase b2 1 0 else b2)
  else if (phase b =? 1)%Z then
    let l1 := if (timer b =? 1)%Z then spawnShockwave l b else l in
    (l1, if (100 <? timer b)%Z then bossPhase b 2 0 else b)
  else if (phase b =? 2)%Z then
    let l1 :=
      if (timer b =? 1)%Z || (timer b =? 30)%Z || (timer b =? 60)%Z
      then lvArrows l (arrows l ++ [volleyArrow b p])
      else l in
    (l1, if (100 <? timer b)%Z then bossPhase b 0 0 else b)
  else (l, b).

Definition bossStep (dt : Q) (s : Sim) : Sim :=
  match boss (lv s) with
  | Some b0 =>
      if bo_alive b0 then
        let '(l1, b) := bossAI dt (lv s) (pl s) b0 in
        let p := pl s in
        let p' :=
          if aabb (bo_box b) (p_box p) then
            withBody p
              (bodyVy (bodyVx (p_body p)
                              (if Qltb (x (p_box p)) (x (bo_box b)) then -1.5 else 1.5))
                      (-3))
          else p in
        mkSim (lvBoss l1 (Some b)) p' (out s)
      else s
  | None => s
  end.

(** ** The tick *)

Definition tickStep (s : Sim) : Sim := simLv s (lvTick (lv s) (tick (lv s) + 1)).

Definition update (level : Level) (p : Player) (keys : Keys) (t dt : Q) : Sim :=
  let s0 := mkSim level p [] in
  let s1 := movePlatforms dt (tickStep s0) in
  let s2 := fireStep keys t (inputStep keys s1) in
  let s3 := integrateStep dt (crouchStep (gravityStep dt s2)) in
  let s4 := enemiesStep dt (cameraStep s3) in
  let s5 := fireballStep (projectilesStep dt s4) in
  bossStep dt (arrowsStep s5).

(** ** Consecutive ticks *)

(** What the main loop passes to [update] on one animation frame: the key
    snapshot, the current time and the clamped frame scale. *)
Record Frame := mkFrame { f_keys : Keys; f_t : Q; f_dt : Q }.

(** One pass of the main loop while the mode is "playing": [update] on the
    level and the player that the previous pass left.  The cues of the
    result are those of this tick. *)
Definition tickOn (s : Sim) (f : Frame) : Sim :=
  update (lv s) (pl s) (f_keys f) (f_t f) (f_dt f).

(** Consecutive passes on one level. *)
Definition ticks (frames : list Frame) (s : Sim) : Sim :=
  fold_left tickOn frames s.

Definition isShoot (c : Cue) : bool :=
  match c with SfxShoot => true | _ => false end.

Definition isHit (c : Cue) : bool :=
  match c with SfxHit => true | _ => false end.

(** The number of shoot cues, that is of fireballs spawned, in a tick's cues. *)
Definition shots (cues : list Cue) : nat := length (filter isShoot cues).

(** The number of hit cues in a tick's cues. *)
Definition hits (cues : list Cue) : nat := length (filter isHit cues).

(** ** The main loop and the keyboard *)

(** The frame scale of the main loop: [lastTimeRef] is set to [t] when it is
    still 0, [dt = clamp((t - last) / 16.67, 0.5, 1.5)], and [t] is the new
    [lastTimeRef].  The result is [dt] and the new [lastTimeRef]. *)
Definition frameScale (lastTime t : Q) : Q * Q :=
  let last := if Qeq_bool lastTime 0 then t else lastTime in
  (clamp ((t - last) / 16.67) 0.5 1.5, t).

(** What the handlers of [useKeys] read of a keyboard event. *)
Record KeyEvent := mkKeyEvent { ev_key : string; ev_code : string }.

(** [names.includes(e.key)] *)
Definition includes (names : list string) (k : string) : bool :=
  existsb (String.eqb k) names.

Definition setLeft (ks : Keys) (v : bool) : Keys :=
  mkKeys v (k_right ks) (k_up ks) (k_down ks) (k_jump ks) (k_fire ks) (k_crouch ks).
Definition setRight (ks : Keys) (v : bool) : Keys :=
  mkKeys (k_left ks) v (k_up ks) (k_down ks) (k_jump ks) (k_fire ks) (k_crouch ks).
Definition setUp (ks : Keys) (v : bool) : Keys :=
  mkKeys (k_left ks) (k_right ks) v (k_down ks) (k_jump ks) (k_fire ks) (k_crouch ks).
Definition setDown (ks : Keys) (v : bool) : Keys :=
  mkKeys (k_left ks) (k_right ks) (k_up ks) v (k_jump ks) (k_fire ks) (k_crouch ks).
Definition setJump (ks : Keys) (v : bool) : Keys :=
  mkKeys (k_left ks) (k_right ks) (k_up ks) (k_down ks) v (k_fire ks) (k_crouch ks).
Definition setFire (ks : Keys) (v : bool) : Keys :=
  mkKeys (k_left ks) (k_right ks) (k_up ks) (k_down ks) (k_jump ks) v (k_crouch ks).
Definition setCrouch (ks : Keys) (v : bool) : Keys :=
  mkKeys (k_left ks) (k_right ks) (k_up ks) (k_down ks) (k_jump ks) (k_fire ks) v.

(** The body that [onDown] and [onUp] share: seven tests in a row, each
    writing [v] to one flag ([true] for [onDown], [false] for [onUp]). *)
Definition keyHandler (v : bool) (ks : Keys) (e : KeyEvent) : Keys :=
  let k := ev_key e in
  let ks1 := if includes ["ArrowLeft"; "a"; "A"]%string k then setLeft ks v else ks in
  let ks2 := if includes ["ArrowRight"; "d"; "D"]%string k then setRight ks1 v else ks1 in
  let ks3 := if includes ["ArrowUp"; "w"; "W"]%string k then setUp ks2 v else ks2 in
  let ks4 := if includes ["ArrowDown"; "s"; "S"]%string k then setDown ks3 v else ks3 in
  let ks5 := if String.eqb k " "%string || String.eqb (ev_code e) "Space"%string
             then setJump ks4 v else ks4 in
  let ks6 := if String.eqb k "f"%string || String.eqb k "F"%string then setFire ks5 v else ks5 in
  if includes ["ArrowDown"; "s"; "S"]%string k then setCrouch ks6 v else ks6.

Definition onDown (ks : Keys) (e : KeyEvent) : Keys := keyHandler true ks e.
Definition onUp (ks : Keys) (e : KeyEvent) : Keys := keyHandler false ks e.

(** The key state [useKeys] starts from. *)
Definition initialKeys : Keys := mkKeys false false false false false false false.

(** A keyboard event as the window delivers it: [true] for keydown. *)
Definition keyEvents (ks : Keys) (events : list (bool * KeyEvent)) : Keys :=
  fold_left (fun (acc : Keys) (ev : bool * KeyEvent) =>
               if fst ev then onDown acc (snd ev) else onUp acc (snd ev))
            events ks.

(** ** Vocabulary of the statements *)

(** [p'] is [p] up to its velocity. *)
Definition velocityOnly (p p' : Player) : Prop :=
  p_box p' = p_box p /\ crouch p' = crouch p /\ facing p' = facing p
  /\ canFireAt p' = canFireAt p /\ invuln p' = invuln p
  /\ onGround (p_body p') = onGround (p_body p).

(** The arrows an enemy shoots: hostile, with 240 ticks to live. *)
Definition archerArrow (a : Projectile) : Prop :=
  life a = 240%Z /\ friendly a = false.

(** Projectile [pr] overlaps the living enemy [e]. *)
Definition hitsEnemy (pr : Projectile) (e : Enemy) : bool :=
  e_alive e && aabb (pr_box pr) (e_box e).

Definition struck (pr : Projectile) (e : Enemy) : Enemy :=
  if hitsEnemy pr e then enemyAlive e false else e.

(** The boss test: whether it fires, and what it leaves of the boss. *)
Definition hitsBoss (pr : Projectile) (ob : option Boss) : bool :=
  match ob with
  | Some b => bo_alive b && aabb (pr_box pr) (bo_box b)
  | None => false
  end.

Definition woundedBoss (b : Boss) : Boss :=
  mkBoss (bo_body b) (hp b - 1) (if (hp b - 1 <=? 0)%Z then false else bo_alive b)
         (phase b) (timer b).

(** What the fireball loops may do to a projectile: nothing, or force its
    lifetime to zero. *)
Definition spent (pr pr' : Projectile) : Prop := pr' = pr \/ pr' = prLife pr 0.

(** The fire gate: the fire input is held and the time has reached
    [canFireAt]. *)
Definition fireGate (keys : Keys) (t : Q) (p : Player) : bool :=
  k_fire keys && Qgeb t (canFireAt p).

(** The fireball the player spawns. *)
Definition fireball (p : Player) : Projectile :=
  mkProjectile
    (mkRect (match facing p with
             | FaceRight => x (p_box p) + w (p_box p)
             | FaceLeft => x (p_box p) - 4
             end)
            (y (p_box p) + 4) 4 3)
    (facingNum (facing p) * 2.2) 0 120 true.

Definition arrowMid (ar : Projectile) : Q := y (pr_box ar) + h (pr_box ar) / 2.

Definition headLine (p : Player) : Q :=
  y (p_box p) + (if crouch p then 4 else 6).

(** The player after the knockback of arrow [ar]. *)
Definition knockedBy (ar : Projectile) (p : Player) : Player :=
  withBody p (bodyVy (bodyVx (p_body p) (- Qsign (pr_vx ar) * 1.6)) (-2.5)).

(** Arrow [ar] overlaps the player and is not ducked under. *)
Definition strikes (p : Player) (ar : Projectile) : bool :=
  aabb (pr_box ar) (p_box p)
  && negb (crouch p && Qltb (arrowMid ar) (y (p_box p) + 4)).

(** What the fireball loops may do to the boss: lower its hit points and
    clear its alive flag. *)
Definition hurt (b b' : Boss) : Prop :=
  bo_body b' = bo_body b /\ phase b' = phase b /\ timer b' = timer b
  /\ (hp b' <= hp b)%Z /\ (bo_alive b' = true -> bo_alive b = true).

(** The arrows the boss spawns: shockwaves live 90 ticks, volley arrows 200. *)
Definition bossArrow (a : Projectile) : Prop :=
  (life a = 90%Z \/ life a = 200%Z) /\ friendly a = false.

(** The two shockwaves of phase 1. *)
Definition shockwaves (b : Boss) : list Projectile :=
  let bx := bo_box b in
  [mkProjectile (mkRect (x bx) (y bx + h bx - 2) 6 2) (-1.6) 0 90 false;
   mkProjectile (mkRect (x bx + w bx - 6) (y bx + h bx - 2) 6 2) 1.6 0 90 false].

(** What the boss spawns in a tick it enters with phase [phase b] and timer
    [timer b]: the timer counts this tick first. *)
Definition bossShots (b : Boss) (p : Player) : list Projectile :=
  if (phase b =? 1)%Z then
    if (timer b + 1 =? 1)%Z then shockwaves b else []
  else if (phase b =? 2)%Z then
    if (timer b + 1 =? 1)%Z || (timer b + 1 =? 30)%Z || (timer b + 1 =? 60)%Z
    then [volleyArrow b p] else []
  else [].

(** The state after the "Input" block of a tick. *)
Definition afterInput (level : Level) (p : Player) (keys : Keys) (dt : Q) : Sim :=
  inputStep keys (movePlatforms dt (tickStep (mkSim level p []))).

(** The state that enters the "Boss AI" block of a tick. *)
Definition beforeBoss (level : Level) (p : Player) (keys : Keys) (t dt : Q) : Sim :=
  arrowsStep (fireballStep (projectilesStep dt (enemiesStep dt
    (cameraStep (integrateStep dt (crouchStep (gravityStep dt
      (fireStep keys t (afterInput level p keys dt))))))))).

(** The friendly projectiles a tick works on: those of the level, and the
    fireball when the fire gate opens. *)
Definition projsInFlight (level : Level) (p : Player) (keys : Keys) (t dt : Q)
  : list Projectile :=
  if fireGate keys t p
  then projs level ++ [fireball (pl (afterInput level p keys dt))]
  else projs level.

(** The cull of a tick: integrate, then filter. *)
Definition cull (worldW dt : Q) (prs : list Projectile) : list Projectile :=
  filter (inPlay worldW) (map (integrateProj dt) prs).

(** The boss a loop leaves, against the one it found. *)
Definition hurtOpt (ob ob' : option Boss) : Prop :=
  match ob, ob' with
  | Some b, Some b' => hurt b b'
  | None, None => True
  | _, _ => False
  end.

(** The phase and the timer after a tick that the boss entered in phase
    [ph] with timer [n], [g] telling whether it ended the tick grounded. *)
Definition nextPhase (ph n : Z) (g : bool) : Z * Z :=
  if (ph =? 0)%Z then if g && (90 <? n + 1)%Z then (1, 0)%Z else (0, n + 1)%Z
  else if (ph =? 1)%Z then if (100 <? n + 1)%Z then (2, 0)%Z else (1, n + 1)%Z
  else if (ph =? 2)%Z then if (100 <? n + 1)%Z then (0, 0)%Z else (2, n + 1)%Z
  else (ph, n + 1)%Z.

(** The last timer value of a phase: phase 0 is left when the timer exceeds
    90 (and the boss is grounded), phases 1 and 2 when it exceeds 100. *)
Definition phaseEnd (ph : Z) : Z := if (ph =? 0)%Z then 90%Z else 100%Z.

(** The body after the integration of the horizontal pass, before its loop. *)
Definition movedX (body : Body) (dt : Q) : Body :=
  bodyX body (x (b_box body) + vx body * dt).

(** The body after the integration of the vertical pass, before its loop. *)
Definition movedY (body : Body) (dt : Q) : Body :=
  bodyY (bodyGround body false) (y (b_box body) + vy body * dt).

(** Box [a] overlaps no platform of the list. *)
Definition clearOf (a : Rect) (platforms : list Platform) : Prop :=
  forall q, In q platforms -> aabb a (pl_box q) = false.

(** The horizontal spans of box [a] and platform [p] overlap. *)
Definition spansOverlap (a : Rect) (p : Platform) : bool :=
  Qgtb (x a + w a) (x (pl_box p)) && Qltb (x a) (x (pl_box p) + w (pl_box p)).

(** What [findGroundBelow] accepts: the spans overlap and the top edge of
    the platform is at or below the top edge [y] of the box. *)
Definition groundCandidate (a : Rect) (p : Platform) : bool :=
  spansOverlap a p && Qgeb (y (pl_box p)) (y a).

(** What the specification says it accepts: the spans overlap and the top
    edge of the platform is at or below the feet [y + h] of the box. *)
Definition belowFeet (a : Rect) (p : Platform) : bool :=
  spansOverlap a p && Qgeb (y (pl_box p)) (y a + h a).

(** The box of a living enemy after its move of the tick, before the snap:
    a swordsman walks, an archer stands. *)
Definition walked (dt : Q) (e : Enemy) : Rect :=
  match e_kind e with
  | swordsman dir _ _ speed => setX (e_box e) (x (e_box e) + dir * speed * dt)
  | archer _ _ => e_box e
  end.

(** What the loop of [findGroundBelow] knows after the platforms [seen]. *)
Definition groundInv (a : Rect) (seen : list Platform)
           (acc : option Platform * option Q) : Prop :=
  match fst acc with
  | Some g =>
      snd acc = Some (y (pl_box g)) /\ In g seen /\ groundCandidate a g = true
      /\ forall q, In q seen -> groundCandidate a q = true ->
                   y (pl_box g) <= y (pl_box q)
  | None =>
      snd acc = None /\ forall q, In q seen -> groundCandidate a q = false
  end.

(** A patrol of width [wd] at [x] with velocity [v] is in order for the
    frame scale [dt]: it lies within its range, or it has left the range on
    one side and is heading back so that the next step brings it in. *)
Definition patrolOK (lo hi wd dt x v : Q) : Prop :=
  (lo <= x /\ x + wd <= hi)
  \/ (x < lo /\ 0 < v /\ lo <= x + v * dt)
  \/ (hi < x + wd /\ v < 0 /\ x + wd + v * dt <= hi).

(** A kinematic platform on patrol: its velocity [v] is not zero, its speed
    is [s], and its position is in order for [dt]; size, height and range
    are those of [p0]. *)
Definition onPatrol (lo hi s dt : Q) (p0 p : Platform) : Prop :=
  y (pl_box p) = y (pl_box p0) /\ w (pl_box p) = w (pl_box p0)
  /\ h (pl_box p) = h (pl_box p0) /\ pl_range p = Some (lo, hi)
  /\ exists v, pl_vx p = Some v /\ ~ v == 0 /\ Qabs v == s
               /\ patrolOK lo hi (w (pl_box p0)) dt (x (pl_box p)) v.

(** A swordsman, alive or dead, on patrol between [mn] and [mx] at speed
    [sp]: its size is that of [e0], the magnitude of its velocity is [s] and
    its position is in order for [dt]. *)
Definition onWatch (mn mx sp s dt : Q) (e0 e : Enemy) : Prop :=
  w (e_box e) = w (e_box e0) /\ h (e_box e) = h (e_box e0)
  /\ exists dir, e_kind e = swordsman dir mn mx sp /\ Qabs (dir * sp) == s
                 /\ patrolOK mn mx (w (e_box e0)) dt (x (e_box e)) (dir * sp).

(** A component of the velocity after the collision loops: kept or zeroed. *)
Definition keptOrZero (before after : Q) : Prop := after = before \/ after = 0.

(** The player from the "Input" block to the "Camera follow" block. *)
Definition afterPhysics (level : Level) (p : Player) (keys : Keys) (t dt : Q) : Sim :=
  cameraStep (integrateStep dt (crouchStep (gravityStep dt
    (fireStep keys t (afterInput level p keys dt))))).

(** The blocks from "Enemies AI" on. *)
Definition afterContacts (dt : Q) (s : Sim) : Sim :=
  bossStep dt (arrowsStep (fireballStep (projectilesStep dt (enemiesStep dt s)))).

(** The fields of the player that only the "Input" block writes. *)
Definition stance (p : Player) : bool * Facing * Q := (crouch p, facing p, invuln p).

(** The bounds that the tick keeps on the player's velocity: the speed of
    the strongest knockback sideways, the jump velocity upwards, the
    terminal velocity downwards. *)
Definition velOK (p : Player) : Prop :=
  Qabs (vx (p_body p)) <= 1.6
  /\ JUMP_VEL <= vy (p_body p) /\ vy (p_body p) <= MAX_FALL.

(** The kind of an enemy and its constants: the patrol bounds and speed of a
    swordsman, the fire rate of an archer. *)
Definition sameKind (e e' : Enemy) : Prop :=
  match e_kind e, e_kind e' with
  | swordsman _ mn mx sp, swordsman _ mn' mx' sp' => mn' = mn /\ mx' = mx /\ sp' = sp
  | archer _ fr, archer _ fr' => fr' = fr
  | _, _ => False
  end.

(** What a tick may do to an enemy: it keeps its size and its kind, it does
    not come back to life, and a dead enemy is left exactly as it is. *)
Definition enemyKept (e e' : Enemy) : Prop :=
  w (e_box e') = w (e_box e) /\ h (e_box e') = h (e_box e)
  /\ sameKind e e'
  /\ (e_alive e' = true -> e_alive e = true)
  /\ (e_alive e = false -> e' = e).

(** The fireball [pr] reaches the box of the boss. *)
Definition bossHitBy (b : Boss) (pr : Projectile) : bool :=
  friendly pr && aabb (pr_box pr) (bo_box b).

(** What no block after "Camera follow" writes. *)
Definition fixtures (l : Level)
  : LevelKind * list Platform * Rect * Q * Q * Z * Q :=
  (kind l, platforms l, gem l, worldW l, worldH l, tick l, cameraX l).

(** The friction of the "Input" block when no direction is wanted. *)
Definition friction (v : Q) : Q :=
  if Qltb (Qabs (v * 0.8)) 0.02 then 0 else v * 0.8.

(** The jump gate: the jump key is held, the player was on the ground when
    the tick began and the crouch key is not held. *)
Definition jumpGate (keys : Keys) (p : Player) : bool :=
  k_jump keys && onGround (p_body p) && negb (k_crouch keys).

(** [0.8 ^ n] *)
Definition decay (n : nat) : Q := Nat.iter n (Qmult 0.8) 1.

(** The state that enters the "Crouch height" block of a tick. *)
Definition beforeCrouch (level : Level) (p : Player) (keys : Keys) (t dt : Q) : Sim :=
  gravityStep dt (fireStep keys t (afterInput level p keys dt)).

(** The state that enters the "Arrows hit player" block of a tick. *)
Definition beforeArrows (level : Level) (p : Player) (keys : Keys) (t dt : Q) : Sim :=
  fireballStep (projectilesStep dt (enemiesStep dt
    (cameraStep (integrateStep dt (crouchStep (beforeCrouch level p keys t dt)))))).

(** The number of friendly projectiles that reach the boss [b] in the hit
    resolution of a tick: those in flight, after the cull. *)
Definition bossHits (level : Level) (p : Player) (keys : Keys) (t dt : Q)
           (b : Boss) : Z :=
  Z.of_nat (length (filter (bossHitBy b)
                           (cull (worldW level) dt
                                 (projsInFlight level p keys t dt)))).

(** The arrows that the "Boss AI" block of a tick appended: what the
    collection holds at the end of the tick after the arrows that entered
    the block. *)
Definition bossSpawned (s : Sim) (f : Frame) : list Projectile :=
  skipn (length (arrows (lv (beforeBoss (lv s) (pl s) (f_keys f) (f_t f) (f_dt f)))))
        (arrows (lv (tickOn s f))).

(** The arrows that the "Boss AI" block appended over a run of ticks, in
    the order of their spawning. *)
Fixpoint spawnedOver (frames : list Frame) (s : Sim) : list Projectile :=
  match frames with
  | [] => []
  | f :: rest => bossSpawned s f ++ spawnedOver rest (tickOn s f)
  end.

(** The timer values, counted first, at which a phase spawns, and how many
    projectiles it spawns there. *)
Definition due (ph n : Z) : nat :=
  if (ph =? 1)%Z then if (n + 1 =? 1)%Z then 2%nat else 0%nat
  else if (ph =? 2)%Z then
    if (n + 1 =? 1)%Z || (n + 1 =? 30)%Z || (n + 1 =? 60)%Z then 1%nat else 0%nat
  else 0%nat.

Fixpoint dueOver (ph n : Z) (len : nat) : nat :=
  match len with
  | O => O
  | S k => (due ph n + dueOver ph (n + 1) k)%nat
  end.

(** No frame of the run has the fire key held. *)
Definition noFire (frames : list Frame) : Prop :=
  Forall (fun f => k_fire (f_keys f) = false) frames.

(** ** Concrete inputs *)

Definition noKeys : Keys := mkKeys false false false false false false false.

Definition fireKeys : Keys := mkKeys false false false false false true false.

(** Stage 2 with a fireball in flight just left of the swordsman. *)
Definition levelHit : Level :=
  lvProjs levelFase2 [mkProjectile (mkRect 356 100 4 3) 2.2 0 100 true].


Definition idle : Frame := mkFrame noKeys 0 1.

(** The boss level as the game starts it, after [n] idle frames. *)
Definition bossLevelAfter (n : nat) : Sim :=
  ticks (repeat idle n) (mkSim levelBoss (makePlayer 24 40) []).

(** Phase, timer and ground flag of the boss, and the number of arrows. *)
Definition bossView (s : Sim) : option (Z * Z * bool) * Z :=
  (option_map (fun b => (phase b, timer b, grounded b)) (boss (lv s)),
   Z.of_nat (length (arrows (lv s)))).

(** A body entering a corner from the left at speed 1.5, and the two
    platforms of the corner, the lower one reaching half a unit further
    left.  The body overlaps neither before it moves. *)
Definition cornerBody : Body := mkBody (mkRect (-0.6) 0 8 12) 1.5 0 false.
Definition cornerUpper : Platform := still (mkRect 8 0 10 6).
Definition cornerLower : Platform := still (mkRect 7.5 6 10 6).

(** A swordsman's box standing on the ground of stage 2, and a step ten
    units high in front of it. *)
Definition standingBox : Rect := mkRect 360 96 10 14.
Definition groundPlatform : Platform := still (mkRect 0 110 700 8).
Definition stepPlatform : Platform := still (mkRect 350 100 30 10).
(** * Properties *)

(** ** Comparisons *)

Lemma Qltb_lt (a b : Q) : Qltb a b = true <-> a < b.
Proof.
  unfold Qltb. rewrite negb_true_iff, <- not_true_iff_false, Qle_bool_iff.
  split; [apply Qnot_le_lt | apply Qlt_not_le].
Qed.

Lemma Qltb_ge (a b : Q) : Qltb a b = false <-> b <= a.
Proof.
  unfold Qltb. rewrite negb_false_iff. apply Qle_bool_iff.
Qed.

Lemma Qleb_le (a b : Q) : Qleb a b = true <-> a <= b.
Proof. apply Qle_bool_iff. Qed.

Lemma Qleb_gt (a b : Q) : Qleb a b = false <-> b < a.
Proof.
  unfold Qleb. rewrite <- not_true_iff_false, Qle_bool_iff.
  split; [apply Qnot_le_lt | apply Qlt_not_le].
Qed.

Lemma Qgtb_gt (a b : Q) : Qgtb a b = true <-> b < a.
Proof. apply Qltb_lt. Qed.

Lemma Qgtb_le (a b : Q) : Qgtb a b = false <-> a <= b.
Proof. apply Qltb_ge. Qed.

Lemma Qgeb_ge (a b : Q) : Qgeb a b = true <-> b <= a.
Proof. apply Qle_bool_iff. Qed.

Lemma Qgeb_lt (a b : Q) : Qgeb a b = false <-> a < b.
Proof. apply Qleb_gt. Qed.

(** Turns every boolean comparison in the context and the goal into the
    order relation it decides. *)
Ltac qbool :=
  repeat match goal with
  | H : Qltb _ _ = true |- _ => apply Qltb_lt in H
  | H : Qltb _ _ = false |- _ => apply Qltb_ge in H
  | H : Qleb _ _ = true |- _ => apply Qleb_le in H
  | H : Qleb _ _ = false |- _ => apply Qleb_gt in H
  | H : Qgtb _ _ = true |- _ => apply Qgtb_gt in H
  | H : Qgtb _ _ = false |- _ => apply Qgtb_le in H
  | H : Qgeb _ _ = true |- _ => apply Qgeb_ge in H
  | H : Qgeb _ _ = false |- _ => apply Qgeb_lt in H
  | |- Qltb _ _ = true => apply Qltb_lt
  | |- Qltb _ _ = false => apply Qltb_ge
  | |- Qleb _ _ = true => apply Qleb_le
  | |- Qleb _ _ = false => apply Qleb_gt
  | |- Qgtb _ _ = true => apply Qgtb_gt
  | |- Qgtb _ _ = false => apply Qgtb_le
  | |- Qgeb _ _ = true => apply Qgeb_ge
  | |- Qgeb _ _ = false => apply Qgeb_lt
  end.

(** [aabb] as the four strict inequalities of an overlap. *)
Lemma aabb_true (a b : Rect) :
  aabb a b = true <->
  x b < x a + w a /\ x a < x b + w b /\ y b < y a + h a /\ y a < y b + h b.
Proof.
  unfold aabb. rewrite negb_true_iff, !orb_false_iff.
  split.
  - intros [[[H1 H2] H3] H4]. qbool. tauto.
  - intros (H1 & H2 & H3 & H4). repeat split; qbool; assumption.
Qed.

Lemma aabb_false (a b : Rect) :
  aabb a b = false <->
  x a + w a <= x b \/ x b + w b <= x a \/ y a + h a <= y b \/ y b + h b <= y a.
Proof.
  unfold aabb. rewrite negb_false_iff, !orb_true_iff.
  split.
  - intros [[[H | H] | H] | H]; qbool; tauto.
  - intros [H | [H | [H | H]]]; [left; left; left | left; left; right
                                 | left; right | right]; qbool; assumption.
Qed.

(** ** Folds, for any step function *)

Section Fold.
Context {A B : Type} (step : A -> B -> A).

Lemma fold_left_nil (a : A) : fold_left step [] a = a.
Proof. reflexivity. Qed.

Lemma fold_left_cons (b : B) (l : list B) (a : A) :
  fold_left step (b :: l) a = fold_left step l (step a b).
Proof. reflexivity. Qed.

Lemma fold_left_snoc (b : B) (l : list B) (a : A) :
  fold_left step (l ++ [b]) a = step (fold_left step l a) b.
Proof. rewrite fold_left_app. reflexivity. Qed.
End Fold.

(** ** The arrow loop *)

Lemma arrowHit_strikes (p : Player) (cues : list Cue) (ar : Projectile) :
  arrowHit p cues ar =
  if strikes p ar then (knockedBy ar p, cues ++ [SfxHit]) else (p, cues).
Proof.
  unfold arrowHit, strikes, knockedBy, arrowMid.
  destruct (aabb (pr_box ar) (p_box p)); [|reflexivity].
  destruct (crouch p); cbn [andb negb]; [|reflexivity].
  destruct (Qltb _ _); reflexivity.
Qed.

Lemma strikes_knockedBy (ar ar' : Projectile) (p : Player) :
  strikes (knockedBy ar' p) ar = strikes p ar.
Proof. reflexivity. Qed.

Lemma knockedBy_twice (ar ar' : Projectile) (p : Player) :
  knockedBy ar (knockedBy ar' p) = knockedBy ar p.
Proof. reflexivity. Qed.

(** The loop: the velocity is that of the last striking arrow, and every
    striking arrow triggers one hit cue. *)
Lemma arrowsHitPlayer_spec (ars : list Projectile) (p : Player) (cues : list Cue) :
  arrowsHitPlayer ars p cues =
  (match find (strikes p) (rev ars) with
   | Some ar => knockedBy ar p
   | None => p
   end,
   cues ++ repeat SfxHit (length (filter (strikes p) ars))).
Proof.
  unfold arrowsHitPlayer.
  induction ars as [|ar ars IH] using rev_ind.
  - cbn. now rewrite app_nil_r.
  - rewrite fold_left_app, IH. cbn [fold_left fst snd].
    rewrite rev_app_distr, filter_app, length_app, repeat_app. cbn [rev app find].
    rewrite arrowHit_strikes.
    destruct (find (strikes p) (rev ars)) as [ar'|] eqn:F.
    + rewrite strikes_knockedBy, knockedBy_twice.
      destruct (strikes p ar) eqn:S; cbn [filter length repeat].
      * now rewrite S, app_assoc.
      * now rewrite S, app_nil_r.
    + destruct (strikes p ar) eqn:S; cbn [filter length repeat].
      * now rewrite S, app_assoc.
      * now rewrite S, app_nil_r.
Qed.

Lemma Qsign_pos (a : Q) : 0 < a -> Qsign a = 1.
Proof.
  unfold Qsign, Qlt. destruct a as [n d]. cbn. intros H.
  rewrite Z.mul_1_r in H. now rewrite (Z.sgn_pos n H).
Qed.

Lemma Qsign_neg (a : Q) : a < 0 -> Qsign a = inject_Z (-1).
Proof.
  unfold Qsign, Qlt. destruct a as [n d]. cbn. intros H.
  rewrite Z.mul_1_r in H. now rewrite (Z.sgn_neg n H).
Qed.

Lemma Qsign_zero (a : Q) : a == 0 -> Qsign a = 0.
Proof.
  unfold Qsign, Qeq. destruct a as [n d]. cbn. intros H.
  rewrite Z.mul_1_r in H. now subst n.
Qed.

(** ** What each block of the tick leaves alone *)

(** *** The enemy loop *)

Lemma velocityOnly_refl (p : Player) : velocityOnly p p.
Proof. unfold velocityOnly. tauto. Qed.

Lemma velocityOnly_trans (p q r : Player) :
  velocityOnly p q -> velocityOnly q r -> velocityOnly p r.
Proof.
  unfold velocityOnly.
  intros (A1 & A2 & A3 & A4 & A5 & A6) (B1 & B2 & B3 & B4 & B5 & B6).
  repeat split; congruence.
Qed.

Lemma velocityOnly_set (p : Player) (u v : Q) :
  velocityOnly p (withBody p (bodyVy (bodyVx (p_body p) u) v)).
Proof. unfold velocityOnly. cbn. tauto. Qed.

Lemma enemyAI_player (pls : list Platform) (dt : Q) (e : Enemy) (p : Player)
      (ars : list Projectile) :
  velocityOnly p (snd (fst (enemyAI pls dt e p ars))).
Proof.
  unfold enemyAI.
  destruct (e_alive e); cbn [negb]; [|apply velocityOnly_refl].
  destruct (e_kind e) as [d mn mx sp | cd fr].
  - cbn [fst snd].
    destruct (aabb _ _); [apply velocityOnly_set | apply velocityOnly_refl].
  - destruct (_ <=? _)%Z; apply velocityOnly_refl.
Qed.

Lemma enemiesAI_player (pls : list Platform) (dt : Q) (es : list Enemy) :
  forall (p : Player) (ars : list Projectile),
    velocityOnly p (snd (fst (enemiesAI pls dt es p ars))).
Proof.
  induction es as [|e es IH]; intros p ars; cbn [enemiesAI].
  - apply velocityOnly_refl.
  - pose proof (enemyAI_player pls dt e p ars) as H1.
    destruct (enemyAI pls dt e p ars) as [[e' p1] ars1].
    specialize (IH p1 ars1).
    destruct (enemiesAI pls dt es p1 ars1) as [[es' p2] ars2].
    cbn [fst snd] in *. eapply velocityOnly_trans; eassumption.
Qed.

Lemma enemyAI_arrows (pls : list Platform) (dt : Q) (e : Enemy) (p : Player)
      (ars : list Projectile) :
  exists shot, snd (enemyAI pls dt e p ars) = ars ++ shot
               /\ Forall archerArrow shot.
Proof.
  unfold enemyAI.
  destruct (e_alive e); cbn [negb];
    [|exists []; rewrite app_nil_r; split; [reflexivity | constructor]].
  destruct (e_kind e) as [d mn mx sp | cd fr].
  - exists []. rewrite app_nil_r. split; [reflexivity | constructor].
  - destruct (_ <=? _)%Z.
    + eexists [_]. split; [reflexivity|].
      constructor; [split; reflexivity | constructor].
    + exists []. rewrite app_nil_r. split; [reflexivity | constructor].
Qed.

Lemma enemiesAI_arrows (pls : list Platform) (dt : Q) (es : list Enemy) :
  forall (p : Player) (ars : list Projectile),
  exists shot, snd (enemiesAI pls dt es p ars) = ars ++ shot
               /\ Forall archerArrow shot.
Proof.
  induction es as [|e es IH]; intros p ars; cbn [enemiesAI].
  - exists []. rewrite app_nil_r. split; [reflexivity | constructor].
  - destruct (enemyAI_arrows pls dt e p ars) as (shot1 & E1 & F1).
    destruct (enemyAI pls dt e p ars) as [[e' p1] ars1].
    destruct (IH p1 ars1) as (shot2 & E2 & F2).
    destruct (enemiesAI pls dt es p1 ars1) as [[es' p2] ars2].
    cbn [snd] in *. subst ars1 ars2.
    exists (shot1 ++ shot2). rewrite app_assoc. split; [reflexivity|].
    apply Forall_app. split; assumption.
Qed.

Lemma enemiesStep_fields (dt : Q) (s : Sim) :
  projs (lv (enemiesStep dt s)) = projs (lv s)
  /\ boss (lv (enemiesStep dt s)) = boss (lv s)
  /\ worldW (lv (enemiesStep dt s)) = worldW (lv s)
  /\ platforms (lv (enemiesStep dt s)) = platforms (lv s)
  /\ out (enemiesStep dt s) = out s
  /\ canFireAt (pl (enemiesStep dt s)) = canFireAt (pl s).
Proof.
  unfold enemiesStep.
  pose proof (enemiesAI_player (platforms (lv s)) dt (enemies (lv s)) (pl s)
                               (arrows (lv s))) as H.
  destruct (enemiesAI _ _ _ _ _) as [[es p'] ars].
  unfold velocityOnly in H. cbn in *. tauto.
Qed.

Lemma enemiesStep_arrows (dt : Q) (s : Sim) :
  exists shot, arrows (lv (enemiesStep dt s)) = arrows (lv s) ++ shot
               /\ Forall archerArrow shot.
Proof.
  unfold enemiesStep.
  destruct (enemiesAI_arrows (platforms (lv s)) dt (enemies (lv s)) (pl s)
                             (arrows (lv s))) as (shot & E & F).
  destruct (enemiesAI _ _ _ _ _) as [[es p'] ars]. cbn in *.
  exists shot. split; assumption.
Qed.

(** *** The fireball loops *)

Lemma hitsEnemy_prLife (pr : Projectile) (v : Z) :
  hitsEnemy (prLife pr v) = hitsEnemy pr.
Proof. reflexivity. Qed.

Lemma struck_prLife (pr : Projectile) (v : Z) :
  struck (prLife pr v) = struck pr.
Proof. reflexivity. Qed.

Lemma prLife_prLife (pr : Projectile) (u v : Z) :
  prLife (prLife pr u) v = prLife pr v.
Proof. reflexivity. Qed.

Lemma hitEnemies_spec (es : list Enemy) :
  forall (pr : Projectile) (cues : list Cue),
    hitEnemies pr es cues =
    (if existsb (hitsEnemy pr) es then prLife pr 0 else pr,
     map (struck pr) es,
     cues ++ repeat SfxHit (length (filter (hitsEnemy pr) es))).
Proof.
  induction es as [|e es IH]; intros pr cues; cbn [hitEnemies].
  - cbn. now rewrite app_nil_r.
  - cbn [existsb map filter]. unfold struck at 1.
    destruct (hitsEnemy pr e) eqn:H; unfold hitsEnemy in H.
    + apply andb_prop in H as [Ha Hb]. rewrite Ha, Hb. cbn [negb orb].
      rewrite IH, hitsEnemy_prLife, struck_prLife, prLife_prLife.
      cbn [length repeat]. rewrite <- app_assoc. cbn [app].
      destruct (existsb (hitsEnemy pr) es); reflexivity.
    + destruct (e_alive e); cbn [negb andb orb] in *.
      * rewrite H, IH. reflexivity.
      * rewrite IH. reflexivity.
Qed.

Lemma hitBoss_spec (pr : Projectile) (ob : option Boss) (cues : list Cue) :
  hitBoss pr ob cues =
  if hitsBoss pr ob
  then (prLife pr 0, option_map woundedBoss ob, cues ++ [SfxHit])
  else (pr, ob, cues).
Proof.
  unfold hitBoss, hitsBoss. destruct ob as [b|]; [|reflexivity].
  destruct (bo_alive b && aabb (pr_box pr) (bo_box b)); [|reflexivity].
  unfold woundedBoss. cbn. destruct (hp b - 1 <=? 0)%Z; reflexivity.
Qed.

Lemma fireballHit_proj (pr : Projectile) (es : list Enemy) (ob : option Boss)
      (cues : list Cue) :
  let r := fireballHit pr es ob cues in
  spent pr (fst (fst (fst r)))
  /\ exists n, snd r = cues ++ repeat SfxHit n.
Proof.
  unfold fireballHit. destruct (friendly pr); cbn [negb].
  - rewrite hitEnemies_spec, hitBoss_spec.
    destruct (existsb (hitsEnemy pr) es); destruct (hitsBoss _ ob);
      cbn [fst snd]; (split; [unfold spent; auto | ]).
    + exists (length (filter (hitsEnemy pr) es) + 1)%nat.
      now rewrite repeat_app, app_assoc.
    + eexists; reflexivity.
    + exists (length (filter (hitsEnemy pr) es) + 1)%nat.
      now rewrite repeat_app, app_assoc.
    + eexists; reflexivity.
  - cbn. split; [left; reflexivity | exists 0%nat; now rewrite app_nil_r].
Qed.

Lemma fireballCollisions_projs (prs : list Projectile) :
  forall (es : list Enemy) (ob : option Boss) (cues : list Cue),
    let r := fireballCollisions prs es ob cues in
    Forall2 spent prs (fst (fst (fst r)))
    /\ exists n, snd r = cues ++ repeat SfxHit n.
Proof.
  induction prs as [|pr prs IH]; intros es ob cues; cbn [fireballCollisions].
  - cbn. split; [constructor | exists 0%nat; now rewrite app_nil_r].
  - destruct (fireballHit_proj pr es ob cues) as (S1 & n1 & E1).
    destruct (fireballHit pr es ob cues) as [[[pr' es1] ob1] cues1].
    destruct (IH es1 ob1 cues1) as (S2 & n2 & E2).
    destruct (fireballCollisions prs es1 ob1 cues1) as [[[prs' es2] ob2] cues2].
    cbn [fst snd] in *. subst cues1 cues2. split.
    + constructor; assumption.
    + exists (n1 + n2)%nat. now rewrite repeat_app, app_assoc.
Qed.

(** *** The blocks before the projectiles move *)

Lemma shots_app (a b : list Cue) : shots (a ++ b) = (shots a + shots b)%nat.
Proof. unfold shots. now rewrite filter_app, length_app. Qed.

Lemma shots_hits (n : nat) : shots (repeat SfxHit n) = 0%nat.
Proof. induction n; [reflexivity | exact IHn]. Qed.

Lemma hits_app (a b : list Cue) : hits (a ++ b) = (hits a + hits b)%nat.
Proof. unfold hits. now rewrite filter_app, length_app. Qed.

Lemma hits_repeat (n : nat) : hits (repeat SfxHit n) = n.
Proof. induction n; [reflexivity | cbn; now f_equal]. Qed.

Lemma inputStep_fields (keys : Keys) (s : Sim) :
  lv (inputStep keys s) = lv s
  /\ canFireAt (pl (inputStep keys s)) = canFireAt (pl s)
  /\ shots (out (inputStep keys s)) = shots (out s)
  /\ hits (out (inputStep keys s)) = hits (out s).
Proof.
  unfold inputStep.
  destruct (k_jump keys && onGround (p_body (pl s)) && _);
    destruct (k_left keys && negb (k_right keys));
    destruct (k_right keys && negb (k_left keys));
    cbn -[shots hits]; rewrite ?shots_app, ?hits_app; cbn; rewrite ?Nat.add_0_r;
    tauto.
Qed.

Lemma before_fire (level : Level) (p : Player) (keys : Keys) (dt : Q) :
  let s := inputStep keys (movePlatforms dt (tickStep (mkSim level p []))) in
  projs (lv s) = projs level /\ arrows (lv s) = arrows level
  /\ boss (lv s) = boss level /\ worldW (lv s) = worldW level
  /\ enemies (lv s) = enemies level
  /\ canFireAt (pl s) = canFireAt p
  /\ shots (out s) = 0%nat /\ hits (out s) = 0%nat.
Proof.
  cbv zeta.
  destruct (inputStep_fields keys (movePlatforms dt (tickStep (mkSim level p []))))
    as (-> & -> & -> & ->).
  cbn. tauto.
Qed.

Lemma fireStep_fields (keys : Keys) (t : Q) (s : Sim) :
  let s' := fireStep keys t s in
  projs (lv s') = (if fireGate keys t (pl s)
                   then projs (lv s) ++ [fireball (pl s)] else projs (lv s))
  /\ canFireAt (pl s') = (if fireGate keys t (pl s)
                          then t + 5000 else canFireAt (pl s))
  /\ shots (out s') = (if fireGate keys t (pl s)
                       then S (shots (out s)) else shots (out s))
  /\ hits (out s') = hits (out s)
  /\ arrows (lv s') = arrows (lv s) /\ boss (lv s') = boss (lv s)
  /\ worldW (lv s') = worldW (lv s) /\ enemies (lv s') = enemies (lv s).
Proof.
  unfold fireStep, fireGate.
  destruct (k_fire keys && Qgeb t (canFireAt (pl s))); cbn -[shots hits].
  - rewrite shots_app, hits_app. cbn. rewrite Nat.add_1_r, Nat.add_0_r. tauto.
  - tauto.
Qed.

Lemma physics_fields (dt : Q) (s : Sim) :
  let s' := cameraStep (integrateStep dt (crouchStep (gravityStep dt s))) in
  projs (lv s') = projs (lv s) /\ arrows (lv s') = arrows (lv s)
  /\ boss (lv s') = boss (lv s) /\ worldW (lv s') = worldW (lv s)
  /\ enemies (lv s') = enemies (lv s)
  /\ canFireAt (pl s') = canFireAt (pl s) /\ out s' = out s.
Proof.
  cbv zeta. unfold cameraStep, integrateStep, crouchStep, gravityStep, crouchHeight.
  cbn. destruct (Qltb _ _); cbn; tauto.
Qed.

(** *** The blocks from the projectiles on *)

Lemma projectilesStep_fields (dt : Q) (s : Sim) :
  let s' := projectilesStep dt s in
  projs (lv s') = filter (inPlay (worldW (lv s))) (map (integrateProj dt) (projs (lv s)))
  /\ arrows (lv s')
     = filter (inPlay (worldW (lv s))) (map (integrateProj dt) (arrows (lv s)))
  /\ boss (lv s') = boss (lv s) /\ worldW (lv s') = worldW (lv s)
  /\ enemies (lv s') = enemies (lv s)
  /\ pl s' = pl s /\ out s' = out s.
Proof. cbn. tauto. Qed.

Lemma fireballStep_fields (s : Sim) :
  let s' := fireballStep s in
  Forall2 spent (projs (lv s)) (projs (lv s'))
  /\ (exists n, out s' = out s ++ repeat SfxHit n)
  /\ arrows (lv s') = arrows (lv s) /\ worldW (lv s') = worldW (lv s)
  /\ pl s' = pl s.
Proof.
  cbv zeta. unfold fireballStep.
  destruct (fireballCollisions_projs (projs (lv s)) (enemies (lv s)) (boss (lv s))
                                     (out s)) as (F & n & E).
  destruct (fireballCollisions _ _ _ _) as [[[prs es] ob] cues].
  cbn in *. repeat split; try assumption. exists n. assumption.
Qed.

Lemma arrowsStep_fields (s : Sim) :
  let s' := arrowsStep s in
  lv s' = lv s /\ velocityOnly (pl s) (pl s')
  /\ exists n, out s' = out s ++ repeat SfxHit n.
Proof.
  cbv zeta. unfold arrowsStep. rewrite arrowsHitPlayer_spec. cbn.
  split; [reflexivity|]. split; [|eexists; reflexivity].
  destruct (find _ _); [apply velocityOnly_set | apply velocityOnly_refl].
Qed.

(** *** The boss through the tick *)

Lemma hurt_refl (b : Boss) : hurt b b.
Proof. unfold hurt. repeat split; auto. lia. Qed.

Lemma hurt_trans (a b c : Boss) : hurt a b -> hurt b c -> hurt a c.
Proof.
  unfold hurt. intros (A1 & A2 & A3 & A4 & A5) (B1 & B2 & B3 & B4 & B5).
  repeat split; try congruence; [lia | auto].
Qed.

Lemma hurt_wounded (b : Boss) : hurt b (woundedBoss b).
Proof.
  unfold hurt, woundedBoss. cbn. repeat split; [lia|].
  destruct (hp b - 1 <=? 0)%Z; [discriminate | auto].
Qed.

Lemma hurtOpt_refl (ob : option Boss) : hurtOpt ob ob.
Proof. destruct ob; cbn; [apply hurt_refl | exact I]. Qed.

Lemma hurtOpt_trans (a b c : option Boss) :
  hurtOpt a b -> hurtOpt b c -> hurtOpt a c.
Proof.
  destruct a, b, c; cbn; try tauto. apply hurt_trans.
Qed.

Lemma fireballHit_boss (pr : Projectile) (es : list Enemy) (ob : option Boss)
      (cues : list Cue) :
  hurtOpt ob (snd (fst (fireballHit pr es ob cues))).
Proof.
  unfold fireballHit. destruct (friendly pr); cbn [negb].
  - rewrite hitEnemies_spec, hitBoss_spec.
    destruct (hitsBoss _ ob); cbn [fst snd].
    + destruct ob; cbn; [apply hurt_wounded | exact I].
    + apply hurtOpt_refl.
  - apply hurtOpt_refl.
Qed.

Lemma fireballCollisions_boss (prs : list Projectile) :
  forall (es : list Enemy) (ob : option Boss) (cues : list Cue),
    hurtOpt ob (snd (fst (fireballCollisions prs es ob cues))).
Proof.
  induction prs as [|pr prs IH]; intros es ob cues; cbn [fireballCollisions].
  - apply hurtOpt_refl.
  - pose proof (fireballHit_boss pr es ob cues) as H1.
    destruct (fireballHit pr es ob cues) as [[[pr' es1] ob1] cues1].
    specialize (IH es1 ob1 cues1).
    destruct (fireballCollisions prs es1 ob1 cues1) as [[[prs' es2] ob2] cues2].
    cbn [fst snd] in *. eapply hurtOpt_trans; eassumption.
Qed.

Lemma fireballStep_boss (s : Sim) :
  hurtOpt (boss (lv s)) (boss (lv (fireballStep s))).
Proof.
  unfold fireballStep.
  pose proof (fireballCollisions_boss (projs (lv s)) (enemies (lv s))
                                      (boss (lv s)) (out s)) as H.
  destruct (fireballCollisions _ _ _ _) as [[[prs es] ob] cues].
  exact H.
Qed.

Lemma bossAI_boss (dt : Q) (l : Level) (p : Player) (b : Boss) :
  let b' := snd (bossAI dt l p b) in
  hp b' = hp b /\ bo_alive b' = bo_alive b
  /\ (phase b', timer b') = nextPhase (phase b) (timer b) (grounded b')
  /\ (phase b <> 0%Z -> bo_body b' = bo_body b).
Proof.
  cbv zeta. unfold bossAI, nextPhase. cbn [phase timer bossTimer].
  destruct (phase b =? 0)%Z eqn:P0.
  - cbn [snd]. apply Z.eqb_eq in P0.
    destruct (timer b + 1 =? 1)%Z;
      match goal with
      | |- context [bossIntegrate ?k ?pls dt] =>
          set (b2 := bossIntegrate k pls dt);
          assert (Hb2 : hp b2 = hp b /\ bo_alive b2 = bo_alive b
                        /\ phase b2 = phase b /\ timer b2 = (timer b + 1)%Z)
            by (cbn; tauto)
      end;
      destruct Hb2 as (H1 & H2 & H3 & H4);
      (destruct (grounded b2 && (90 <? timer b2)%Z) eqn:G;
       [ assert (G' : grounded (bossPhase b2 1 0) && (90 <? timer b + 1)%Z = true)
           by (rewrite <- H4; exact G);
         rewrite G'
       | assert (G' : grounded b2 && (90 <? timer b + 1)%Z = false)
           by (rewrite <- H4; exact G);
         rewrite G' ]);
      cbn [hp bo_alive phase timer bossPhase];
      repeat split; try congruence.
  - destruct (phase b =? 1)%Z eqn:P1.
    + cbn [snd]. apply Z.eqb_eq in P1.
      destruct (100 <? timer b + 1)%Z; cbn; repeat split; congruence.
    + destruct (phase b =? 2)%Z eqn:P2.
      * cbn [snd]. apply Z.eqb_eq in P2.
        destruct (100 <? timer b + 1)%Z; cbn; repeat split; congruence.
      * cbn. repeat split; reflexivity.
Qed.

Lemma bossAI_level (dt : Q) (l : Level) (p : Player) (b : Boss) :
  let l' := fst (bossAI dt l p b) in
  arrows l' = arrows l ++ bossShots b p
  /\ projs l' = projs l /\ worldW l' = worldW l /\ enemies l' = enemies l
  /\ platforms l' = platforms l.
Proof.
  cbv zeta. unfold bossAI, bossShots. cbn [phase timer bossTimer].
  destruct (phase b =? 0)%Z eqn:P0.
  - apply Z.eqb_eq in P0. rewrite P0. cbn. rewrite app_nil_r. tauto.
  - destruct (phase b =? 1)%Z.
    + cbn [fst]. destruct (timer b + 1 =? 1)%Z; cbn; rewrite ?app_nil_r; tauto.
    + destruct (phase b =? 2)%Z.
      * cbn [fst].
        destruct ((timer b + 1 =? 1)%Z || (timer b + 1 =? 30)%Z
                  || (timer b + 1 =? 60)%Z); cbn; rewrite ?app_nil_r; tauto.
      * cbn. rewrite app_nil_r. tauto.
Qed.

Lemma bossShots_bossArrow (b : Boss) (p : Player) :
  Forall bossArrow (bossShots b p).
Proof.
  unfold bossShots.
  destruct (phase b =? 1)%Z.
  - destruct (timer b + 1 =? 1)%Z; [|constructor].
    repeat (constructor; [split; [left|]; reflexivity|]). constructor.
  - destruct (phase b =? 2)%Z; [|constructor].
    destruct (_ || _); [|constructor].
    constructor; [split; [right|]; reflexivity | constructor].
Qed.

(** The boss block. *)
Lemma bossStep_alive (dt : Q) (s : Sim) (b : Boss) :
  boss (lv s) = Some b -> bo_alive b = true ->
  let s' := bossStep dt s in
  boss (lv s') = Some (snd (bossAI dt (lv s) (pl s) b))
  /\ arrows (lv s') = arrows (lv s) ++ bossShots b (pl s)
  /\ projs (lv s') = projs (lv s) /\ worldW (lv s') = worldW (lv s)
  /\ velocityOnly (pl s) (pl s') /\ out s' = out s.
Proof.
  intros Hb Ha. cbv zeta. unfold bossStep. rewrite Hb, Ha.
  pose proof (bossAI_level dt (lv s) (pl s) b) as HL.
  destruct (bossAI dt (lv s) (pl s) b) as [l1 b1].
  cbn [fst snd] in *. destruct HL as (A & B & C & _).
  cbn -[velocityOnly].
  split; [reflexivity|]. split; [exact A|]. split; [exact B|].
  split; [exact C|]. split; [|reflexivity].
  destruct (aabb _ _); [apply velocityOnly_set | apply velocityOnly_refl].
Qed.

Lemma bossStep_idle (dt : Q) (s : Sim) :
  match boss (lv s) with Some b => bo_alive b = false | None => True end ->
  bossStep dt s = s.
Proof.
  unfold bossStep. destruct (boss (lv s)) as [b|]; [|reflexivity].
  intros ->. reflexivity.
Qed.

(** *** The tick up to the boss block *)

Lemma update_beforeBoss (level : Level) (p : Player) (keys : Keys) (t dt : Q) :
  update level p keys t dt = bossStep dt (beforeBoss level p keys t dt).
Proof. unfold update, beforeBoss, afterInput. reflexivity. Qed.

Lemma beforeBoss_fields (level : Level) (p : Player) (keys : Keys) (t dt : Q) :
  let s := beforeBoss level p keys t dt in
  hurtOpt (boss level) (boss (lv s))
  /\ worldW (lv s) = worldW level
  /\ canFireAt (pl s) = (if fireGate keys t p then t + 5000 else canFireAt p)
  /\ shots (out s) = (if fireGate keys t p then 1%nat else 0%nat)
  /\ (exists shot, Forall archerArrow shot
                   /\ arrows (lv s) = cull (worldW level) dt (arrows level ++ shot))
  /\ Forall2 spent (cull (worldW level) dt (projsInFlight level p keys t dt))
                   (projs (lv s)).
Proof.
  cbv zeta. unfold beforeBoss, projsInFlight, cull.
  pose proof (before_fire level p keys dt) as H0. cbv zeta in H0.
  fold (afterInput level p keys dt) in H0.
  set (s0 := afterInput level p keys dt) in *.
  destruct H0 as (P0 & A0 & B0 & W0 & E0 & C0 & S0 & T0).
  pose proof (fireStep_fields keys t s0) as H1. cbv zeta in H1.
  set (s1 := fireStep keys t s0) in *.
  destruct H1 as (P1 & C1 & S1 & T1 & A1 & B1 & W1 & E1).
  assert (G : fireGate keys t (pl s0) = fireGate keys t p)
    by (unfold fireGate; now rewrite C0).
  rewrite G in *.
  pose proof (physics_fields dt s1) as H2. cbv zeta in H2.
  set (s2 := cameraStep _) in *.
  destruct H2 as (P2 & A2 & B2 & W2 & E2 & C2 & O2).
  pose proof (enemiesStep_fields dt s2) as H3.
  destruct (enemiesStep_arrows dt s2) as (shot & A3 & F3).
  set (s3 := enemiesStep dt s2) in *.
  destruct H3 as (P3 & B3 & W3 & _ & O3 & C3).
  pose proof (projectilesStep_fields dt s3) as H4. cbv zeta in H4.
  set (s4 := projectilesStep dt s3) in *.
  destruct H4 as (P4 & A4 & B4 & W4 & E4 & L4 & O4).
  pose proof (fireballStep_fields s4) as H5. cbv zeta in H5.
  pose proof (fireballStep_boss s4) as B5.
  set (s5 := fireballStep s4) in *.
  destruct H5 as (P5 & (n5 & O5) & A5 & W5 & L5).
  pose proof (arrowsStep_fields s5) as H6. cbv zeta in H6.
  set (s6 := arrowsStep s5) in *.
  destruct H6 as (L6 & V6 & (n6 & O6)).
  rewrite L6.
  assert (WW : worldW (lv s3) = worldW level) by congruence.
  split; [|split; [|split; [|split; [|split]]]].
  - rewrite <- B0, <- B1, <- B2, <- B3, <- B4. exact B5.
  - congruence.
  - destruct V6 as (_ & _ & _ & -> & _). rewrite L5, L4, C3, C2, C1.
    destruct (fireGate keys t p); congruence.
  - rewrite O6, O5, O4, O3, O2, !shots_app, !shots_hits, S1, S0.
    destruct (fireGate keys t p); reflexivity.
  - exists shot. split; [exact F3|].
    rewrite A5, A4, A3, A2, A1, A0, WW. reflexivity.
  - rewrite P4, P3, P2, P1, P0, WW in P5.
    destruct (fireGate keys t p); exact P5.
Qed.

Lemma bossStep_fields (dt : Q) (s : Sim) :
  let s' := bossStep dt s in
  projs (lv s') = projs (lv s) /\ worldW (lv s') = worldW (lv s)
  /\ velocityOnly (pl s) (pl s') /\ out s' = out s
  /\ exists shot, Forall bossArrow shot
                  /\ arrows (lv s') = arrows (lv s) ++ shot.
Proof.
  cbv zeta. destruct (boss (lv s)) as [b|] eqn:Hb.
  - destruct (bo_alive b) eqn:Ha.
    + destruct (bossStep_alive dt s b Hb Ha) as (_ & A & P & W & V & O).
      repeat (split; [assumption|]).
      exists (bossShots b (pl s)). split; [apply bossShots_bossArrow | exact A].
    + rewrite bossStep_idle by (rewrite Hb; exact Ha).
      repeat (split; [reflexivity || apply velocityOnly_refl|]).
      exists []. rewrite app_nil_r. split; [constructor | reflexivity].
  - rewrite bossStep_idle by (rewrite Hb; exact I).
    repeat (split; [reflexivity || apply velocityOnly_refl|]).
    exists []. rewrite app_nil_r. split; [constructor | reflexivity].
Qed.

(** What the cull keeps entered the tick with more than one tick to live. *)
Lemma inPlay_integrate (worldW dt : Q) (pr : Projectile) :
  inPlay worldW (integrateProj dt pr) = true -> (1 < life pr)%Z.
Proof.
  unfold inPlay. cbn [life integrateProj]. rewrite !andb_true_iff.
  intros [[H _] _]. apply Z.ltb_lt in H. lia.
Qed.

Lemma cull_alive (worldW dt : Q) (prs : list Projectile) (pr : Projectile) :
  In pr (cull worldW dt prs) ->
  (0 < life pr)%Z /\ -10 < x (pr_box pr) /\ x (pr_box pr) < worldW + 10.
Proof.
  unfold cull. rewrite filter_In. intros [_ H]. unfold inPlay in H.
  rewrite !andb_true_iff in H. destruct H as [[H1 H2] H3].
  apply Z.ltb_lt in H1. qbool. auto.
Qed.

Lemma cull_origin (worldW dt : Q) (prs : list Projectile) (pr : Projectile) :
  In pr (cull worldW dt prs) ->
  exists pr0, In pr0 prs /\ pr = integrateProj dt pr0 /\ (1 < life pr0)%Z.
Proof.
  unfold cull. rewrite filter_In, in_map_iff.
  intros [(pr0 & E & I) H]. subst pr. exists pr0.
  repeat split; [exact I | eapply inPlay_integrate; exact H].
Qed.

(** ** Projectile lifetimes at the end of a tick (C1) *)

Lemma update_projs (level : Level) (p : Player) (keys : Keys) (t dt : Q) :
  Forall2 spent (cull (worldW level) dt (projsInFlight level p keys t dt))
                (projs (lv (update level p keys t dt))).
Proof.
  rewrite update_beforeBoss.
  destruct (bossStep_fields dt (beforeBoss level p keys t dt)) as (-> & _).
  apply beforeBoss_fields.
Qed.

Lemma update_arrows (level : Level) (p : Player) (keys : Keys) (t dt : Q) :
  exists shot volley,
    Forall archerArrow shot /\ Forall bossArrow volley
    /\ arrows (lv (update level p keys t dt))
       = cull (worldW level) dt (arrows level ++ shot) ++ volley.
Proof.
  rewrite update_beforeBoss.
  destruct (bossStep_fields dt (beforeBoss level p keys t dt))
    as (_ & _ & _ & _ & volley & FV & ->).
  destruct (beforeBoss_fields level p keys t dt)
    as (_ & _ & _ & _ & (shot & FS & ->) & _).
  exists shot, volley. auto.
Qed.

Lemma spent_life (prs prs' : list Projectile) :
  Forall2 spent prs prs' ->
  Forall (fun pr => (0 < life pr)%Z) prs ->
  Forall (fun pr => (0 <= life pr)%Z) prs'.
Proof.
  induction 1 as [|pr pr' prs prs' S _ IH]; intros F; constructor.
  - inversion F; subst. destruct S as [-> | ->]; cbn; lia.
  - apply IH. now inversion F.
Qed.

(** C1, as the code has it.  The cull follows integration and precedes hit
    resolution.  At the end of every tick each hostile arrow has a lifetime
    above zero, and the friendly collection is the culled one entry by entry,
    except that hit resolution may have forced lifetimes to zero: every
    friendly projectile has a lifetime of at least zero.  The cull keeps only
    projectiles that entered the tick with more than one tick to live, so a
    projectile whose lifetime a hit forced to zero is dropped by the cull of
    the next tick. *)
Theorem C1_cull_precedes_hit_resolution
        (level : Level) (p : Player) (keys : Keys) (t dt : Q) :
  let s := update level p keys t dt in
  (forall ar, In ar (arrows (lv s)) -> (0 < life ar)%Z)
  /\ (forall pr, In pr (projs (lv s)) -> (0 <= life pr)%Z)
  /\ Forall2 spent (cull (worldW level) dt (projsInFlight level p keys t dt))
                   (projs (lv s))
  /\ (forall prs pr, In pr (cull (worldW level) dt prs) ->
        (0 < life pr)%Z
        /\ exists pr0, In pr0 prs /\ pr = integrateProj dt pr0 /\ (1 < life pr0)%Z).
Proof.
  cbv zeta. split; [|split; [|split]].
  - intros ar Hin.
    destruct (update_arrows level p keys t dt) as (shot & volley & _ & FV & E).
    rewrite E in Hin. apply in_app_or in Hin as [Hin | Hin].
    + now apply cull_alive in Hin.
    + rewrite Forall_forall in FV. destruct (FV ar Hin) as [[L | L] _]; lia.
  - pose proof (update_projs level p keys t dt) as S.
    apply spent_life in S.
    + rewrite Forall_forall in S. exact S.
    + rewrite Forall_forall. intros pr Hin. now apply cull_alive in Hin.
  - apply update_projs.
  - intros prs pr Hin. split.
    + now apply cull_alive in Hin.
    + eapply cull_origin. exact Hin.
Qed.

(** C1, as the specification states it, fails: on stage 2 a fireball that
    reaches the swordsman in this tick is still in the collection when the
    tick ends, with lifetime zero, while the swordsman is dead and the hit
    cue has sounded. *)
Lemma C1_hit_fireball_outlives_tick :
  let s := update levelHit (makePlayer 16 40) noKeys 0 1 in
  map life (projs (lv s)) = [0%Z]
  /\ map e_alive (enemies (lv s)) = [false]
  /\ out s = [SfxHit].
Proof. vm_compute. repeat split. Qed.

(** ** One fireball, several targets (C2) *)

Lemma fireballHit_spec (pr : Projectile) (es : list Enemy) (ob : option Boss)
      (cues : list Cue) :
  fireballHit pr es ob cues =
  if friendly pr then
    (if existsb (hitsEnemy pr) es || hitsBoss pr ob then prLife pr 0 else pr,
     map (struck pr) es,
     if hitsBoss pr ob then option_map woundedBoss ob else ob,
     cues ++ repeat SfxHit (length (filter (hitsEnemy pr) es)
                            + if hitsBoss pr ob then 1 else 0))
  else (pr, es, ob, cues).
Proof.
  unfold fireballHit. destruct (friendly pr); cbn [negb]; [|reflexivity].
  rewrite hitEnemies_spec, hitBoss_spec.
  replace (hitsBoss (if existsb (hitsEnemy pr) es then prLife pr 0 else pr) ob)
    with (hitsBoss pr ob) by (destruct (existsb _ _); reflexivity).
  destruct (hitsBoss pr ob).
  - rewrite repeat_app, app_assoc. cbn [repeat]. rewrite orb_true_r.
    destruct (existsb _ _); reflexivity.
  - rewrite Nat.add_0_r, orb_false_r. reflexivity.
Qed.



(** ** Arrows outlive their hits (C8) *)

(** C8.  The player-hit step leaves the level, and with it every arrow
    (lifetime, position, size, velocity), exactly as it found it; of the
    player only the velocity changes.  Over the whole tick the hostile
    collection is what the cull keeps of the arrows of the level and of those
    the archers shot this tick, followed by what the boss spawned: an arrow
    that is in play after integration (lifetime above zero, [x] within 10 of
    the world) is in the collection at the end of the tick whether or not it
    hit the player. *)
Theorem C8_arrows_not_consumed
        (level : Level) (p : Player) (keys : Keys) (t dt : Q) :
  (forall s, lv (arrowsStep s) = lv s /\ velocityOnly (pl s) (pl (arrowsStep s)))
  /\ (exists shot volley,
        Forall archerArrow shot /\ Forall bossArrow volley
        /\ arrows (lv (update level p keys t dt))
           = cull (worldW level) dt (arrows level ++ shot) ++ volley)
  /\ (forall ar,
        In ar (arrows level) ->
        inPlay (worldW level) (integrateProj dt ar) = true ->
        In (integrateProj dt ar) (arrows (lv (update level p keys t dt))))
  /\ (forall ar,
        inPlay (worldW level) ar = true <->
        (0 < life ar)%Z /\ -10 < x (pr_box ar) /\ x (pr_box ar) < worldW level + 10).
Proof.
  split; [|split; [|split]].
  - intros s. destruct (arrowsStep_fields s) as (L & V & _). auto.
  - apply update_arrows.
  - intros ar Hin Hplay.
    destruct (update_arrows level p keys t dt) as (shot & volley & _ & _ & ->).
    apply in_or_app. left. unfold cull. apply filter_In. split; [|exact Hplay].
    apply in_map, in_or_app. now left.
  - intros ar. unfold inPlay. rewrite !andb_true_iff, Z.ltb_lt.
    rewrite Qgtb_gt, Qltb_lt. tauto.
Qed.

(** ** The fire cooldown (C6) *)

Lemma fireGate_iff (keys : Keys) (t : Q) (p : Player) :
  fireGate keys t p = true <-> k_fire keys = true /\ canFireAt p <= t.
Proof. unfold fireGate. rewrite andb_true_iff, Qgeb_ge. tauto. Qed.

Lemma update_fire (level : Level) (p : Player) (keys : Keys) (t dt : Q) :
  shots (out (update level p keys t dt))
  = (if fireGate keys t p then 1%nat else 0%nat)
  /\ canFireAt (pl (update level p keys t dt))
     = (if fireGate keys t p then t + 5000 else canFireAt p).
Proof.
  rewrite update_beforeBoss.
  destruct (bossStep_fields dt (beforeBoss level p keys t dt))
    as (_ & _ & (_ & _ & _ & -> & _) & -> & _).
  destruct (beforeBoss_fields level p keys t dt) as (_ & _ & C & S & _).
  auto.
Qed.

Lemma tickOn_eq (s : Sim) (f : Frame) :
  tickOn s f = update (lv s) (pl s) (f_keys f) (f_t f) (f_dt f).
Proof. unfold tickOn. reflexivity. Qed.

Lemma tickOn_fire (s : Sim) (f : Frame) :
  shots (out (tickOn s f)) = (if fireGate (f_keys f) (f_t f) (pl s) then 1%nat else 0%nat)
  /\ canFireAt (pl (tickOn s f))
     = (if fireGate (f_keys f) (f_t f) (pl s) then f_t f + 5000 else canFireAt (pl s)).
Proof. rewrite tickOn_eq. apply update_fire. Qed.

(** [canFireAt] never moves back. *)
Lemma tickOn_canFireAt_mono (s : Sim) (f : Frame) :
  canFireAt (pl s) <= canFireAt (pl (tickOn s f)).
Proof.
  destruct (tickOn_fire s f) as (_ & ->).
  destruct (fireGate _ _ _) eqn:G.
  - apply fireGate_iff in G as [_ G]. lra.
  - apply Qle_refl.
Qed.

Lemma ticks_nil (s : Sim) : ticks [] s = s.
Proof. exact (fold_left_nil tickOn s). Qed.

Lemma ticks_cons (f : Frame) (frames : list Frame) (s : Sim) :
  ticks (f :: frames) s = ticks frames (tickOn s f).
Proof. exact (fold_left_cons tickOn f frames s). Qed.

Lemma ticks_app (a b : list Frame) (s : Sim) :
  ticks (a ++ b) s = ticks b (ticks a s).
Proof. exact (fold_left_app tickOn a b s). Qed.

Lemma ticks_snoc (frames : list Frame) (f : Frame) (s : Sim) :
  ticks (frames ++ [f]) s = tickOn (ticks frames s) f.
Proof. exact (fold_left_snoc tickOn f frames s). Qed.

Lemma ticks_canFireAt_mono (frames : list Frame) :
  forall s, canFireAt (pl s) <= canFireAt (pl (ticks frames s)).
Proof.
  induction frames as [|f frames IH]; intros s.
  - rewrite ticks_nil. apply Qle_refl.
  - rewrite ticks_cons.
    apply (Qle_trans _ (canFireAt (pl (tickOn s f)))).
    + apply tickOn_canFireAt_mono.
    + apply IH.
Qed.

(** A tick that spawned is a tick whose gate was open. *)
Lemma tickOn_shot (s : Sim) (f : Frame) :
  shots (out (tickOn s f)) = 1%nat ->
  canFireAt (pl s) <= f_t f /\ canFireAt (pl (tickOn s f)) = f_t f + 5000.
Proof.
  destruct (tickOn_fire s f) as (-> & ->).
  destruct (fireGate _ _ _) eqn:G; [|discriminate].
  apply fireGate_iff in G as [_ G]. auto.
Qed.

(** C6.  In a tick a friendly projectile is spawned exactly when the fire
    input is held and the time [t] has reached the player's next allowed fire
    time; the spawn appends one fireball and sets the next allowed fire time
    to [t + 5000].  Hence two spawns of a run of ticks are at least 5000 ms
    apart, and with the fire input held at [t0] (gate open), [t0 + 4999] and
    [t0 + 5000] the first and the third tick spawn and the second does
    not. *)
Theorem C6_fire_cooldown :
  (forall level p keys t dt,
     let s := update level p keys t dt in
     (fireGate keys t p = true <-> k_fire keys = true /\ canFireAt p <= t)
     /\ shots (out s) = (if fireGate keys t p then 1%nat else 0%nat)
     /\ canFireAt (pl s) = (if fireGate keys t p then t + 5000 else canFireAt p))
  /\ (forall keys t s,
        projs (lv (fireStep keys t s))
        = if fireGate keys t (pl s)
          then projs (lv s) ++ [fireball (pl s)] else projs (lv s))
  /\ (forall pre fi mid fj s,
        shots (out (ticks (pre ++ [fi]) s)) = 1%nat ->
        shots (out (ticks (pre ++ fi :: mid ++ [fj]) s)) = 1%nat ->
        f_t fi + 5000 <= f_t fj)
  /\ (forall s t0 k1 k2 k3 d1 d2 d3,
        k_fire k1 = true -> k_fire k2 = true -> k_fire k3 = true ->
        canFireAt (pl s) <= t0 ->
        let s1 := tickOn s (mkFrame k1 t0 d1) in
        let s2 := tickOn s1 (mkFrame k2 (t0 + 4999) d2) in
        let s3 := tickOn s2 (mkFrame k3 (t0 + 5000) d3) in
        shots (out s1) = 1%nat /\ shots (out s2) = 0%nat /\ shots (out s3) = 1%nat).
Proof.
  split; [|split; [|split]].
  - intros level p keys t dt. cbv zeta.
    split; [apply fireGate_iff | exact (update_fire level p keys t dt)].
  - intros keys t s. apply fireStep_fields.
  - intros pre fi mid fj s Hi Hj.
    rewrite ticks_snoc in Hi. apply tickOn_shot in Hi as [_ Hi].
    replace (pre ++ fi :: mid ++ [fj]) with (((pre ++ [fi]) ++ mid) ++ [fj]) in Hj
      by (rewrite <- !app_assoc; reflexivity).
    rewrite ticks_snoc, ticks_app, ticks_snoc in Hj.
    apply tickOn_shot in Hj as [Hj _].
    rewrite <- Hi. eapply Qle_trans; [apply ticks_canFireAt_mono | exact Hj].
  - intros s t0 k1 k2 k3 d1 d2 d3 F1 F2 F3 H0. cbv zeta.
    destruct (tickOn_fire s (mkFrame k1 t0 d1)) as (S1 & C1).
    cbn [f_keys f_t] in S1, C1.
    assert (G1 : fireGate k1 t0 (pl s) = true) by (apply fireGate_iff; auto).
    rewrite G1 in S1, C1.
    set (s1 := tickOn s (mkFrame k1 t0 d1)) in *.
    destruct (tickOn_fire s1 (mkFrame k2 (t0 + 4999) d2)) as (S2 & C2).
    cbn [f_keys f_t] in S2, C2.
    assert (G2 : fireGate k2 (t0 + 4999) (pl s1) = false).
    { apply not_true_iff_false. rewrite fireGate_iff, C1. intros [_ H]. lra. }
    rewrite G2 in S2, C2.
    set (s2 := tickOn s1 (mkFrame k2 (t0 + 4999) d2)) in *.
    destruct (tickOn_fire s2 (mkFrame k3 (t0 + 5000) d3)) as (S3 & _).
    cbn [f_keys f_t] in S3.
    assert (G3 : fireGate k3 (t0 + 5000) (pl s2) = true).
    { apply fireGate_iff. rewrite C2, C1. split; [exact F3 | apply Qle_refl]. }
    rewrite G3 in S3. auto.
Qed.

(** The cooldown on stage 2 with the fire key held: the ticks at 0 and at
    5000 spawn, the tick at 4999 does not. *)
Example cooldown_on_stage_2 :
  let s0 := mkSim levelFase2 (makePlayer 16 40) [] in
  let s1 := tickOn s0 (mkFrame fireKeys 0 1) in
  let s2 := tickOn s1 (mkFrame fireKeys 4999 1) in
  let s3 := tickOn s2 (mkFrame fireKeys 5000 1) in
  map (fun s => (shots (out s), length (projs (lv s)))) [s1; s2; s3]
  = [(1, 1); (0, 1); (1, 2)]%nat.
Proof. vm_compute. reflexivity. Qed.

(** ** Collision resolution (C3) *)

Lemma Qnum_zero_cases (v : Q) :
  (Qgtb v 0 = true /\ 0 < v) \/ (Qgtb v 0 = false /\ Qltb v 0 = true /\ v < 0)
  \/ (Qgtb v 0 = false /\ Qltb v 0 = false /\ v == 0).
Proof.
  destruct (Qgtb v 0) eqn:G.
  - left. split; [reflexivity|]. now apply Qgtb_gt.
  - right. destruct (Qltb v 0) eqn:L.
    + left. repeat split. now apply Qltb_lt.
    + right. repeat split. qbool. now apply Qle_antisym.
Qed.

Lemma collideX_free (b : Body) (q : Platform) :
  aabb (b_box b) (pl_box q) = false -> collideX b q = b.
Proof. unfold collideX. now intros ->. Qed.

Lemma collideY_free (b : Body) (q : Platform) :
  aabb (b_box b) (pl_box q) = false -> collideY b q = b.
Proof. unfold collideY. now intros ->. Qed.

Lemma fold_collideX_free (l : list Platform) :
  forall b, clearOf (b_box b) l -> fold_left collideX l b = b.
Proof.
  induction l as [|q l IH]; intros b H; [reflexivity|].
  rewrite fold_left_cons, collideX_free by (apply H; now left).
  apply IH. intros q' Hq'. apply H. now right.
Qed.

Lemma fold_collideY_free (l : list Platform) :
  forall b, clearOf (b_box b) l -> fold_left collideY l b = b.
Proof.
  induction l as [|q l IH]; intros b H; [reflexivity|].
  rewrite fold_left_cons, collideY_free by (apply H; now left).
  apply IH. intros q' Hq'. apply H. now right.
Qed.

(** Once the loop has zeroed the velocity no later platform moves the
    body. *)
Lemma collideX_stopped (b : Body) (q : Platform) :
  vx b = 0 -> collideX b q = b.
Proof.
  intros H. unfold collideX. rewrite H.
  destruct (aabb _ _); [|reflexivity].
  cbn. unfold bodyVx. rewrite <- H. now destruct b.
Qed.

Lemma collideY_stopped (b : Body) (q : Platform) :
  vy b = 0 -> collideY b q = b.
Proof.
  intros H. unfold collideY. rewrite H.
  destruct (aabb _ _); reflexivity.
Qed.

Lemma fold_collideX_stopped (l : list Platform) (b : Body) :
  vx b = 0 -> fold_left collideX l b = b.
Proof.
  intros H. induction l as [|q l IH]; [reflexivity|].
  now rewrite fold_left_cons, collideX_stopped.
Qed.

Lemma fold_collideY_stopped (l : list Platform) (b : Body) :
  vy b = 0 -> fold_left collideY l b = b.
Proof.
  intros H. induction l as [|q l IH]; [reflexivity|].
  now rewrite fold_left_cons, collideY_stopped.
Qed.

(** The platform that the body hits with a velocity that is not zero pushes
    it out and stops it. *)
Lemma collideX_resolves (b : Body) (P : Platform) :
  aabb (b_box b) (pl_box P) = true -> ~ vx b == 0 ->
  aabb (b_box (collideX b P)) (pl_box P) = false /\ vx (collideX b P) = 0.
Proof.
  intros Hov Hv. unfold collideX. rewrite Hov.
  destruct (Qnum_zero_cases (vx b)) as [(G & _) | [(G & L & _) | (_ & _ & Z)]];
    [| |contradiction].
  - rewrite G. cbn. split; [|reflexivity].
    apply aabb_false. left. cbn. lra.
  - rewrite G, L. cbn. split; [|reflexivity].
    apply aabb_false. right. left. cbn. lra.
Qed.

Lemma collideY_resolves (b : Body) (P : Platform) :
  aabb (b_box b) (pl_box P) = true -> ~ vy b == 0 ->
  aabb (b_box (collideY b P)) (pl_box P) = false /\ vy (collideY b P) = 0.
Proof.
  intros Hov Hv. unfold collideY. rewrite Hov.
  destruct (Qnum_zero_cases (vy b)) as [(G & _) | [(G & L & _) | (_ & _ & Z)]];
    [| |contradiction].
  - rewrite G. cbn. split; [|reflexivity].
    apply aabb_false. right. right. left. cbn. lra.
  - rewrite G, L. cbn. split; [|reflexivity].
    apply aabb_false. right. right. right. cbn. lra.
Qed.

Lemma horizontalPass_first (body : Body) (dt : Q) (pre post : list Platform)
      (P : Platform) :
  clearOf (b_box (movedX body dt)) pre ->
  aabb (b_box (movedX body dt)) (pl_box P) = true ->
  ~ vx body == 0 ->
  horizontalPass body (pre ++ P :: post) dt = collideX (movedX body dt) P
  /\ aabb (b_box (horizontalPass body (pre ++ P :: post) dt)) (pl_box P) = false.
Proof.
  intros Hpre Hov Hv. unfold horizontalPass. fold (movedX body dt).
  rewrite fold_left_app, (fold_collideX_free pre) by exact Hpre.
  rewrite fold_left_cons.
  destruct (collideX_resolves (movedX body dt) P Hov Hv) as (R & S).
  rewrite fold_collideX_stopped by exact S. auto.
Qed.

Lemma verticalPass_first (body : Body) (dt : Q) (pre post : list Platform)
      (P : Platform) :
  clearOf (b_box (movedY body dt)) pre ->
  aabb (b_box (movedY body dt)) (pl_box P) = true ->
  ~ vy body == 0 ->
  verticalPass body (pre ++ P :: post) dt = collideY (movedY body dt) P
  /\ aabb (b_box (verticalPass body (pre ++ P :: post) dt)) (pl_box P) = false.
Proof.
  intros Hpre Hov Hv. unfold verticalPass. cbv zeta.
  change (bodyY (bodyGround body false)
                (y (b_box (bodyGround body false)) + vy (bodyGround body false) * dt))
    with (movedY body dt).
  rewrite fold_left_app, (fold_collideY_free pre) by exact Hpre.
  rewrite fold_left_cons.
  destruct (collideY_resolves (movedY body dt) P Hov Hv) as (R & S).
  rewrite fold_collideY_stopped by exact S. auto.
Qed.

(** C3, as the code has it.  Each pass resolves one platform: the first in
    list order that the body overlaps after the integration of the axis.  If
    the velocity on the axis is not zero the body leaves the pass clear of
    that platform, and stopped on the axis; the platforms after it in the
    list are tested against a stopped body and move nothing.  A body that
    overlaps no platform after the integration leaves the pass where the
    integration put it.  For a single platform and a velocity that is not
    zero the body is clear of the platform after the pass. *)
Theorem C3_pass_resolves_first_overlap (body : Body) (dt : Q) :
  (forall pre P post,
     clearOf (b_box (movedX body dt)) pre ->
     aabb (b_box (movedX body dt)) (pl_box P) = true ->
     ~ vx body == 0 ->
     horizontalPass body (pre ++ P :: post) dt = collideX (movedX body dt) P
     /\ aabb (b_box (horizontalPass body (pre ++ P :: post) dt)) (pl_box P) = false)
  /\ (forall pre P post,
        clearOf (b_box (movedY body dt)) pre ->
        aabb (b_box (movedY body dt)) (pl_box P) = true ->
        ~ vy body == 0 ->
        verticalPass body (pre ++ P :: post) dt = collideY (movedY body dt) P
        /\ aabb (b_box (verticalPass body (pre ++ P :: post) dt)) (pl_box P) = false)
  /\ (forall platforms,
        (clearOf (b_box (movedX body dt)) platforms ->
         horizontalPass body platforms dt = movedX body dt)
        /\ (clearOf (b_box (movedY body dt)) platforms ->
            verticalPass body platforms dt = movedY body dt))
  /\ (forall P,
        (~ vx body == 0 ->
         aabb (b_box (horizontalPass body [P] dt)) (pl_box P) = false)
        /\ (~ vy body == 0 ->
            aabb (b_box (verticalPass body [P] dt)) (pl_box P) = false)).
Proof.
  split; [|split; [|split]].
  - intros pre P post. apply horizontalPass_first.
  - intros pre P post. apply verticalPass_first.
  - intros platforms. split; intros H.
    + unfold horizontalPass. fold (movedX body dt). now apply fold_collideX_free.
    + unfold verticalPass. cbv zeta.
      change (bodyY (bodyGround body false)
                    (y (b_box (bodyGround body false))
                     + vy (bodyGround body false) * dt))
        with (movedY body dt).
      now apply fold_collideY_free.
  - intros P. split; intros Hv.
    + destruct (aabb (b_box (movedX body dt)) (pl_box P)) eqn:Hov.
      * apply (horizontalPass_first body dt [] [] P); auto. intros q [].
      * unfold horizontalPass. fold (movedX body dt).
        cbn [fold_left]. now rewrite collideX_free.
    + destruct (aabb (b_box (movedY body dt)) (pl_box P)) eqn:Hov.
      * apply (verticalPass_first body dt [] [] P); auto. intros q [].
      * unfold verticalPass. cbv zeta.
        change (bodyY (bodyGround body false)
                      (y (b_box (bodyGround body false))
                       + vy (bodyGround body false) * dt))
          with (movedY body dt).
        cbn [fold_left]. now rewrite collideY_free.
Qed.

(** C3, as the specification states it, fails when two platforms overlap
    the body at once: the body enters the corner clear of both platforms,
    the upper platform, first in the list, pushes it back and stops it, and
    the lower platform, which reaches further left, still overlaps it when
    the horizontal pass, and the whole of [moveAndCollide], is over. *)
Lemma C3_second_overlap_remains :
  aabb (b_box cornerBody) (pl_box cornerUpper) = false
  /\ aabb (b_box cornerBody) (pl_box cornerLower) = false
  /\ aabb (b_box (horizontalPass cornerBody [cornerUpper; cornerLower] 1))
          (pl_box cornerLower) = true
  /\ aabb (b_box (moveAndCollide cornerBody [cornerUpper; cornerLower] 1))
          (pl_box cornerLower) = true.
Proof. vm_compute. repeat split. Qed.

(** The premises of the first-overlap statement hold in the corner: the
    upper platform is the first that the moved body overlaps, and the pass
    leaves the body clear of it. *)
Example corner_upper_resolved :
  aabb (b_box (movedX cornerBody 1)) (pl_box cornerUpper) = true
  /\ aabb (b_box (horizontalPass cornerBody [cornerUpper; cornerLower] 1))
          (pl_box cornerUpper) = false.
Proof.
  split; [vm_compute; reflexivity|].
  apply (horizontalPass_first cornerBody 1 [] [cornerLower] cornerUpper).
  - intros q [].
  - vm_compute. reflexivity.
  - vm_compute. discriminate.
Qed.

(** ** The ground query (C4) *)

Lemma groundStep_candidate (a : Rect) (acc : option Platform * option Q)
      (p : Platform) :
  groundStep a acc p =
  if groundCandidate a p
     && match snd acc with None => true | Some bestY => Qltb (y (pl_box p)) bestY end
  then (Some p, Some (y (pl_box p))) else acc.
Proof.
  unfold groundStep, groundCandidate, spansOverlap.
  destruct (Qgtb _ _ && Qltb _ _); cbn [andb]; [|reflexivity].
  destruct (Qgeb _ _); reflexivity.
Qed.

Lemma groundInv_step (a : Rect) (seen : list Platform)
      (acc : option Platform * option Q) (p : Platform) :
  groundInv a seen acc -> groundInv a (seen ++ [p]) (groundStep a acc p).
Proof.
  intros H. rewrite groundStep_candidate. unfold groundInv in *.
  destruct acc as [[g|] bestY]; cbn [fst snd] in *.
  - destruct H as (-> & Hin & Hc & Hmin).
    destruct (groundCandidate a p) eqn:C; cbn [andb].
    + destruct (Qltb (y (pl_box p)) (y (pl_box g))) eqn:L; cbn [fst snd]; qbool.
      * repeat split; auto.
        -- apply in_or_app. right. now left.
        -- intros q Hq Cq. apply in_app_or in Hq as [Hq | [<- | []]].
           ++ specialize (Hmin q Hq Cq). lra.
           ++ apply Qle_refl.
      * repeat split; auto.
        -- apply in_or_app. now left.
        -- intros q Hq Cq. apply in_app_or in Hq as [Hq | [<- | []]]; auto.
    + cbn [fst snd]. repeat split; auto.
      * apply in_or_app. now left.
      * intros q Hq Cq. apply in_app_or in Hq as [Hq | [<- | []]]; auto.
        congruence.
  - destruct H as (-> & Hnone).
    destruct (groundCandidate a p) eqn:C; cbn [andb fst snd].
    + repeat split; auto.
      * apply in_or_app. right. now left.
      * intros q Hq Cq. apply in_app_or in Hq as [Hq | [<- | []]].
        -- rewrite (Hnone q Hq) in Cq. discriminate.
        -- apply Qle_refl.
    + split; [reflexivity|].
      intros q Hq. apply in_app_or in Hq as [Hq | [<- | []]]; auto.
Qed.

Lemma groundInv_fold (a : Rect) (platforms : list Platform) :
  groundInv a platforms (fold_left (groundStep a) platforms (None, None)).
Proof.
  induction platforms as [|p platforms IH] using rev_ind.
  - cbn. split; [reflexivity | intros q []].
  - rewrite fold_left_snoc. now apply groundInv_step.
Qed.

Lemma findGroundBelow_spec (a : Rect) (platforms : list Platform) :
  match findGroundBelow a platforms with
  | Some g =>
      In g platforms /\ groundCandidate a g = true
      /\ forall q, In q platforms -> groundCandidate a q = true ->
                   y (pl_box g) <= y (pl_box q)
  | None => forall q, In q platforms -> groundCandidate a q = false
  end.
Proof.
  pose proof (groundInv_fold a platforms) as H.
  unfold findGroundBelow, groundInv in *.
  destruct (fst _) as [g|]; tauto.
Qed.

Lemma enemyAI_box (platforms : list Platform) (dt : Q) (e : Enemy) (p : Player)
      (ars : list Projectile) :
  e_box (fst (fst (enemyAI platforms dt e p ars)))
  = if e_alive e then snapToGround (walked dt e) platforms else e_box e.
Proof.
  unfold enemyAI, walked.
  destruct (e_alive e); cbn [negb]; [|reflexivity].
  destruct (e_kind e) as [d mn mx sp | cd fr]; [reflexivity|].
  destruct (_ <=? _)%Z; reflexivity.
Qed.

(** C4, as the code has it.  The ground query returns the highest platform
    (smallest top edge) among those whose horizontal span overlaps that of
    the entity and whose top edge is at or below the TOP edge [y] of the
    entity, and nothing when there is none.  A living enemy is snapped in
    each tick so that its bottom edge rests on the top edge of that
    platform; when there is none its [y] is left as it is. *)
Theorem C4_ground_query (a : Rect) (platforms : list Platform) :
  match findGroundBelow a platforms with
  | Some g =>
      In g platforms
      /\ x (pl_box g) < x a + w a /\ x a < x (pl_box g) + w (pl_box g)
      /\ y a <= y (pl_box g)
      /\ (forall q, In q platforms -> groundCandidate a q = true ->
                    y (pl_box g) <= y (pl_box q))
      /\ y (snapToGround a platforms) + h (snapToGround a platforms)
         == y (pl_box g)
      /\ snapToGround a platforms = setY a (y (pl_box g) - h a)
  | None =>
      (forall q, In q platforms -> groundCandidate a q = false)
      /\ snapToGround a platforms = a
  end
  /\ (forall dt e p ars,
        e_alive e = true ->
        e_box (fst (fst (enemyAI platforms dt e p ars)))
        = snapToGround (walked dt e) platforms).
Proof.
  split.
  - pose proof (findGroundBelow_spec a platforms) as H. unfold snapToGround.
    destruct (findGroundBelow a platforms) as [g|].
    + destruct H as (Hin & Hc & Hmin).
      unfold groundCandidate, spansOverlap in Hc.
      rewrite !andb_true_iff in Hc. destruct Hc as [[H1 H2] H3]. qbool.
      repeat split; auto. cbn. ring.
    + split; [exact H | reflexivity].
  - intros dt e p ars Ha. rewrite enemyAI_box, Ha. reflexivity.
Qed.

(** C4, as the specification states it, fails: for a swordsman that stands
    on the ground with a step in front of it the query returns the step,
    whose top edge is above the swordsman's feet, and the snap lifts the
    swordsman onto it; of the two platforms only the ground has its top edge
    at or below the feet. *)
Lemma C4_step_above_feet_is_ground :
  findGroundBelow standingBox [groundPlatform; stepPlatform] = Some stepPlatform
  /\ belowFeet standingBox stepPlatform = false
  /\ belowFeet standingBox groundPlatform = true
  /\ y (pl_box stepPlatform) < y standingBox + h standingBox
  /\ snapToGround standingBox [groundPlatform; stepPlatform]
     = mkRect 360 (100 - 14) 10 14.
Proof. vm_compute. repeat split. Qed.

(** * Further properties of the code *)

(** ** [clamp] and [aabb] *)

Lemma clamp_spec (v lo hi : Q) :
  lo <= clamp v lo hi
  /\ (lo <= hi -> clamp v lo hi <= hi)
  /\ (lo <= v -> v <= hi -> clamp v lo hi == v)
  /\ (lo <= hi -> v <= lo -> clamp v lo hi == lo)
  /\ (lo <= hi -> hi <= v -> clamp v lo hi == hi)
  /\ (hi < lo -> clamp v lo hi == lo).
Proof.
  unfold clamp. repeat split.
  - apply Q.le_max_l.
  - intros H. apply Q.max_lub; [exact H | apply Q.le_min_l].
  - intros H1 H2. rewrite (Q.min_r hi v H2). now apply Q.max_r.
  - intros H1 H2. apply Q.max_l. eapply Qle_trans; [apply Q.le_min_r | exact H2].
  - intros H1 H2. rewrite (Q.min_l hi v H2). now apply Q.max_r.
  - intros H. apply Q.max_l.
    eapply Qle_trans; [apply Q.le_min_l | now apply Qlt_le_weak].
Qed.

(** X1.  [clamp v lo hi] is never below [lo]; when [lo <= hi] it is never
    above [hi], it is [v] for a [v] inside the bounds and the nearer bound
    for a [v] outside; when the bounds are crossed it is [lo]. *)
Theorem clamp_bounds (v lo hi : Q) :
  lo <= clamp v lo hi
  /\ (lo <= hi -> clamp v lo hi <= hi)
  /\ (lo <= v -> v <= hi -> clamp v lo hi == v)
  /\ (lo <= hi -> v <= lo -> clamp v lo hi == lo)
  /\ (lo <= hi -> hi <= v -> clamp v lo hi == hi)
  /\ (hi < lo -> clamp v lo hi == lo).
Proof.
  exact (clamp_spec v lo hi).
Qed.

(** X2.  The overlap test is symmetric, boxes that only touch along an edge
    do not overlap, and a box overlaps itself exactly when its width and
    height are positive. *)
Theorem aabb_symmetric_strict (a b : Rect) :
  aabb a b = aabb b a
  /\ (x a + w a == x b -> aabb a b = false)
  /\ (y a + h a == y b -> aabb a b = false)
  /\ (aabb a a = true <-> 0 < w a /\ 0 < h a).
Proof.
  split; [|split; [|split]].
  - destruct (aabb a b) eqn:E1, (aabb b a) eqn:E2; try reflexivity.
    + apply aabb_true in E1. apply aabb_false in E2. lra.
    + apply aabb_true in E2. apply aabb_false in E1. lra.
  - intros H. apply aabb_false. left. rewrite H. apply Qle_refl.
  - intros H. apply aabb_false. right. right. left. rewrite H. apply Qle_refl.
  - rewrite aabb_true. split; intros H; lra.
Qed.

(** ** The frame scale of the main loop *)

(** X3.  Whatever the clock does, the frame scale that the main loop hands to
    [update] lies in [0.5, 1.5]; it is 0.5 on the first frame (when
    [lastTimeRef] is still 0), the elapsed time over 16.67 when that lies
    within the bounds, and the loop remembers [t]. *)
Theorem frameScale_bounds (lastTime t : Q) :
  0.5 <= fst (frameScale lastTime t) <= 1.5
  /\ snd (frameScale lastTime t) = t
  /\ (lastTime == 0 -> fst (frameScale lastTime t) == 0.5)
  /\ (~ lastTime == 0 ->
      0.5 <= (t - lastTime) / 16.67 -> (t - lastTime) / 16.67 <= 1.5 ->
      fst (frameScale lastTime t) == (t - lastTime) / 16.67).
Proof.
  unfold frameScale. cbn [fst snd].
  split; [|split; [reflexivity|split]].
  - split; [apply clamp_spec | apply clamp_spec; discriminate].
  - intros H. apply Qeq_bool_iff in H. rewrite H.
    assert (E : (t - t) / 16.67 == 0) by (unfold Qdiv; ring).
    destruct (clamp_spec ((t - t) / 16.67) 0.5 1.5) as (_ & _ & _ & L & _).
    apply L; [discriminate|]. rewrite E. discriminate.
  - intros H L U.
    destruct (Qeq_bool lastTime 0) eqn:E.
    + apply Qeq_bool_iff in E. contradiction.
    + now apply clamp_spec.
Qed.

(** ** The keyboard *)

Lemma keyHandler_flags (v : bool) (ks : Keys) (e : KeyEvent) :
  keyHandler v ks e =
  mkKeys
    (if includes ["ArrowLeft"; "a"; "A"]%string (ev_key e) then v else k_left ks)
    (if includes ["ArrowRight"; "d"; "D"]%string (ev_key e) then v else k_right ks)
    (if includes ["ArrowUp"; "w"; "W"]%string (ev_key e) then v else k_up ks)
    (if includes ["ArrowDown"; "s"; "S"]%string (ev_key e) then v else k_down ks)
    (if String.eqb (ev_key e) " " || String.eqb (ev_code e) "Space"
     then v else k_jump ks)
    (if String.eqb (ev_key e) "f" || String.eqb (ev_key e) "F"
     then v else k_fire ks)
    (if includes ["ArrowDown"; "s"; "S"]%string (ev_key e) then v else k_crouch ks).
Proof.
  unfold keyHandler. cbv zeta.
  destruct (includes ["ArrowLeft"; "a"; "A"]%string (ev_key e)),
    (includes ["ArrowRight"; "d"; "D"]%string (ev_key e)),
    (includes ["ArrowUp"; "w"; "W"]%string (ev_key e)),
    (includes ["ArrowDown"; "s"; "S"]%string (ev_key e)),
    (String.eqb (ev_key e) " " || String.eqb (ev_code e) "Space"),
    (String.eqb (ev_key e) "f" || String.eqb (ev_key e) "F");
    destruct ks; reflexivity.
Qed.

Lemma keyEvents_down_crouch (events : list (bool * KeyEvent)) :
  forall ks, k_down ks = k_crouch ks ->
             k_down (keyEvents ks events) = k_crouch (keyEvents ks events).
Proof.
  unfold keyEvents.
  induction events as [|[d e] events IH]; intros ks H; [exact H|].
  rewrite fold_left_cons. apply IH. cbn [fst snd]. unfold onDown, onUp.
  destruct d; rewrite keyHandler_flags; cbn [k_down k_crouch];
    destruct (includes _ _); auto.
Qed.

(** X4.  Releasing a key undoes pressing it: after keydown and keyup of the
    same event the flags are those of the keyup alone.  The down and crouch
    flags are driven by the same keys and are equal after any sequence of
    events from the initial state.  The up and down flags are never read by
    the tick. *)
Theorem keys_press_release :
  (forall ks e, onUp (onDown ks e) e = onUp ks e)
  /\ (forall events,
        k_down (keyEvents initialKeys events)
        = k_crouch (keyEvents initialKeys events))
  /\ (forall level p ks t dt u d,
        update level p (setDown (setUp ks u) d) t dt = update level p ks t dt).
Proof.
  split; [|split].
  - intros ks e. unfold onUp, onDown. rewrite !keyHandler_flags.
    cbn [k_left k_right k_up k_down k_jump k_fire k_crouch].
    destruct (includes ["ArrowLeft"; "a"; "A"]%string (ev_key e)),
      (includes ["ArrowRight"; "d"; "D"]%string (ev_key e)),
      (includes ["ArrowUp"; "w"; "W"]%string (ev_key e)),
      (includes ["ArrowDown"; "s"; "S"]%string (ev_key e)),
      (String.eqb (ev_key e) " " || String.eqb (ev_code e) "Space"),
      (String.eqb (ev_key e) "f" || String.eqb (ev_key e) "F");
      reflexivity.
  - intros events. now apply keyEvents_down_crouch.
  - intros level p ks t dt u d. unfold update. cbv zeta.
    assert (I : forall s, inputStep (setDown (setUp ks u) d) s = inputStep ks s)
      by reflexivity.
    assert (F : forall s, fireStep (setDown (setUp ks u) d) t s = fireStep ks t s)
      by reflexivity.
    now rewrite I, F.
Qed.

(** ** Patrols: kinematic platforms and swordsmen *)

(** The step that platforms and swordsmen share: move, then turn round when
    an edge is outside the range. *)
Lemma step_sign (v dt : Q) :
  0 < dt ->
  (0 <= v -> 0 <= v * dt) /\ (v <= 0 -> v * dt <= 0)
  /\ (v * dt < 0 -> v < 0) /\ (0 < v * dt -> 0 < v).
Proof.
  intros Hdt.
  assert (P : 0 <= v -> 0 <= v * dt).
  { intros H. apply Qmult_le_0_compat; [exact H | now apply Qlt_le_weak]. }
  assert (N : v <= 0 -> v * dt <= 0).
  { intros H. assert (0 <= (- v) * dt).
    { apply Qmult_le_0_compat; [lra | now apply Qlt_le_weak]. }
    lra. }
  repeat split; auto.
  - intros H. destruct (Qlt_le_dec v 0) as [L | L]; [exact L|].
    specialize (P L). lra.
  - intros H. destruct (Qlt_le_dec 0 v) as [L | L]; [exact L|].
    specialize (N L). lra.
Qed.

Lemma patrol_step (lo hi wd dt x v : Q) :
  0 < dt -> wd + Qabs v * dt <= hi - lo ->
  patrolOK lo hi wd dt x v ->
  patrolOK lo hi wd dt (x + v * dt)
           (if Qltb (x + v * dt) lo || Qgtb (x + v * dt + wd) hi
            then v * -1 else v).
Proof.
  intros Hdt Hslack H.
  destruct (step_sign v dt Hdt) as (S1 & S2 & S3 & S4).
  assert (Hs : wd + v * dt <= hi - lo /\ wd - v * dt <= hi - lo).
  { revert Hslack. apply Qabs_case; intros Hv Hslack.
    - specialize (S1 Hv). lra.
    - specialize (S2 Hv). lra. }
  destruct Hs as (Hs1 & Hs2).
  destruct (Qltb (x + v * dt) lo) eqn:L; cbn [orb].
  - qbool. right. left. destruct H as [(A & B) | [(A & B & C) | (A & B & C)]].
    + assert (v < 0) by (apply S3; lra). repeat split; lra.
    + lra.
    + assert (v * dt <= 0) by (apply S2; lra). lra.
  - destruct (Qgtb (x + v * dt + wd) hi) eqn:G; qbool.
    + right. right. destruct H as [(A & B) | [(A & B & C) | (A & B & C)]].
      * assert (0 < v) by (apply S4; lra). repeat split; lra.
      * assert (0 <= v * dt) by (apply S1; lra). lra.
      * lra.
    + left. split; lra.
Qed.

Lemma patrolOK_near (lo hi wd dt x v : Q) :
  0 < dt -> wd + Qabs v * dt <= hi - lo -> patrolOK lo hi wd dt x v ->
  lo - Qabs v * dt <= x /\ x + wd <= hi + Qabs v * dt.
Proof.
  intros Hdt Hslack H.
  assert (Ha : 0 <= Qabs v * dt).
  { apply Qmult_le_0_compat; [apply Qabs_nonneg | now apply Qlt_le_weak]. }
  destruct H as [(A & B) | [(A & B & C) | (A & B & C)]].
  - split; lra.
  - rewrite (Qabs_pos v) in * by now apply Qlt_le_weak. split; lra.
  - rewrite (Qabs_neg v) in * by now apply Qlt_le_weak. split; lra.
Qed.

Lemma patrolOK_ext (lo hi wd dt x v v' : Q) :
  v == v' -> patrolOK lo hi wd dt x v -> patrolOK lo hi wd dt x v'.
Proof.
  intros E H. assert (E' : v * dt == v' * dt) by now rewrite E.
  unfold patrolOK in *. lra.
Qed.

Lemma movePlatform_onPatrol (lo hi s dt : Q) (p0 p : Platform) :
  0 < dt -> w (pl_box p0) + s * dt <= hi - lo ->
  onPatrol lo hi s dt p0 p -> onPatrol lo hi s dt p0 (movePlatform dt p).
Proof.
  intros Hdt Hslack (Hy & Hw & Hh & Hr & v & Hv & Hnz & Hs & Hok).
  unfold movePlatform. rewrite Hv, Hr.
  destruct (Qeq_bool v 0) eqn:Z; [apply Qeq_bool_iff in Z; contradiction|].
  unfold onPatrol. cbn [pl_box pl_vx pl_range setX x y w h].
  repeat split; auto. rewrite Hw.
  eexists. split; [reflexivity|].
  assert (Hslack' : w (pl_box p0) + Qabs v * dt <= hi - lo) by now rewrite Hs.
  pose proof (patrol_step lo hi (w (pl_box p0)) dt (x (pl_box p)) v Hdt Hslack' Hok)
    as Hstep.
  destruct (Qltb _ lo || Qgtb _ hi).
  - repeat split; [| |exact Hstep].
    + intros E. apply Hnz. lra.
    + rewrite <- Hs. setoid_replace (v * -1) with (- v) by ring. apply Qabs_opp.
  - repeat split; auto.
Qed.

(** X5.  A kinematic platform that starts within its range, with a range
    wide enough for its width and one step, stays within one step of the
    range at a constant frame scale, however many ticks pass: it keeps its
    speed, its height, its size and its range, and [x] never goes further
    than [|vx| * dt] outside. *)
Theorem platform_stays_on_patrol
        (p : Platform) (lo hi v dt : Q) (n : nat) :
  pl_vx p = Some v -> pl_range p = Some (lo, hi) -> ~ v == 0 ->
  0 < dt -> w (pl_box p) + Qabs v * dt <= hi - lo ->
  lo <= x (pl_box p) -> x (pl_box p) + w (pl_box p) <= hi ->
  let q := Nat.iter n (movePlatform dt) p in
  lo - Qabs v * dt <= x (pl_box q)
  /\ x (pl_box q) + w (pl_box q) <= hi + Qabs v * dt
  /\ y (pl_box q) = y (pl_box p) /\ w (pl_box q) = w (pl_box p)
  /\ h (pl_box q) = h (pl_box p) /\ pl_range q = pl_range p
  /\ exists v', pl_vx q = Some v' /\ Qabs v' == Qabs v.
Proof.
  intros Hv Hr Hnz Hdt Hslack Hlo Hhi. cbv zeta.
  assert (I : onPatrol lo hi (Qabs v) dt p (Nat.iter n (movePlatform dt) p)).
  { induction n as [|n IH].
    - cbn. unfold onPatrol. repeat split; auto.
      exists v. split; [exact Hv|]. split; [exact Hnz|].
      split; [reflexivity | left; auto].
    - cbn [Nat.iter]. now apply movePlatform_onPatrol. }
  destruct I as (Hy & Hw & Hh & Hr' & v' & Hv' & _ & Hs & Hok).
  destruct (patrolOK_near lo hi (w (pl_box p)) dt
                          (x (pl_box (Nat.iter n (movePlatform dt) p))) v' Hdt)
    as (N1 & N2); [now rewrite Hs | exact Hok |].
  rewrite Hs in N1, N2. rewrite Hw.
  repeat split; auto; [congruence | eauto].
Qed.

(** The platform of stage 1 over 400 ticks at the nominal frame scale. *)
Lemma platform_of_stage_1_stays_on_patrol :
  let p := mkPlatform (mkRect 308 (110 - 22) 34 6) (Some 0.3) (Some (300, 360)) in
  let q := Nat.iter 400 (movePlatform 1) p in
  In p (platforms levelFase1)
  /\ 300 - Qabs 0.3 * 1 <= x (pl_box q)
  /\ x (pl_box q) + w (pl_box q) <= 360 + Qabs 0.3 * 1
  /\ y (pl_box q) = y (pl_box p) /\ w (pl_box q) = w (pl_box p)
  /\ h (pl_box q) = h (pl_box p) /\ pl_range q = pl_range p
  /\ exists v', pl_vx q = Some v' /\ Qabs v' == Qabs 0.3.
Proof.
  cbv zeta. split; [do 6 right; left; reflexivity|].
  apply (platform_stays_on_patrol
           (mkPlatform (mkRect 308 (110 - 22) 34 6) (Some 0.3) (Some (300, 360)))
           300 360 0.3 1 400);
    try reflexivity; vm_compute; discriminate.
Defined.

Lemma snapToGround_span (box : Rect) (platforms : list Platform) :
  x (snapToGround box platforms) = x box
  /\ w (snapToGround box platforms) = w box
  /\ h (snapToGround box platforms) = h box.
Proof.
  unfold snapToGround. destruct (findGroundBelow box platforms); cbn; auto.
Qed.

Lemma enemyAI_onWatch (mn mx sp s dt : Q) (e0 e : Enemy)
      (platforms : list Platform) (p : Player) (ars : list Projectile) :
  0 < dt -> w (e_box e0) + s * dt <= mx - mn ->
  onWatch mn mx sp s dt e0 e ->
  onWatch mn mx sp s dt e0 (fst (fst (enemyAI platforms dt e p ars))).
Proof.
  intros Hdt Hslack Hon. unfold enemyAI.
  destruct (e_alive e) eqn:Ha; cbn [negb]; [|exact Hon].
  destruct Hon as (Hw & Hh & dir & Hk & Hs & Hok).
  rewrite Hk. cbn [fst].
  set (box1 := setX (e_box e) (x (e_box e) + dir * sp * dt)).
  destruct (snapToGround_span box1 platforms) as (Sx & Sw & Sh).
  unfold onWatch. cbn [e_alive e_box e_kind].
  rewrite Sx, Sw, Sh. subst box1. cbn [setX x w h].
  split; [exact Hw|]. split; [exact Hh|].
  assert (Hslack' : w (e_box e0) + Qabs (dir * sp) * dt <= mx - mn)
    by now rewrite Hs.
  pose proof (patrol_step mn mx (w (e_box e0)) dt (x (e_box e)) (dir * sp)
                          Hdt Hslack' Hok) as Hstep.
  rewrite Hw. eexists. split; [reflexivity|].
  destruct (Qltb _ mn || Qgtb _ mx).
  - split.
    + rewrite <- Hs. setoid_replace (dir * -1 * sp) with (- (dir * sp)) by ring.
      apply Qabs_opp.
    + eapply patrolOK_ext; [|exact Hstep]. ring.
  - split; assumption.
Qed.

(** ** The player through the tick *)

Lemma collideX_shape (b : Body) (q : Platform) :
  y (b_box (collideX b q)) = y (b_box b) /\ w (b_box (collideX b q)) = w (b_box b)
  /\ h (b_box (collideX b q)) = h (b_box b) /\ vy (collideX b q) = vy b
  /\ onGround (collideX b q) = onGround b
  /\ keptOrZero (vx b) (vx (collideX b q)).
Proof.
  unfold collideX, keptOrZero.
  destruct (aabb _ _); [|tauto].
  destruct (Qgtb (vx b) 0); [cbn; tauto|].
  destruct (Qltb (vx b) 0); cbn; tauto.
Qed.

Lemma collideY_shape (b : Body) (q : Platform) :
  x (b_box (collideY b q)) = x (b_box b) /\ w (b_box (collideY b q)) = w (b_box b)
  /\ h (b_box (collideY b q)) = h (b_box b) /\ vx (collideY b q) = vx b
  /\ keptOrZero (vy b) (vy (collideY b q))
  /\ ((onGround b = true -> vy b = 0) ->
      onGround (collideY b q) = true -> vy (collideY b q) = 0).
Proof.
  unfold collideY, keptOrZero.
  destruct (aabb _ _); [|tauto].
  destruct (Qgtb (vy b) 0); [cbn; tauto|].
  destruct (Qltb (vy b) 0); cbn; tauto.
Qed.

Lemma keptOrZero_trans (a b c : Q) :
  keptOrZero a b -> keptOrZero b c -> keptOrZero a c.
Proof. unfold keptOrZero. intros [-> | ->] [-> | ->]; auto. Qed.

Lemma fold_collideX_shape (l : list Platform) :
  forall b,
    let b' := fold_left collideX l b in
    y (b_box b') = y (b_box b) /\ w (b_box b') = w (b_box b)
    /\ h (b_box b') = h (b_box b) /\ vy b' = vy b
    /\ onGround b' = onGround b /\ keptOrZero (vx b) (vx b').
Proof.
  induction l as [|q l IH]; intros b; cbv zeta.
  - cbn. unfold keptOrZero. tauto.
  - rewrite fold_left_cons.
    destruct (collideX_shape b q) as (A1 & A2 & A3 & A4 & A5 & A6).
    destruct (IH (collideX b q)) as (B1 & B2 & B3 & B4 & B5 & B6).
    repeat split; try congruence. eapply keptOrZero_trans; eassumption.
Qed.

Lemma fold_collideY_shape (l : list Platform) :
  forall b,
    (onGround b = true -> vy b = 0) ->
    let b' := fold_left collideY l b in
    x (b_box b') = x (b_box b) /\ w (b_box b') = w (b_box b)
    /\ h (b_box b') = h (b_box b) /\ vx b' = vx b
    /\ keptOrZero (vy b) (vy b') /\ (onGround b' = true -> vy b' = 0).
Proof.
  induction l as [|q l IH]; intros b J; cbv zeta.
  - cbn. unfold keptOrZero. tauto.
  - rewrite fold_left_cons.
    destruct (collideY_shape b q) as (A1 & A2 & A3 & A4 & A5 & A6).
    destruct (IH (collideY b q) (A6 J)) as (B1 & B2 & B3 & B4 & B5 & B6).
    repeat split; try congruence; [eapply keptOrZero_trans; eassumption | exact B6].
Qed.

Lemma moveAndCollide_spec (body : Body) (platforms : list Platform) (dt : Q) :
  let b' := moveAndCollide body platforms dt in
  w (b_box b') = w (b_box body) /\ h (b_box b') = h (b_box body)
  /\ keptOrZero (vx body) (vx b') /\ keptOrZero (vy body) (vy b')
  /\ (onGround b' = true -> vy b' = 0)
  /\ (clearOf (b_box (movedX body dt)) platforms ->
      clearOf (b_box (movedY (movedX body dt) dt)) platforms ->
      b' = mkBody (mkRect (x (b_box body) + vx body * dt)
                          (y (b_box body) + vy body * dt)
                          (w (b_box body)) (h (b_box body)))
                  (vx body) (vy body) false).
Proof.
  cbv zeta. unfold moveAndCollide.
  set (bh := horizontalPass body platforms dt).
  assert (H : y (b_box bh) = y (b_box body) /\ w (b_box bh) = w (b_box body)
              /\ h (b_box bh) = h (b_box body) /\ vy bh = vy body
              /\ onGround bh = onGround body /\ keptOrZero (vx body) (vx bh)).
  { subst bh. unfold horizontalPass.
    destruct (fold_collideX_shape platforms
                (bodyX body (x (b_box body) + vx body * dt)))
      as (A1 & A2 & A3 & A4 & A5 & A6). cbn in *. tauto. }
  destruct H as (H1 & H2 & H3 & H4 & H5 & H6).
  unfold verticalPass. cbv zeta.
  set (start := bodyY (bodyGround bh false) _).
  destruct (fold_collideY_shape platforms start) as (B1 & B2 & B3 & B4 & B5 & B6).
  { subst start. cbn. discriminate. }
  assert (S : w (b_box start) = w (b_box bh) /\ h (b_box start) = h (b_box bh)
              /\ vx start = vx bh /\ vy start = vy bh)
    by (subst start; cbn; tauto).
  destruct S as (S1 & S2 & S3 & S4).
  split; [congruence|]. split; [congruence|].
  split; [rewrite B4, S3; exact H6|].
  split; [rewrite <- H4, <- S4; exact B5|].
  split; [exact B6|].
  intros C1 C2. subst start bh. unfold horizontalPass.
  fold (movedX body dt). rewrite (fold_collideX_free platforms) by exact C1.
  change (bodyY (bodyGround (movedX body dt) false)
                (y (b_box (bodyGround (movedX body dt) false))
                 + vy (bodyGround (movedX body dt) false) * dt))
    with (movedY (movedX body dt) dt).
  rewrite (fold_collideY_free platforms) by exact C2. reflexivity.
Qed.

(** X7.  [moveAndCollide] never changes the size of the body, leaves each
    component of the velocity as it was or zero, and reports the body
    grounded only with its vertical velocity zeroed; a body that overlaps no
    platform after either integration is simply moved by its velocity and is
    not grounded. *)
Theorem moveAndCollide_shape (body : Body) (platforms : list Platform) (dt : Q) :
  let b' := moveAndCollide body platforms dt in
  w (b_box b') = w (b_box body) /\ h (b_box b') = h (b_box body)
  /\ keptOrZero (vx body) (vx b') /\ keptOrZero (vy body) (vy b')
  /\ (onGround b' = true -> vy b' = 0)
  /\ (clearOf (b_box (movedX body dt)) platforms ->
      clearOf (b_box (movedY (movedX body dt) dt)) platforms ->
      b' = mkBody (mkRect (x (b_box body) + vx body * dt)
                          (y (b_box body) + vy body * dt)
                          (w (b_box body)) (h (b_box body)))
                  (vx body) (vy body) false).
Proof.
  exact (moveAndCollide_spec body platforms dt).
Qed.

(** X8.  Landing.  A body whose bottom edge is at or above the top of the
    only platform, that moves down far enough to reach into the platform
    (and not through it) while above its span, comes to rest with its bottom
    edge on the top edge of the platform, its vertical velocity zero and the
    ground flag set; horizontally it has simply moved by its velocity. *)
Theorem moveAndCollide_lands (body : Body) (P : Platform) (dt : Q) :
  y (b_box body) + h (b_box body) <= y (pl_box P) ->
  0 < vy body ->
  x (pl_box P) < x (b_box body) + vx body * dt + w (b_box body) ->
  x (b_box body) + vx body * dt < x (pl_box P) + w (pl_box P) ->
  y (pl_box P) < y (b_box body) + vy body * dt + h (b_box body) ->
  y (b_box body) + vy body * dt < y (pl_box P) + h (pl_box P) ->
  let b' := moveAndCollide body [P] dt in
  y (b_box b') + h (b_box b') == y (pl_box P)
  /\ vy b' = 0 /\ onGround b' = true
  /\ x (b_box b') = x (b_box body) + vx body * dt /\ vx b' = vx body
  /\ aabb (b_box b') (pl_box P) = false.
Proof.
  intros Habove Hvy Hx1 Hx2 Hy1 Hy2. cbv zeta.
  unfold moveAndCollide, horizontalPass. fold (movedX body dt).
  rewrite fold_left_cons, fold_left_nil, collideX_free.
  2:{ apply aabb_false. right. right. left. cbn. exact Habove. }
  unfold verticalPass. cbv zeta. rewrite fold_left_cons, fold_left_nil.
  unfold collideY.
  replace (aabb _ (pl_box P)) with true.
  2:{ symmetry. apply aabb_true. cbn. repeat split; assumption. }
  replace (Qgtb _ 0) with true by (symmetry; apply Qgtb_gt; exact Hvy).
  cbn. repeat split; try reflexivity.
  - ring.
  - apply aabb_false. right. right. left. cbn. lra.
Qed.

(** A body falling at speed 2 from one unit above the ground of the
    introductory level. *)
Lemma landing_on_the_intro_ground :
  let body := mkBody (mkRect 16 97 8 12) 0 2 false in
  let P := still (mkRect 0 110 520 8) in
  let b' := moveAndCollide body [P] 1 in
  In P (platforms levelIntro)
  /\ y (b_box b') + h (b_box b') == y (pl_box P)
  /\ vy b' = 0 /\ onGround b' = true
  /\ x (b_box b') = x (b_box body) + vx body * 1 /\ vx b' = vx body
  /\ aabb (b_box b') (pl_box P) = false.
Proof.
  cbv zeta. split; [left; reflexivity|].
  apply (moveAndCollide_lands (mkBody (mkRect 16 97 8 12) 0 2 false)
                              (still (mkRect 0 110 520 8)) 1);
    vm_compute; (reflexivity || discriminate).
Defined.

Lemma update_split (level : Level) (p : Player) (keys : Keys) (t dt : Q) :
  update level p keys t dt = afterContacts dt (afterPhysics level p keys t dt).
Proof. unfold update, afterContacts, afterPhysics, afterInput. reflexivity. Qed.

Lemma enemiesStep_player (dt : Q) (s : Sim) :
  velocityOnly (pl s) (pl (enemiesStep dt s)).
Proof.
  unfold enemiesStep.
  pose proof (enemiesAI_player (platforms (lv s)) dt (enemies (lv s)) (pl s)
                               (arrows (lv s))) as H.
  destruct (enemiesAI _ _ _ _ _) as [[es p'] ars]. exact H.
Qed.

Lemma afterContacts_player (dt : Q) (s : Sim) :
  velocityOnly (pl s) (pl (afterContacts dt s)).
Proof.
  unfold afterContacts.
  pose proof (enemiesStep_player dt s) as H1.
  set (s1 := enemiesStep dt s) in *.
  destruct (projectilesStep_fields dt s1) as (_ & _ & _ & _ & _ & H2 & _).
  set (s2 := projectilesStep dt s1) in *.
  destruct (fireballStep_fields s2) as (_ & _ & _ & _ & H3).
  set (s3 := fireballStep s2) in *.
  destruct (arrowsStep_fields s3) as (_ & H4 & _).
  set (s4 := arrowsStep s3) in *.
  destruct (bossStep_fields dt s4) as (_ & _ & H5 & _).
  rewrite H3, H2 in H4.
  eapply velocityOnly_trans; [exact H1|].
  eapply velocityOnly_trans; eassumption.
Qed.

Lemma stance_eq (a b : Player) :
  stance a = stance b ->
  crouch a = crouch b /\ facing a = facing b /\ invuln a = invuln b.
Proof. unfold stance. intros H. injection H as H1 H2 H3. auto. Qed.

Lemma inputStep_player (keys : Keys) (s : Sim) :
  let p' := pl (inputStep keys s) in
  p_box p' = p_box (pl s)
  /\ crouch p' = k_crouch keys && onGround (p_body (pl s))
  /\ facing p' = (if k_left keys && negb (k_right keys) then FaceLeft
                  else if k_right keys && negb (k_left keys) then FaceRight
                  else facing (pl s))
  /\ invuln p' = invuln (pl s).
Proof.
  cbv zeta. unfold inputStep.
  destruct (k_left keys && negb (k_right keys)),
    (k_right keys && negb (k_left keys));
    destruct (k_jump keys && onGround (p_body (pl s)) && _);
    cbn; repeat split; reflexivity.
Qed.

Lemma fireStep_player (keys : Keys) (t : Q) (s : Sim) :
  p_body (pl (fireStep keys t s)) = p_body (pl s)
  /\ stance (pl (fireStep keys t s)) = stance (pl s).
Proof.
  unfold fireStep. destruct (k_fire keys && _); cbn; split; reflexivity.
Qed.

Lemma gravityStep_player (dt : Q) (s : Sim) :
  p_box (pl (gravityStep dt s)) = p_box (pl s)
  /\ stance (pl (gravityStep dt s)) = stance (pl s).
Proof. unfold gravityStep. cbn. split; reflexivity. Qed.

Lemma crouchStep_player (s : Sim) :
  let p' := pl (crouchStep s) in
  w (p_box p') = w (p_box (pl s))
  /\ h (p_box p') = (if crouch (pl s) then crouchH else baseH)
  /\ stance p' = stance (pl s)
  /\ vx (p_body p') = vx (p_body (pl s)) /\ vy (p_body p') = vy (p_body (pl s)).
Proof.
  cbv zeta. unfold crouchStep, crouchHeight. cbn [pl simPl].
  destruct (Qltb _ _); cbn; repeat split; reflexivity.
Qed.

Lemma integrateStep_player (dt : Q) (s : Sim) :
  let p' := pl (integrateStep dt s) in
  w (p_box p') = w (p_box (pl s)) /\ h (p_box p') = h (p_box (pl s))
  /\ stance p' = stance (pl s).
Proof.
  cbv zeta. unfold integrateStep. cbn [pl simPl].
  destruct (moveAndCollide_spec (p_body (pl s)) (platforms (lv s)) dt)
    as (Mw & Mh & _).
  unfold p_box. cbn [p_body withBody]. rewrite Mw, Mh.
  repeat split; reflexivity.
Qed.

Lemma afterPhysics_player (level : Level) (p : Player) (keys : Keys) (t dt : Q) :
  let p' := pl (afterPhysics level p keys t dt) in
  w (p_box p') = w (p_box p)
  /\ crouch p' = k_crouch keys && onGround (p_body p)
  /\ h (p_box p') = (if crouch p' then crouchH else baseH)
  /\ facing p' = (if k_left keys && negb (k_right keys) then FaceLeft
                  else if k_right keys && negb (k_left keys) then FaceRight
                  else facing p)
  /\ invuln p' = invuln p.
Proof.
  cbv zeta. unfold afterPhysics, afterInput.
  set (s0 := movePlatforms dt (tickStep (mkSim level p []))).
  assert (E0 : pl s0 = p) by reflexivity.
  destruct (inputStep_player keys s0) as (I1 & I2 & I3 & I4).
  rewrite E0 in I1, I2, I3, I4.
  set (s1 := inputStep keys s0) in *.
  destruct (fireStep_player keys t s1) as (F1 & F2).
  set (s2 := fireStep keys t s1) in *.
  destruct (gravityStep_player dt s2) as (G1 & G2).
  set (s3 := gravityStep dt s2) in *.
  destruct (crouchStep_player s3) as (C1 & C2 & C3 & _).
  set (s4 := crouchStep s3) in *.
  destruct (integrateStep_player dt s4) as (M1 & M2 & M3).
  set (s5 := integrateStep dt s4) in *.
  change (pl (cameraStep s5)) with (pl s5).
  assert (St : stance (pl s5) = stance (pl s1)) by congruence.
  apply stance_eq in St. destruct St as (Sc & Sf & Si).
  assert (St3 : stance (pl s3) = stance (pl s1)) by congruence.
  apply stance_eq in St3. destruct St3 as (Sc3 & _ & _).
  rewrite M1, M2, C1, C2, Sc, Sf, Si, Sc3, G1. unfold p_box in *.
  rewrite F1, I1. repeat split; auto.
Qed.

(** X9.  After every tick the player's width is what it was, its height is 8
    when it crouches and 12 when it does not, it crouches exactly when the
    crouch key is held and it was on the ground when the tick began, it faces
    the side of the one direction key held (and keeps its facing when none
    or both are), and [invuln] is never written. *)
Theorem update_player_shape
        (level : Level) (p : Player) (keys : Keys) (t dt : Q) :
  let p' := pl (update level p keys t dt) in
  w (p_box p') = w (p_box p)
  /\ crouch p' = k_crouch keys && onGround (p_body p)
  /\ h (p_box p') = (if crouch p' then 8 else 12)
  /\ facing p' = (if k_left keys && negb (k_right keys) then FaceLeft
                  else if k_right keys && negb (k_left keys) then FaceRight
                  else facing p)
  /\ invuln p' = invuln p.
Proof.
  cbv zeta. rewrite update_split.
  destruct (afterContacts_player dt (afterPhysics level p keys t dt))
    as (Vb & Vc & Vf & _ & Vi & _).
  destruct (afterPhysics_player level p keys t dt) as (A1 & A2 & A3 & A4 & A5).
  rewrite Vb, Vc, Vf, Vi. auto.
Qed.

Lemma velOK_set (p : Player) (u v : Q) :
  Qabs u <= 1.6 -> JUMP_VEL <= v -> v <= MAX_FALL ->
  velOK (withBody p (bodyVy (bodyVx (p_body p) u) v)).
Proof. unfold velOK. cbn. auto. Qed.

Lemma Qsign_cases (a : Q) :
  Qsign a = 1 \/ Qsign a = inject_Z (-1) \/ Qsign a = 0.
Proof.
  destruct (Q_dec a 0) as [[H | H] | H].
  - right. left. now apply Qsign_neg.
  - left. now apply Qsign_pos.
  - right. right. now apply Qsign_zero.
Qed.

Lemma enemyAI_velOK (pls : list Platform) (dt : Q) (e : Enemy) (p : Player)
      (ars : list Projectile) :
  velOK p -> velOK (snd (fst (enemyAI pls dt e p ars))).
Proof.
  intros H. unfold enemyAI.
  destruct (e_alive e); cbn [negb]; [|exact H].
  destruct (e_kind e) as [d mn mx sp | cd fr].
  - cbn [fst snd]. destruct (aabb _ _); [|exact H].
    apply velOK_set; [destruct (Qltb _ _)| |]; vm_compute; discriminate.
  - destruct (_ <=? _)%Z; exact H.
Qed.

Lemma enemiesAI_velOK (pls : list Platform) (dt : Q) (es : list Enemy) :
  forall (p : Player) (ars : list Projectile),
    velOK p -> velOK (snd (fst (enemiesAI pls dt es p ars))).
Proof.
  induction es as [|e es IH]; intros p ars H; cbn [enemiesAI]; [exact H|].
  pose proof (enemyAI_velOK pls dt e p ars H) as H1.
  destruct (enemyAI pls dt e p ars) as [[e' p1] ars1].
  specialize (IH p1 ars1 H1).
  destruct (enemiesAI pls dt es p1 ars1) as [[es' p2] ars2]. exact IH.
Qed.

Lemma knockedBy_velOK (ar : Projectile) (p : Player) : velOK (knockedBy ar p).
Proof.
  unfold knockedBy. apply velOK_set; [|vm_compute; discriminate ..].
  destruct (Qsign_cases (pr_vx ar)) as [-> | [-> | ->]]; vm_compute; discriminate.
Qed.

Lemma afterContacts_velOK (dt : Q) (s : Sim) :
  velOK (pl s) -> velOK (pl (afterContacts dt s)).
Proof.
  intros H. unfold afterContacts.
  assert (H1 : velOK (pl (enemiesStep dt s))).
  { unfold enemiesStep.
    pose proof (enemiesAI_velOK (platforms (lv s)) dt (enemies (lv s)) (pl s)
                                (arrows (lv s)) H) as E.
    destruct (enemiesAI _ _ _ _ _) as [[es p'] ars]. exact E. }
  set (s1 := enemiesStep dt s) in *.
  destruct (projectilesStep_fields dt s1) as (_ & _ & _ & _ & _ & P2 & _).
  set (s2 := projectilesStep dt s1) in *.
  destruct (fireballStep_fields s2) as (_ & _ & _ & _ & P3).
  set (s3 := fireballStep s2) in *.
  assert (H4 : velOK (pl (arrowsStep s3))).
  { unfold arrowsStep. rewrite arrowsHitPlayer_spec. cbn [pl].
    destruct (find _ _); [apply knockedBy_velOK | congruence]. }
  set (s4 := arrowsStep s3) in *.
  unfold bossStep. destruct (boss (lv s4)) as [b|]; [|exact H4].
  destruct (bo_alive b); [|exact H4].
  destruct (bossAI dt (lv s4) (pl s4) b) as [l1 b1]. cbn [pl].
  destruct (aabb _ _); [|exact H4].
  apply velOK_set; [destruct (Qltb _ _)| |]; vm_compute; discriminate.
Qed.

Lemma afterPhysics_velOK (level : Level) (p : Player) (keys : Keys) (t dt : Q) :
  0 <= dt -> velOK p -> velOK (pl (afterPhysics level p keys t dt)).
Proof.
  intros Hdt (Hx & Hy & _). unfold afterPhysics, afterInput.
  set (s0 := movePlatforms dt (tickStep (mkSim level p []))).
  assert (H1 : Qabs (vx (p_body (pl (inputStep keys s0)))) <= 1.6
               /\ JUMP_VEL <= vy (p_body (pl (inputStep keys s0)))).
  { unfold inputStep. change (pl s0) with p.
    assert (Fr : Qabs (if Qltb (Qabs (vx (p_body p) * 0.8)) 0.02
                       then 0 else vx (p_body p) * 0.8) <= 1.6).
    { destruct (Qltb _ _); [vm_compute; discriminate|].
      rewrite Qabs_Qmult. pose proof (Qabs_nonneg (vx (p_body p))) as N.
      replace (Qabs 0.8) with 0.8 by reflexivity. lra. }
    destruct (k_left keys && negb (k_right keys)),
      (k_right keys && negb (k_left keys)), (k_crouch keys && onGround (p_body p));
      cbn [crouch withCrouch];
      destruct (k_jump keys && onGround (p_body p) && _);
      cbn; split;
      try exact Hy; try exact Fr; try apply Qle_refl; vm_compute; discriminate. }
  destruct H1 as (I1 & I2).
  set (s1 := inputStep keys s0) in *.
  destruct (fireStep_player keys t s1) as (F1 & _).
  set (s2 := fireStep keys t s1) in *.
  assert (G : vx (p_body (pl (gravityStep dt s2))) = vx (p_body (pl s2))
              /\ JUMP_VEL <= vy (p_body (pl (gravityStep dt s2)))
              /\ vy (p_body (pl (gravityStep dt s2))) <= MAX_FALL).
  { unfold gravityStep. cbn [pl simPl p_body withBody vx vy bodyVy].
    split; [reflexivity|]. rewrite F1. split.
    - unfold clamp. eapply Qle_trans; [|apply Q.le_max_r].
      apply Q.min_glb; [vm_compute; discriminate|].
      assert (0 <= GRAVITY * dt).
      { apply Qmult_le_0_compat; [vm_compute; discriminate | exact Hdt]. }
      lra.
    - apply clamp_spec. vm_compute. discriminate. }
  destruct G as (G1 & G2 & G3).
  set (s3 := gravityStep dt s2) in *.
  destruct (crouchStep_player s3) as (_ & _ & _ & C1 & C2).
  set (s4 := crouchStep s3) in *.
  change (pl (cameraStep (integrateStep dt s4)))
    with (withBody (pl s4) (moveAndCollide (p_body (pl s4)) (platforms (lv s4)) dt)).
  destruct (moveAndCollide_spec (p_body (pl s4)) (platforms (lv s4)) dt)
    as (_ & _ & Kx & Ky & _).
  unfold velOK. cbn [p_body withBody].
  rewrite C1, G1, F1 in Kx. rewrite C2 in Ky.
  split; [|split].
  - destruct Kx as [-> | ->]; [exact I1 | vm_compute; discriminate].
  - destruct Ky as [-> | ->]; [exact G2 | vm_compute; discriminate].
  - destruct Ky as [-> | ->]; [exact G3 | vm_compute; discriminate].
Qed.

Lemma tickOn_velOK (s : Sim) (f : Frame) :
  0 <= f_dt f -> velOK (pl s) -> velOK (pl (tickOn s f)).
Proof.
  intros Hdt H. rewrite tickOn_eq, update_split.
  apply afterContacts_velOK. now apply afterPhysics_velOK.
Qed.

(** X10.  The player's velocity stays bounded along every run of ticks whose
    frame scales are not negative: sideways never faster than 1.6, upwards
    never faster than the jump velocity 6, downwards never faster than the
    terminal velocity 6.5. *)
Theorem player_velocity_bounded (frames : list Frame) (s : Sim) :
  Forall (fun f => 0 <= f_dt f) frames ->
  velOK (pl s) ->
  velOK (pl (ticks frames s)).
Proof.
  revert s. induction frames as [|f frames IH]; intros s HF H.
  - rewrite ticks_nil. exact H.
  - rewrite ticks_cons. inversion HF; subst.
    apply IH; [assumption|]. now apply tickOn_velOK.
Qed.

(** The boss level, jumping to the right and firing for 120 frames. *)
Lemma player_velocity_bounded_on_the_boss_level :
  velOK (pl (ticks (repeat (mkFrame (mkKeys false true false false true true false)
                                    0 1.5) 120)
                   (mkSim levelBoss (makePlayer 24 40) []))).
Proof.
  apply player_velocity_bounded.
  - apply Forall_forall. intros f Hf. apply repeat_spec in Hf. subst f.
    vm_compute. discriminate.
  - vm_compute. repeat split; discriminate.
Defined.

(** ** Enemies and the boss through the tick *)

Lemma sameKind_refl (e : Enemy) : sameKind e e.
Proof. unfold sameKind. destruct (e_kind e); auto. Qed.

Lemma sameKind_trans (a b c : Enemy) :
  sameKind a b -> sameKind b c -> sameKind a c.
Proof.
  unfold sameKind. destruct (e_kind a), (e_kind b), (e_kind c); try tauto.
  - intros (-> & -> & ->) (-> & -> & ->). auto.
  - congruence.
Qed.

Lemma enemyKept_refl (e : Enemy) : enemyKept e e.
Proof. unfold enemyKept. repeat split; auto. apply sameKind_refl. Qed.

Lemma enemyKept_trans (a b c : Enemy) :
  enemyKept a b -> enemyKept b c -> enemyKept a c.
Proof.
  intros (A1 & A2 & A3 & A4 & A5) (B1 & B2 & B3 & B4 & B5).
  unfold enemyKept. repeat split; try congruence.
  - eapply sameKind_trans; eassumption.
  - auto.
  - intros H. specialize (A5 H). subst b. auto.
Qed.

Lemma Forall2_enemyKept_refl (es : list Enemy) : Forall2 enemyKept es es.
Proof. induction es; constructor; [apply enemyKept_refl | assumption]. Qed.

Lemma Forall2_enemyKept_trans (a : list Enemy) :
  forall b c, Forall2 enemyKept a b -> Forall2 enemyKept b c ->
              Forall2 enemyKept a c.
Proof.
  induction a as [|x a IH]; intros b c H1 H2.
  - inversion H1; subst. inversion H2; subst. constructor.
  - inversion H1; subst. inversion H2; subst. constructor.
    + eapply enemyKept_trans; eassumption.
    + eapply IH; eassumption.
Qed.

Lemma enemyAI_kept (pls : list Platform) (dt : Q) (e : Enemy) (p : Player)
      (ars : list Projectile) :
  enemyKept e (fst (fst (enemyAI pls dt e p ars))).
Proof.
  unfold enemyAI.
  destruct (e_alive e) eqn:Ha; cbn [negb]; [|apply enemyKept_refl].
  unfold enemyKept, sameKind.
  destruct (e_kind e) as [d mn mx sp | cd fr] eqn:Hk.
  - cbn [fst e_box e_alive e_kind].
    match goal with
    | |- context [snapToGround ?b pls] =>
        destruct (snapToGround_span b pls) as (_ & Sw & Sh)
    end.
    rewrite Sw, Sh. cbn. repeat split; auto. congruence.
  - destruct (snapToGround_span (e_box e) pls) as (_ & Sw & Sh).
    destruct (_ <=? _)%Z; cbn [fst e_box e_alive e_kind];
      rewrite Sw, Sh; repeat split; auto; congruence.
Qed.

Lemma enemiesAI_kept (pls : list Platform) (dt : Q) (es : list Enemy) :
  forall (p : Player) (ars : list Projectile),
    Forall2 enemyKept es (fst (fst (enemiesAI pls dt es p ars))).
Proof.
  induction es as [|e es IH]; intros p ars; cbn [enemiesAI]; [constructor|].
  pose proof (enemyAI_kept pls dt e p ars) as H1.
  destruct (enemyAI pls dt e p ars) as [[e' p1] ars1].
  specialize (IH p1 ars1).
  destruct (enemiesAI pls dt es p1 ars1) as [[es' p2] ars2].
  cbn [fst] in *. constructor; assumption.
Qed.

Lemma struck_kept (pr : Projectile) (e : Enemy) : enemyKept e (struck pr e).
Proof.
  unfold struck, hitsEnemy. destruct (e_alive e) eqn:Ha; cbn [andb].
  - destruct (aabb _ _); [|apply enemyKept_refl].
    unfold enemyKept, sameKind. cbn. repeat split; auto; try congruence.
    destruct (e_kind e); auto.
  - apply enemyKept_refl.
Qed.

Lemma fireballHit_kept (pr : Projectile) (es : list Enemy) (ob : option Boss)
      (cues : list Cue) :
  Forall2 enemyKept es (snd (fst (fst (fireballHit pr es ob cues)))).
Proof.
  rewrite fireballHit_spec. destruct (friendly pr); cbn [fst snd].
  - induction es; constructor; [apply struck_kept | assumption].
  - apply Forall2_enemyKept_refl.
Qed.

Lemma fireballCollisions_kept (prs : list Projectile) :
  forall (es : list Enemy) (ob : option Boss) (cues : list Cue),
    Forall2 enemyKept es (snd (fst (fst (fireballCollisions prs es ob cues)))).
Proof.
  induction prs as [|pr prs IH]; intros es ob cues; cbn [fireballCollisions].
  - apply Forall2_enemyKept_refl.
  - pose proof (fireballHit_kept pr es ob cues) as H1.
    destruct (fireballHit pr es ob cues) as [[[pr' es1] ob1] cues1].
    specialize (IH es1 ob1 cues1).
    destruct (fireballCollisions prs es1 ob1 cues1) as [[[prs' es2] ob2] cues2].
    cbn [fst snd] in *. eapply Forall2_enemyKept_trans; eassumption.
Qed.

Lemma bossStep_enemies (dt : Q) (s : Sim) :
  enemies (lv (bossStep dt s)) = enemies (lv s).
Proof.
  unfold bossStep. destruct (boss (lv s)) as [b|]; [|reflexivity].
  destruct (bo_alive b); [|reflexivity].
  destruct (bossAI_level dt (lv s) (pl s) b) as (_ & _ & _ & E & _).
  destruct (bossAI dt (lv s) (pl s) b) as [l1 b1]. exact E.
Qed.

Lemma enemiesStep_kept (dt : Q) (s : Sim) :
  Forall2 enemyKept (enemies (lv s)) (enemies (lv (enemiesStep dt s))).
Proof.
  unfold enemiesStep.
  pose proof (enemiesAI_kept (platforms (lv s)) dt (enemies (lv s)) (pl s)
                             (arrows (lv s))) as K.
  destruct (enemiesAI _ _ _ _ _) as [[es p'] ars]. exact K.
Qed.

Lemma fireballStep_kept (s : Sim) :
  Forall2 enemyKept (enemies (lv s)) (enemies (lv (fireballStep s))).
Proof.
  unfold fireballStep.
  pose proof (fireballCollisions_kept (projs (lv s)) (enemies (lv s))
                                      (boss (lv s)) (out s)) as K.
  destruct (fireballCollisions _ _ _ _) as [[[prs es] ob] cues]. exact K.
Qed.

(** X11.  Over a tick the enemy collection keeps its length and its order;
    every enemy keeps its size, its kind and the constants of its kind; no
    enemy comes back to life; and a dead enemy is left exactly as it is. *)
Theorem update_enemies_kept
        (level : Level) (p : Player) (keys : Keys) (t dt : Q) :
  Forall2 enemyKept (enemies level) (enemies (lv (update level p keys t dt)))
  /\ length (enemies (lv (update level p keys t dt))) = length (enemies level).
Proof.
  assert (H : Forall2 enemyKept (enemies level)
                      (enemies (lv (update level p keys t dt)))).
  { rewrite update_split. unfold afterContacts.
    set (s := afterPhysics level p keys t dt).
    assert (E0 : enemies (lv s) = enemies level).
    { subst s. unfold afterPhysics.
      destruct (before_fire level p keys dt) as (_ & _ & _ & _ & E1 & _).
      fold (afterInput level p keys dt) in E1.
      destruct (fireStep_fields keys t (afterInput level p keys dt))
        as (_ & _ & _ & _ & _ & _ & _ & E2).
      destruct (physics_fields dt (fireStep keys t (afterInput level p keys dt)))
        as (_ & _ & _ & _ & E3 & _).
      congruence. }
    rewrite <- E0. rewrite bossStep_enemies.
    pose proof (enemiesStep_kept dt s) as K1.
    set (s1 := enemiesStep dt s) in *.
    destruct (projectilesStep_fields dt s1) as (_ & _ & _ & _ & E2 & _).
    set (s2 := projectilesStep dt s1) in *.
    pose proof (fireballStep_kept s2) as K2. rewrite E2 in K2.
    set (s3 := fireballStep s2) in *.
    destruct (arrowsStep_fields s3) as (-> & _).
    eapply Forall2_enemyKept_trans; eassumption. }
  split; [exact H|]. symmetry. eapply Forall2_length. exact H.
Qed.

Lemma fireballHit_boss_step (pr : Projectile) (es : list Enemy) (b : Boss)
      (cues : list Cue) :
  snd (fst (fireballHit pr es (Some b) cues))
  = Some (if bo_alive b && bossHitBy b pr then woundedBoss b else b).
Proof.
  rewrite fireballHit_spec. unfold bossHitBy, hitsBoss.
  destruct (friendly pr); cbn [fst snd andb].
  - destruct (bo_alive b && aabb (pr_box pr) (bo_box b)); reflexivity.
  - rewrite andb_false_r. reflexivity.
Qed.

Lemma fireballCollisions_boss_hits (prs : list Projectile) :
  forall (es : list Enemy) (b : Boss) (cues : list Cue),
    (bo_alive b = true -> (0 < hp b)%Z) ->
    exists b',
      snd (fst (fireballCollisions prs es (Some b) cues)) = Some b'
      /\ bo_body b' = bo_body b /\ phase b' = phase b /\ timer b' = timer b
      /\ (bo_alive b = true ->
          hp b' = (hp b - Z.min (Z.of_nat (length (filter (bossHitBy b) prs))) (hp b))%Z
          /\ bo_alive b'
             = (Z.of_nat (length (filter (bossHitBy b) prs)) <? hp b)%Z)
      /\ (bo_alive b = false -> b' = b).
Proof.
  induction prs as [|pr prs IH]; intros es b cues Hinv; cbn [fireballCollisions].
  - exists b. cbn. repeat split; auto.
    + specialize (Hinv H). lia.
    + specialize (Hinv H). rewrite H. symmetry. apply Z.ltb_lt. exact Hinv.
  - pose proof (fireballHit_boss_step pr es b cues) as Hstep.
    destruct (fireballHit pr es (Some b) cues) as [[[pr' es1] ob1] cues1].
    cbn [fst snd] in Hstep. subst ob1.
    destruct (bo_alive b) eqn:Ha; cbn [andb].
    + destruct (bossHitBy b pr) eqn:Hh.
      * assert (Hinv1 : bo_alive (woundedBoss b) = true -> (0 < hp (woundedBoss b))%Z).
        { unfold woundedBoss. cbn. destruct (hp b - 1 <=? 0)%Z eqn:E;
            [discriminate|]. intros _. apply Z.leb_gt in E. exact E. }
        destruct (IH es1 (woundedBoss b) cues1 Hinv1)
          as (b' & E & B1 & B2 & B3 & B4 & B5).
        destruct (fireballCollisions prs es1 (Some (woundedBoss b)) cues1)
          as [[[prs' es2] ob2] cues2].
        cbn [fst snd] in *. exists b'. split; [exact E|].
        split; [exact B1|]. split; [exact B2|]. split; [exact B3|].
        split; [|discriminate]. intros _.
        cbn [filter]. rewrite Hh. cbn [length].
        change (filter (bossHitBy (woundedBoss b)) prs)
          with (filter (bossHitBy b) prs) in B4.
        specialize (Hinv eq_refl).
        set (k := Z.of_nat (length (filter (bossHitBy b) prs))) in *.
        assert (Hk : (0 <= k)%Z) by (subst k; lia).
        replace (Z.of_nat (S (length (filter (bossHitBy b) prs)))) with (k + 1)%Z
          by (subst k; lia).
        unfold woundedBoss in B4, B5. cbn [hp bo_alive] in B4, B5.
        destruct (hp b - 1 <=? 0)%Z eqn:E1.
        -- apply Z.leb_le in E1. rewrite (B5 eq_refl). cbn [hp bo_alive]. split.
           ++ lia.
           ++ symmetry. apply Z.ltb_ge. lia.
        -- apply Z.leb_gt in E1. destruct (B4 Ha) as (B4a & B4b).
           rewrite B4a, B4b. split; [lia|].
           destruct (k <? hp b - 1)%Z eqn:E2.
           ++ apply Z.ltb_lt in E2. symmetry. apply Z.ltb_lt. lia.
           ++ apply Z.ltb_ge in E2. symmetry. apply Z.ltb_ge. lia.
      * destruct (IH es1 b cues1 (fun _ => Hinv eq_refl))
          as (b' & E & B1 & B2 & B3 & B4 & B5).
        destruct (fireballCollisions prs es1 (Some b) cues1)
          as [[[prs' es2] ob2] cues2].
        cbn [fst snd] in *. exists b'. cbn [filter]. rewrite Hh.
        repeat split; auto; try (apply B4; exact Ha). discriminate.
    + assert (Hinv2 : bo_alive b = true -> (0 < hp b)%Z)
        by (rewrite Ha; discriminate).
      destruct (IH es1 b cues1 Hinv2) as (b' & E & B1 & B2 & B3 & B4 & B5).
      destruct (fireballCollisions prs es1 (Some b) cues1)
        as [[[prs' es2] ob2] cues2].
      cbn [fst snd] in *. exists b'. repeat split; auto; discriminate.
Qed.

(** X12.  In the hit resolution of a tick a living boss with [hp] hit points
    loses one hit point for each friendly projectile that overlaps it, until
    none is left: hit by [k] projectiles it ends with [hp - min k hp] hit
    points and is alive exactly when [k < hp]; its body, phase and timer are
    not touched.  A boss with 3 hit points therefore survives two hits and
    dies at the third. *)
Theorem boss_loses_one_hit_point_per_fireball
        (prs : list Projectile) (es : list Enemy) (b : Boss) (cues : list Cue) :
  bo_alive b = true -> (0 < hp b)%Z ->
  exists b',
    snd (fst (fireballCollisions prs es (Some b) cues)) = Some b'
    /\ hp b' = (hp b - Z.min (Z.of_nat (length (filter (bossHitBy b) prs))) (hp b))%Z
    /\ bo_alive b' = (Z.of_nat (length (filter (bossHitBy b) prs)) <? hp b)%Z
    /\ bo_body b' = bo_body b /\ phase b' = phase b /\ timer b' = timer b.
Proof.
  intros Ha Hhp.
  destruct (fireballCollisions_boss_hits prs es b cues (fun _ => Hhp))
    as (b' & E & B1 & B2 & B3 & B4 & _).
  destruct (B4 Ha) as (H1 & H2).
  exists b'. repeat split; assumption.
Qed.

(** Three fireballs in the boss of the boss level, in one tick. *)
Lemma three_fireballs_fell_the_boss :
  let b := mkBoss (mkBody (mkRect 550 90 18 20) 0 0 true) 3 true 0 0 in
  let fb := mkProjectile (mkRect 552 100 4 3) 2.2 0 100 true in
  boss levelBoss = Some b
  /\ exists b',
      snd (fst (fireballCollisions [fb; fb; fb] [] (Some b) [])) = Some b'
      /\ hp b' = (hp b - Z.min (Z.of_nat (length (filter (bossHitBy b) [fb; fb; fb])))
                               (hp b))%Z
      /\ bo_alive b'
         = (Z.of_nat (length (filter (bossHitBy b) [fb; fb; fb])) <? hp b)%Z
      /\ bo_body b' = bo_body b /\ phase b' = phase b /\ timer b' = timer b.
Proof.
  cbv zeta. split; [vm_compute; reflexivity|].
  apply (boss_loses_one_hit_point_per_fireball
           [mkProjectile (mkRect 552 100 4 3) 2.2 0 100 true;
            mkProjectile (mkRect 552 100 4 3) 2.2 0 100 true;
            mkProjectile (mkRect 552 100 4 3) 2.2 0 100 true] []
           (mkBoss (mkBody (mkRect 550 90 18 20) 0 0 true) 3 true 0 0) []);
    reflexivity.
Defined.

(** X13.  A dead boss is inert and an absent boss stays absent: the tick
    leaves a boss whose alive flag is clear exactly as it found it, and it
    spawns nothing for it. *)
Theorem dead_boss_is_inert
        (level : Level) (p : Player) (keys : Keys) (t dt : Q) :
  match boss level with
  | Some b =>
      bo_alive b = false ->
      boss (lv (update level p keys t dt)) = Some b
      /\ arrows (lv (update level p keys t dt))
         = arrows (lv (beforeBoss level p keys t dt))
  | None =>
      boss (lv (update level p keys t dt)) = None
      /\ arrows (lv (update level p keys t dt))
         = arrows (lv (beforeBoss level p keys t dt))
  end.
Proof.
  destruct (boss level) as [b|] eqn:Hb.
  - intros Ha. rewrite update_beforeBoss.
    assert (E : boss (lv (beforeBoss level p keys t dt)) = Some b).
    { unfold beforeBoss.
      destruct (before_fire level p keys dt) as (_ & _ & B0 & _).
      fold (afterInput level p keys dt) in B0.
      set (s0 := afterInput level p keys dt) in *.
      destruct (fireStep_fields keys t s0) as (_ & _ & _ & _ & _ & B1 & _).
      set (s1 := fireStep keys t s0) in *.
      destruct (physics_fields dt s1) as (_ & _ & B2 & _).
      set (s2 := cameraStep _) in *.
      destruct (enemiesStep_fields dt s2) as (_ & B3 & _).
      set (s3 := enemiesStep dt s2) in *.
      destruct (projectilesStep_fields dt s3) as (_ & _ & B4 & _).
      set (s4 := projectilesStep dt s3) in *.
      destruct (arrowsStep_fields (fireballStep s4)) as (-> & _).
      assert (B : boss (lv s4) = Some b) by congruence.
      unfold fireballStep. rewrite B.
      destruct (fireballCollisions_boss_hits (projs (lv s4)) (enemies (lv s4)) b
                                             (out s4))
        as (b' & E' & _ & _ & _ & _ & Same).
      { rewrite Ha. discriminate. }
      destruct (fireballCollisions _ _ _ _) as [[[prs es] ob] cues].
      cbn [fst snd] in E'. cbn. rewrite E', (Same Ha). reflexivity. }
    rewrite bossStep_idle by (rewrite E; exact Ha). auto.
  - rewrite update_beforeBoss.
    destruct (beforeBoss_fields level p keys t dt) as (HB & _).
    rewrite Hb in HB.
    destruct (boss (lv (beforeBoss level p keys t dt))) as [b1|] eqn:E;
      [contradiction|].
    rewrite bossStep_idle by (rewrite E; exact I). auto.
Qed.

(** The boss of the boss level, once dead, through an idle tick. *)
Lemma dead_boss_of_the_boss_level_is_inert :
  let b := mkBoss (mkBody (mkRect 550 90 18 20) 0 0 true) 0 false 0 0 in
  let level := lvBoss levelBoss (Some b) in
  let p := makePlayer 20 98 in
  bo_alive b = false
  /\ boss (lv (update level p noKeys 0 1)) = Some b
  /\ arrows (lv (update level p noKeys 0 1))
     = arrows (lv (beforeBoss level p noKeys 0 1)).
Proof.
  cbv zeta. split; [reflexivity|].
  exact (dead_boss_is_inert
           (lvBoss levelBoss
                   (Some (mkBoss (mkBody (mkRect 550 90 18 20) 0 0 true) 0 false 0 0)))
           (makePlayer 20 98) noKeys 0 1 eq_refl).
Defined.

(** ** What a run of ticks keeps of every enemy *)

Section EnemyInvariant.
Variable dt : Q.
Variable P : Enemy -> Prop.
Hypothesis P_AI :
  forall pls e p ars, P e -> P (fst (fst (enemyAI pls dt e p ars))).
Hypothesis P_dead : forall e, P e -> P (enemyAlive e false).

Lemma keeps_refl (es : list Enemy) : Forall2 (fun e e' => P e -> P e') es es.
Proof. induction es; constructor; auto. Qed.

Lemma keeps_trans (a : list Enemy) :
  forall b c,
    Forall2 (fun e e' => P e -> P e') a b ->
    Forall2 (fun e e' => P e -> P e') b c ->
    Forall2 (fun e e' => P e -> P e') a c.
Proof.
  induction a as [|x0 a IH]; intros b c H1 H2.
  - inversion H1; subst. inversion H2; subst. constructor.
  - inversion H1; subst. inversion H2; subst. constructor.
    + auto.
    + eapply IH; eassumption.
Qed.

Lemma enemiesAI_keeps (pls : list Platform) (es : list Enemy) :
  forall (p : Player) (ars : list Projectile),
    Forall2 (fun e e' => P e -> P e') es (fst (fst (enemiesAI pls dt es p ars))).
Proof.
  induction es as [|e es IH]; intros p ars; cbn [enemiesAI]; [constructor|].
  pose proof (P_AI pls e p ars) as H1.
  destruct (enemyAI pls dt e p ars) as [[e' p1] ars1].
  specialize (IH p1 ars1).
  destruct (enemiesAI pls dt es p1 ars1) as [[es' p2] ars2].
  cbn [fst] in *. constructor; assumption.
Qed.

Lemma fireballHit_keeps (pr : Projectile) (es : list Enemy) (ob : option Boss)
      (cues : list Cue) :
  Forall2 (fun e e' => P e -> P e') es (snd (fst (fst (fireballHit pr es ob cues)))).
Proof.
  rewrite fireballHit_spec. destruct (friendly pr); cbn [fst snd].
  - induction es as [|e es IH]; constructor; [|assumption].
    unfold struck. destruct (hitsEnemy pr e); auto.
  - apply keeps_refl.
Qed.

Lemma fireballCollisions_keeps (prs : list Projectile) :
  forall (es : list Enemy) (ob : option Boss) (cues : list Cue),
    Forall2 (fun e e' => P e -> P e') es
            (snd (fst (fst (fireballCollisions prs es ob cues)))).
Proof.
  induction prs as [|pr prs IH]; intros es ob cues; cbn [fireballCollisions].
  - apply keeps_refl.
  - pose proof (fireballHit_keeps pr es ob cues) as H1.
    destruct (fireballHit pr es ob cues) as [[[pr' es1] ob1] cues1].
    specialize (IH es1 ob1 cues1).
    destruct (fireballCollisions prs es1 ob1 cues1) as [[[prs' es2] ob2] cues2].
    cbn [fst snd] in *. eapply keeps_trans; eassumption.
Qed.

Lemma update_keeps (level : Level) (p : Player) (keys : Keys) (t : Q) :
  Forall2 (fun e e' => P e -> P e')
          (enemies level) (enemies (lv (update level p keys t dt))).
Proof.
  rewrite update_split. unfold afterContacts.
  set (s := afterPhysics level p keys t dt).
  assert (E0 : enemies (lv s) = enemies level).
  { subst s. unfold afterPhysics.
    destruct (before_fire level p keys dt) as (_ & _ & _ & _ & E1 & _).
    fold (afterInput level p keys dt) in E1.
    destruct (fireStep_fields keys t (afterInput level p keys dt))
      as (_ & _ & _ & _ & _ & _ & _ & E2).
    destruct (physics_fields dt (fireStep keys t (afterInput level p keys dt)))
      as (_ & _ & _ & _ & E3 & _).
    congruence. }
  rewrite <- E0. rewrite bossStep_enemies.
  assert (K1 : Forall2 (fun e e' => P e -> P e')
                       (enemies (lv s)) (enemies (lv (enemiesStep dt s)))).
  { unfold enemiesStep.
    pose proof (enemiesAI_keeps (platforms (lv s)) (enemies (lv s)) (pl s)
                                (arrows (lv s))) as K.
    destruct (enemiesAI _ _ _ _ _) as [[es p'] ars]. exact K. }
  set (s1 := enemiesStep dt s) in *.
  destruct (projectilesStep_fields dt s1) as (_ & _ & _ & _ & E2 & _).
  set (s2 := projectilesStep dt s1) in *.
  assert (K2 : Forall2 (fun e e' => P e -> P e')
                       (enemies (lv s2)) (enemies (lv (fireballStep s2)))).
  { unfold fireballStep.
    pose proof (fireballCollisions_keeps (projs (lv s2)) (enemies (lv s2))
                                         (boss (lv s2)) (out s2)) as K.
    destruct (fireballCollisions _ _ _ _) as [[[prs es] ob] cues]. exact K. }
  rewrite E2 in K2.
  set (s3 := fireballStep s2) in *.
  destruct (arrowsStep_fields s3) as (-> & _).
  eapply keeps_trans; eassumption.
Qed.

Lemma ticks_keeps (frames : list Frame) :
  forall s,
    Forall (fun f => f_dt f = dt) frames ->
    Forall2 (fun e e' => P e -> P e')
            (enemies (lv s)) (enemies (lv (ticks frames s))).
Proof.
  induction frames as [|f frames IH]; intros s HF.
  - rewrite ticks_nil. apply keeps_refl.
  - rewrite ticks_cons. inversion HF as [|f0 l0 Hf Hrest]; subst f0 l0.
    eapply keeps_trans; [|apply IH; exact Hrest].
    rewrite tickOn_eq, Hf. apply update_keeps.
Qed.

End EnemyInvariant.

Lemma Forall2_nth_keeps {A : Type} (R : A -> A -> Prop) (l : list A) :
  forall l' i a,
    Forall2 R l l' -> nth_error l i = Some a ->
    exists a', nth_error l' i = Some a' /\ R a a'.
Proof.
  induction l as [|x0 l IH]; intros l' i a H Hn.
  - destruct i; discriminate.
  - inversion H; subst. destruct i as [|i]; cbn in *.
    + injection Hn as ->. eauto.
    + eapply IH; eassumption.
Qed.

(** X6.  A swordsman that starts within its patrol range, with a range wide
    enough for its width and one step, stays within one step of the range
    over every run of ticks at a constant frame scale, whatever the keys,
    the player and the projectiles do, killed on the way or not: the enemy
    at its place in the collection is a swordsman with the same bounds and
    speed, its direction keeps its magnitude, its size is unchanged, it is
    alive only if it was, and [x] never goes further than one step
    outside. *)
Theorem swordsman_stays_on_patrol
        (frames : list Frame) (s : Sim) (i : nat) (e : Enemy)
        (dir mn mx sp dt : Q) :
  nth_error (enemies (lv s)) i = Some e ->
  e_kind e = swordsman dir mn mx sp ->
  0 < dt -> Forall (fun f => f_dt f = dt) frames ->
  w (e_box e) + Qabs (dir * sp) * dt <= mx - mn ->
  mn <= x (e_box e) -> x (e_box e) + w (e_box e) <= mx ->
  exists e',
    nth_error (enemies (lv (ticks frames s))) i = Some e'
    /\ mn - Qabs (dir * sp) * dt <= x (e_box e')
    /\ x (e_box e') + w (e_box e') <= mx + Qabs (dir * sp) * dt
    /\ w (e_box e') = w (e_box e) /\ h (e_box e') = h (e_box e)
    /\ (e_alive e' = true -> e_alive e = true)
    /\ exists dir', e_kind e' = swordsman dir' mn mx sp
                    /\ Qabs (dir' * sp) == Qabs (dir * sp).
Proof.
  intros Hn Hk Hdt HF Hslack Hlo Hhi.
  pose (P := fun e1 : Enemy =>
               onWatch mn mx sp (Qabs (dir * sp)) dt e e1
               /\ (e_alive e1 = true -> e_alive e = true)).
  assert (PAI : forall pls e1 p ars,
             P e1 -> P (fst (fst (enemyAI pls dt e1 p ars)))).
  { intros pls e1 p ars (H1 & H2). split.
    - now apply enemyAI_onWatch.
    - destruct (enemyAI_kept pls dt e1 p ars) as (_ & _ & _ & K & _). auto. }
  assert (Pdead : forall e1, P e1 -> P (enemyAlive e1 false)).
  { intros e1 (H1 & H2). split; [exact H1 | discriminate]. }
  assert (P0 : P e).
  { split; [|auto]. unfold onWatch. split; [reflexivity|].
    split; [reflexivity|]. exists dir. split; [exact Hk|].
    split; [reflexivity | left; auto]. }
  destruct (Forall2_nth_keeps _ _ _ i e (ticks_keeps dt P PAI Pdead frames s HF) Hn)
    as (e' & Hn' & HR).
  destruct (HR P0) as ((Hw & Hh & dir' & Hk' & Hs & Hok) & Ha).
  destruct (patrolOK_near mn mx (w (e_box e)) dt (x (e_box e')) (dir' * sp) Hdt)
    as (N1 & N2); [now rewrite Hs | exact Hok |].
  rewrite Hs in N1, N2.
  exists e'. rewrite Hw. repeat split; auto. eauto.
Qed.

(** The swordsman of stage 2 over 60 ticks at the nominal frame scale, with
    the player beside it holding the fire key. *)
Lemma swordsman_of_stage_2_stays_on_patrol :
  let e := mkEnemy (mkRect 360 (110 - 16) 10 14) true (swordsman (-1) 330 480 0.4) in
  let s := mkSim levelFase2 (makePlayer 300 98) [] in
  let frames := repeat (mkFrame fireKeys 0 1) 60 in
  nth_error (enemies (lv s)) 0 = Some e
  /\ exists e',
      nth_error (enemies (lv (ticks frames s))) 0 = Some e'
      /\ 330 - Qabs (-1 * 0.4) * 1 <= x (e_box e')
      /\ x (e_box e') + w (e_box e') <= 480 + Qabs (-1 * 0.4) * 1
      /\ w (e_box e') = w (e_box e) /\ h (e_box e') = h (e_box e)
      /\ (e_alive e' = true -> e_alive e = true)
      /\ exists dir', e_kind e' = swordsman dir' 330 480 0.4
                      /\ Qabs (dir' * 0.4) == Qabs (-1 * 0.4).
Proof.
  cbv zeta. split; [reflexivity|].
  apply (swordsman_stays_on_patrol
           (repeat (mkFrame fireKeys 0 1) 60)
           (mkSim levelFase2 (makePlayer 300 98) []) 0
           (mkEnemy (mkRect 360 (110 - 16) 10 14) true (swordsman (-1) 330 480 0.4))
           (-1) 330 480 0.4 1);
    try reflexivity;
    try (apply Forall_forall; intros f Hf; apply repeat_spec in Hf; subst f;
         reflexivity);
    vm_compute; discriminate.
Defined.

(** In that run the fireball kills the swordsman on tick 19, and it lies
    where it fell from then on. *)
Example swordsman_of_stage_2_falls :
  let s := mkSim levelFase2 (makePlayer 300 98) [] in
  let frame := mkFrame fireKeys 0 1 in
  map (fun n => map (fun e => (e_alive e, Qred (x (e_box e))))
                    (enemies (lv (ticks (repeat frame n) s))))
      [18; 19; 60]%nat
  = [[(true, Qred 352.8)]; [(false, Qred 352.4)]; [(false, Qred 352.4)]].
Proof. vm_compute. reflexivity. Qed.

(** ** The level through the tick *)

Lemma bossStep_fixtures (dt : Q) (s : Sim) :
  fixtures (lv (bossStep dt s)) = fixtures (lv s).
Proof.
  unfold bossStep. destruct (boss (lv s)) as [b|]; [|reflexivity].
  destruct (bo_alive b); [|reflexivity].
  assert (H : fixtures (fst (bossAI dt (lv s) (pl s) b)) = fixtures (lv s)).
  { unfold bossAI. cbn [phase timer bossTimer].
    destruct (phase b =? 0)%Z; [reflexivity|].
    destruct (phase b =? 1)%Z.
    - cbn [fst]. destruct (timer b + 1 =? 1)%Z; reflexivity.
    - destruct (phase b =? 2)%Z; [|reflexivity].
      cbn [fst]. destruct (_ || _); reflexivity. }
  destruct (bossAI dt (lv s) (pl s) b) as [l1 b1]. exact H.
Qed.

Lemma afterContacts_fixtures (dt : Q) (s : Sim) :
  fixtures (lv (afterContacts dt s)) = fixtures (lv s).
Proof.
  unfold afterContacts. rewrite bossStep_fixtures.
  destruct (arrowsStep_fields
              (fireballStep (projectilesStep dt (enemiesStep dt s)))) as (-> & _).
  assert (H1 : fixtures (lv (enemiesStep dt s)) = fixtures (lv s)).
  { unfold enemiesStep. destruct (enemiesAI _ _ _ _ _) as [[es p'] ars]. reflexivity. }
  set (s1 := enemiesStep dt s) in *.
  assert (H2 : fixtures (lv (projectilesStep dt s1)) = fixtures (lv s1))
    by reflexivity.
  set (s2 := projectilesStep dt s1) in *.
  assert (H3 : fixtures (lv (fireballStep s2)) = fixtures (lv s2)).
  { unfold fireballStep.
    destruct (fireballCollisions _ _ _ _) as [[[prs es] ob] cues]. reflexivity. }
  congruence.
Qed.

Lemma afterPhysics_level (level : Level) (p : Player) (keys : Keys) (t dt : Q) :
  let s := afterPhysics level p keys t dt in
  fixtures (lv s)
  = (kind level, map (movePlatform dt) (platforms level), gem level,
     worldW level, worldH level, (tick level + 1)%Z,
     clamp (x (p_box (pl s)) - BASE_W / 2 + w (p_box (pl s)) / 2) 0
           (worldW level - BASE_W)).
Proof.
  cbv zeta. unfold afterPhysics, afterInput.
  set (s0 := movePlatforms dt (tickStep (mkSim level p []))).
  assert (E0 : lv s0 = lvPlatforms (lvTick level (tick level + 1))
                                   (map (movePlatform dt) (platforms level)))
    by reflexivity.
  destruct (inputStep_fields keys s0) as (E1 & _).
  set (s1 := inputStep keys s0) in *.
  assert (E2 : fixtures (lv (fireStep keys t s1)) = fixtures (lv s1)).
  { unfold fireStep. destruct (k_fire keys && _); reflexivity. }
  set (s2 := fireStep keys t s1) in *.
  set (s5 := integrateStep dt (crouchStep (gravityStep dt s2))).
  assert (E5 : lv s5 = lv s2) by reflexivity.
  unfold cameraStep. cbn [lv pl simLv]. unfold fixtures in *.
  cbn [kind platforms gem worldW worldH tick cameraX lvCameraX].
  rewrite E5. injection E2 as K1 K2 K3 K4 K5 K6 _.
  rewrite K1, K2, K3, K4, K5, K6, E1, E0. reflexivity.
Qed.

Lemma movePlatform_shape (dt : Q) (q : Platform) :
  y (pl_box (movePlatform dt q)) = y (pl_box q)
  /\ w (pl_box (movePlatform dt q)) = w (pl_box q)
  /\ h (pl_box (movePlatform dt q)) = h (pl_box q)
  /\ pl_range (movePlatform dt q) = pl_range q
  /\ (pl_vx q = None \/ pl_range q = None -> movePlatform dt q = q).
Proof.
  destruct q as [box [v|] [[lo hi]|]]; unfold movePlatform; cbn;
    try tauto.
  destruct (Qeq_bool v 0); cbn; repeat split; try reflexivity;
    intros [H | H]; discriminate.
Qed.

(** X14.  A tick advances the tick counter by one and never touches the
    kind of the level, the gem or the size of the world.  The platforms
    after the tick are the platforms before it, each moved by
    [movePlatform]: they keep their number and order, their height, their
    size and their range, and a platform without velocity or without range
    is left exactly as it is. *)
Theorem update_scenery (level : Level) (p : Player) (keys : Keys) (t dt : Q) :
  let l' := lv (update level p keys t dt) in
  kind l' = kind level /\ gem l' = gem level
  /\ worldW l' = worldW level /\ worldH l' = worldH level
  /\ tick l' = (tick level + 1)%Z
  /\ platforms l' = map (movePlatform dt) (platforms level)
  /\ (forall q,
        y (pl_box (movePlatform dt q)) = y (pl_box q)
        /\ w (pl_box (movePlatform dt q)) = w (pl_box q)
        /\ h (pl_box (movePlatform dt q)) = h (pl_box q)
        /\ pl_range (movePlatform dt q) = pl_range q
        /\ (pl_vx q = None \/ pl_range q = None -> movePlatform dt q = q)).
Proof.
  cbv zeta. rewrite update_split.
  pose proof (afterContacts_fixtures dt (afterPhysics level p keys t dt)) as H.
  rewrite afterPhysics_level in H. unfold fixtures in H.
  injection H as H1 H2 H3 H4 H5 H6 _.
  repeat split; try assumption; apply movePlatform_shape.
Qed.

(** X15.  After every tick the camera offset is the player's centre less
    half the viewport, clamped: it is never negative, and in a world at
    least as wide as the viewport it never shows beyond the right end of the
    world. *)
Theorem update_camera (level : Level) (p : Player) (keys : Keys) (t dt : Q) :
  let s := update level p keys t dt in
  cameraX (lv s)
  = clamp (x (p_box (pl s)) - BASE_W / 2 + w (p_box (pl s)) / 2) 0
          (worldW level - BASE_W)
  /\ 0 <= cameraX (lv s)
  /\ (BASE_W <= worldW level -> cameraX (lv s) <= worldW level - BASE_W).
Proof.
  cbv zeta. rewrite update_split.
  pose proof (afterContacts_fixtures dt (afterPhysics level p keys t dt)) as H.
  rewrite afterPhysics_level in H. unfold fixtures in H.
  injection H as _ _ _ _ _ _ H7.
  destruct (afterContacts_player dt (afterPhysics level p keys t dt)) as (-> & _).
  rewrite H7. split; [reflexivity|]. split.
  - apply clamp_spec.
  - intros Hw. apply clamp_spec. lra.
Qed.

(** ** Input, friction and cues *)

Lemma inputStep_body (keys : Keys) (s : Sim) :
  let p := pl s in
  let p' := pl (inputStep keys s) in
  let maxSpeed := if k_crouch keys && onGround (p_body p)
                  then MOVE_SPEED * 0.6 else MOVE_SPEED in
  vx (p_body p')
  = (if k_left keys && negb (k_right keys) then - maxSpeed
     else if k_right keys && negb (k_left keys) then maxSpeed
     else friction (vx (p_body p)))
  /\ vy (p_body p') = (if jumpGate keys p then JUMP_VEL else vy (p_body p))
  /\ onGround (p_body p') = (if jumpGate keys p then false else onGround (p_body p))
  /\ out (inputStep keys s) = out s ++ (if jumpGate keys p then [SfxJump] else []).
Proof.
  cbv zeta. unfold inputStep, jumpGate, friction. cbv zeta.
  cbn [crouch withCrouch withBody withFacing p_body onGround bodyVx].
  destruct (k_left keys && negb (k_right keys)),
    (k_right keys && negb (k_left keys));
    destruct (k_jump keys), (onGround (p_body (pl s))) eqn:G, (k_crouch keys);
    cbn; rewrite ?app_nil_r, ?G; repeat split; reflexivity.
Qed.

(** X16.  The gates of the "Input" block.  Holding both direction keys is
    the same as holding neither.  With one direction key the horizontal
    velocity is the full speed 1 towards that side, 0.6 when crouching;
    with none it is the friction of the old velocity.  The player jumps
    exactly when the jump key is held, it was on the ground when the tick
    began and the crouch key is not held: no jump in the air, none while
    crouching; a jump sets the vertical velocity to the jump velocity,
    clears the ground flag and sounds the jump cue once. *)
Theorem input_gates (keys : Keys) (s : Sim) :
  (k_left keys = true -> k_right keys = true ->
   inputStep keys s = inputStep (setRight (setLeft keys false) false) s)
  /\ (let p := pl s in
      let p' := pl (inputStep keys s) in
      let maxSpeed := if k_crouch keys && onGround (p_body p)
                      then MOVE_SPEED * 0.6 else MOVE_SPEED in
      vx (p_body p')
      = (if k_left keys && negb (k_right keys) then - maxSpeed
         else if k_right keys && negb (k_left keys) then maxSpeed
         else friction (vx (p_body p)))
      /\ vy (p_body p') = (if jumpGate keys p then JUMP_VEL else vy (p_body p))
      /\ onGround (p_body p')
         = (if jumpGate keys p then false else onGround (p_body p))
      /\ out (inputStep keys s)
         = out s ++ (if jumpGate keys p then [SfxJump] else []))
  /\ (onGround (p_body (pl s)) = false -> jumpGate keys (pl s) = false)
  /\ (crouch (pl (inputStep keys s)) = true -> jumpGate keys (pl s) = false).
Proof.
  split; [|split; [|split]].
  - intros L R. unfold inputStep. cbn [k_left k_right k_crouch k_jump setLeft setRight].
    rewrite L, R. reflexivity.
  - apply inputStep_body.
  - intros G. unfold jumpGate. rewrite G. now rewrite andb_false_r.
  - destruct (inputStep_player keys s) as (_ & C & _). rewrite C.
    unfold jumpGate. intros H. apply andb_prop in H as [-> ->].
    now rewrite andb_false_r.
Qed.

Lemma friction_bound (v : Q) :
  Qabs (friction v) <= 0.8 * Qabs v
  /\ (friction v = 0 \/ 0.02 <= Qabs (friction v)).
Proof.
  unfold friction. pose proof (Qabs_nonneg v) as N.
  destruct (Qltb (Qabs (v * 0.8)) 0.02) eqn:E.
  - split; [|now left]. change (Qabs 0) with 0. lra.
  - split.
    + rewrite Qabs_Qmult. change (Qabs 0.8) with 0.8. lra.
    + right. now apply Qltb_ge in E.
Qed.

Lemma friction_iter_bound (n : nat) (v : Q) :
  Qabs (Nat.iter n friction v) <= decay n * Qabs v.
Proof.
  induction n as [|n IH].
  - cbn. lra.
  - unfold decay in *. rewrite !Nat.iter_succ.
    destruct (friction_bound (Nat.iter n friction v)) as (B & _). lra.
Qed.

Lemma friction_zero : friction 0 = 0.
Proof. reflexivity. Qed.

Lemma friction_stops_at_20 (v : Q) :
  Qabs v <= 1.6 -> Nat.iter 20 friction v = 0.
Proof.
  intros H. rewrite (Nat.iter_succ 19).
  destruct (friction_bound (Nat.iter 19 friction v)) as (B & [Z | L]); [exact Z|].
  exfalso. pose proof (friction_iter_bound 19 v) as I.
  assert (D : decay 19 <= 0.015) by (vm_compute; discriminate).
  assert (P : 0 <= decay 19) by (vm_compute; discriminate).
  pose proof (Qabs_nonneg v) as N.
  assert (decay 19 * Qabs v <= 0.015 * 1.6).
  { apply Qmult_le_compat_nonneg; split; assumption. }
  lra.
Qed.

Lemma friction_stays_zero (n : nat) : Nat.iter n friction 0 = 0.
Proof. induction n as [|n IH]; [reflexivity|]. now rewrite Nat.iter_succ, IH. Qed.

Lemma inputStep_iter_vx (keys : Keys) (n : nat) (s : Sim) :
  k_left keys = k_right keys ->
  vx (p_body (pl (Nat.iter n (inputStep keys) s)))
  = Nat.iter n friction (vx (p_body (pl s))).
Proof.
  intros H. induction n as [|n IH]; [reflexivity|].
  rewrite !Nat.iter_succ.
  destruct (inputStep_body keys (Nat.iter n (inputStep keys) s)) as (V & _).
  rewrite V, IH, H. destruct (k_right keys); reflexivity.
Qed.

(** X17.  Friction stops the player.  With no direction wanted (neither or
    both direction keys held) the "Input" block never raises the speed, and
    from any speed up to that of the strongest knockback, 1.6, twenty
    applications of the block in a row, or more, leave the horizontal
    velocity at exactly zero. *)
Theorem friction_stops_the_player (keys : Keys) (n : nat) (s : Sim) :
  k_left keys = k_right keys ->
  Qabs (vx (p_body (pl s))) <= 1.6 ->
  (20 <= n)%nat ->
  vx (p_body (pl (Nat.iter n (inputStep keys) s))) = 0
  /\ Qabs (vx (p_body (pl (inputStep keys s)))) <= Qabs (vx (p_body (pl s))).
Proof.
  intros Hk Hv Hn. split.
  - rewrite inputStep_iter_vx by exact Hk.
    replace n with ((n - 20) + 20)%nat by lia.
    rewrite Nat.iter_add, friction_stops_at_20 by exact Hv.
    apply friction_stays_zero.
  - destruct (inputStep_body keys s) as (V & _). rewrite V, Hk.
    assert (E : k_right keys && negb (k_right keys) = false)
      by (destruct (k_right keys); reflexivity).
    rewrite E.
    destruct (friction_bound (vx (p_body (pl s)))) as (B & _).
    pose proof (Qabs_nonneg (vx (p_body (pl s)))). lra.
Qed.

(** The player of the boss level after the boss's contact knockback. *)
Lemma friction_stops_a_knocked_player :
  let p := withBody (makePlayer 24 40)
                    (mkBody (mkRect 24 98 8 12) (-1.5) (-3) false) in
  let s := mkSim levelBoss p [] in
  vx (p_body (pl (Nat.iter 25 (inputStep noKeys) s))) = 0
  /\ Qabs (vx (p_body (pl (inputStep noKeys s)))) <= Qabs (vx (p_body (pl s))).
Proof.
  cbv zeta.
  apply (friction_stops_the_player noKeys 25
           (mkSim levelBoss
                  (withBody (makePlayer 24 40)
                            (mkBody (mkRect 24 98 8 12) (-1.5) (-3) false)) []));
    [reflexivity | vm_compute; discriminate | lia].
Defined.

Lemma fireStep_out (keys : Keys) (t : Q) (s : Sim) :
  out (fireStep keys t s)
  = out s ++ (if fireGate keys t (pl s) then [SfxShoot] else []).
Proof.
  unfold fireStep, fireGate. destruct (k_fire keys && _); cbn [out emit].
  - reflexivity.
  - now rewrite app_nil_r.
Qed.

(** X18.  The cues of a tick, in order: the jump cue if the player jumped,
    the shoot cue if a fireball was spawned, then nothing but hit cues.  A
    tick never sounds more than one jump and one shoot cue. *)
Theorem update_cues (level : Level) (p : Player) (keys : Keys) (t dt : Q) :
  exists n,
    out (update level p keys t dt)
    = (if jumpGate keys p then [SfxJump] else [])
      ++ (if fireGate keys t p then [SfxShoot] else [])
      ++ repeat SfxHit n.
Proof.
  rewrite update_beforeBoss.
  destruct (bossStep_fields dt (beforeBoss level p keys t dt))
    as (_ & _ & _ & -> & _).
  unfold beforeBoss.
  set (s0 := afterInput level p keys dt).
  assert (O0 : out s0 = (if jumpGate keys p then [SfxJump] else [])
               /\ canFireAt (pl s0) = canFireAt p).
  { subst s0. unfold afterInput.
    destruct (inputStep_body keys (movePlatforms dt (tickStep (mkSim level p []))))
      as (_ & _ & _ & O).
    destruct (inputStep_fields keys (movePlatforms dt (tickStep (mkSim level p []))))
      as (_ & C & _).
    split; [exact O | exact C]. }
  destruct O0 as (O0 & C0).
  pose proof (fireStep_out keys t s0) as O1.
  assert (G : fireGate keys t (pl s0) = fireGate keys t p)
    by (unfold fireGate; now rewrite C0).
  rewrite G, O0 in O1.
  set (s1 := fireStep keys t s0) in *.
  destruct (physics_fields dt s1) as (_ & _ & _ & _ & _ & _ & O2).
  set (s2 := cameraStep _) in *.
  destruct (enemiesStep_fields dt s2) as (_ & _ & _ & _ & O3 & _).
  set (s3 := enemiesStep dt s2) in *.
  destruct (projectilesStep_fields dt s3) as (_ & _ & _ & _ & _ & _ & O4).
  set (s4 := projectilesStep dt s3) in *.
  destruct (fireballStep_fields s4) as (_ & (n5 & O5) & _).
  set (s5 := fireballStep s4) in *.
  destruct (arrowsStep_fields s5) as (_ & _ & (n6 & O6)).
  exists (n5 + n6)%nat.
  rewrite O6, O5, O4, O3, O2, O1, repeat_app, <- !app_assoc. reflexivity.
Qed.

(** ** The two projectile collections *)

Lemma spent_friendly (prs prs' : list Projectile) (v : bool) :
  Forall2 spent prs prs' ->
  Forall (fun pr => friendly pr = v) prs ->
  Forall (fun pr => friendly pr = v) prs'.
Proof.
  induction 1 as [|pr pr' prs prs' S _ IH]; intros F; constructor.
  - pose proof (Forall_inv F) as Hp. destruct S as [-> | ->]; exact Hp.
  - apply IH. exact (Forall_inv_tail F).
Qed.

Lemma cull_friendly (worldW dt : Q) (prs : list Projectile) (v : bool) :
  Forall (fun pr => friendly pr = v) prs ->
  Forall (fun pr => friendly pr = v) (cull worldW dt prs).
Proof.
  intros F. apply Forall_forall. intros pr Hin.
  apply cull_origin in Hin as (pr0 & Hin & -> & _).
  rewrite Forall_forall in F. exact (F pr0 Hin).
Qed.

Lemma cull_length (worldW dt : Q) (prs : list Projectile) :
  (length (cull worldW dt prs) <= length prs)%nat.
Proof.
  unfold cull. eapply Nat.le_trans; [apply filter_length_le|].
  now rewrite length_map.
Qed.

(** X19.  The two collections stay apart and grow slowly.  If the friendly
    collection holds only friendly projectiles before a tick it does so
    after it, and likewise the hostile collection holds only hostile ones;
    the friendly collection grows by at most one projectile in a tick; and
    hit resolution of the fireballs neither touches the player nor the
    hostile collection. *)
Theorem update_collections_apart
        (level : Level) (p : Player) (keys : Keys) (t dt : Q) :
  let s := update level p keys t dt in
  (Forall (fun pr => friendly pr = true) (projs level) ->
   Forall (fun pr => friendly pr = true) (projs (lv s)))
  /\ (Forall (fun ar => friendly ar = false) (arrows level) ->
      Forall (fun ar => friendly ar = false) (arrows (lv s)))
  /\ (length (projs (lv s)) <= length (projs level) + 1)%nat
  /\ (forall s0, pl (fireballStep s0) = pl s0
                 /\ arrows (lv (fireballStep s0)) = arrows (lv s0)).
Proof.
  cbv zeta. split; [|split; [|split]].
  - intros F. eapply spent_friendly; [apply update_projs|].
    apply cull_friendly. unfold projsInFlight.
    destruct (fireGate keys t p); [|exact F].
    apply Forall_app. split; [exact F|]. constructor; [reflexivity | constructor].
  - intros F.
    destruct (update_arrows level p keys t dt) as (shot & volley & FS & FV & ->).
    apply Forall_app. split.
    + apply cull_friendly. apply Forall_app. split; [exact F|].
      eapply Forall_impl; [|exact FS]. intros a (_ & H). exact H.
    + eapply Forall_impl; [|exact FV]. intros a (_ & H). exact H.
  - pose proof (update_projs level p keys t dt) as S.
    apply Forall2_length in S. rewrite <- S.
    eapply Nat.le_trans; [apply cull_length|].
    unfold projsInFlight. destruct (fireGate keys t p).
    + rewrite length_app. cbn. lia.
    + lia.
  - intros s0. destruct (fireballStep_fields s0) as (_ & _ & A & _ & P). auto.
Qed.

(** * The blocks of the tick, inside the tick *)

(** ** Crouch height (C10) *)

Lemma update_crouch (level : Level) (p : Player) (keys : Keys) (t dt : Q) :
  update level p keys t dt
  = afterContacts dt
      (cameraStep (integrateStep dt (crouchStep (beforeCrouch level p keys t dt)))).
Proof. unfold update, afterContacts, beforeCrouch, afterInput. reflexivity. Qed.

Lemma beforeCrouch_player (level : Level) (p : Player) (keys : Keys) (t dt : Q) :
  let q := pl (beforeCrouch level p keys t dt) in
  p_box q = p_box p /\ crouch q = k_crouch keys && onGround (p_body p).
Proof.
  cbv zeta. unfold beforeCrouch, afterInput.
  set (s0 := movePlatforms dt (tickStep (mkSim level p []))).
  destruct (inputStep_player keys s0) as (B0 & C0 & _).
  set (s1 := inputStep keys s0) in *.
  destruct (fireStep_player keys t s1) as (B1 & S1).
  set (s2 := fireStep keys t s1) in *.
  destruct (gravityStep_player dt s2) as (B2 & S2).
  apply stance_eq in S1, S2.
  destruct S1 as (C1 & _), S2 as (C2 & _).
  split.
  - rewrite B2. unfold p_box. rewrite B1. exact B0.
  - rewrite C2, C1. exact C0.
Qed.

(** The crouch-height block on its own, shrinking and growing. *)
Lemma crouchHeight_shrinks (p : Player) :
  h (p_box p) == 12 -> crouch p = true ->
  h (p_box (crouchHeight p)) = 8
  /\ y (p_box (crouchHeight p)) == y (p_box p) + 4
  /\ y (p_box (crouchHeight p)) + h (p_box (crouchHeight p))
     == y (p_box p) + h (p_box p).
Proof.
  intros Hh Hc. unfold crouchHeight, p_box. rewrite Hc. cbn.
  destruct (Qltb crouchH (h (b_box (p_body p)))) eqn:E; cbn.
  - unfold crouchH in *. unfold p_box in Hh.
    repeat split; try reflexivity; rewrite Hh; ring.
  - exfalso. qbool. unfold crouchH in E. unfold p_box in Hh. rewrite Hh in E.
    revert E. apply Qlt_not_le. reflexivity.
Qed.

Lemma crouchHeight_grows (p : Player) :
  h (p_box p) == 8 -> crouch p = false ->
  h (p_box (crouchHeight p)) = 12
  /\ y (p_box (crouchHeight p)) = y (p_box p)
  /\ y (p_box (crouchHeight p)) + h (p_box (crouchHeight p))
     == y (p_box p) + h (p_box p) + 4.
Proof.
  intros Hh Hc. unfold crouchHeight, p_box. rewrite Hc. cbn.
  destruct (Qltb baseH (h (b_box (p_body p)))) eqn:E; cbn.
  - exfalso. qbool. unfold baseH in E. unfold p_box in Hh. rewrite Hh in E.
    revert E. apply Qle_not_lt. discriminate.
  - unfold baseH. unfold p_box in Hh.
    repeat split; try reflexivity. rewrite Hh. ring.
Qed.

(** C10.  The crouch height change is asymmetric about the feet.  The
    "Crouch height" block of the tick, [crouchStep], touches nothing but
    the player's box.  Entering crouch (height 12, crouch flag set) it
    makes the height 8 and moves [y] down by the height delta, so the
    bottom edge [y + h] is preserved.  Leaving crouch (height 8, crouch
    flag clear) it makes the height 12 and leaves [y] as it is, so the
    bottom edge moves down by 4.  In [update] the block runs between
    "Gravity" and "Integrate and collide" on the box the player entered
    the tick with and the crouch flag that "Input" has just set: on the
    tick the player stands up the body that [moveAndCollide] receives has
    its bottom edge 4 below where the tick found it, and the height that
    the block sets is the height the player ends the tick with. *)
Theorem C10_crouch_height_asymmetric :
  (forall s,
     lv (crouchStep s) = lv s /\ out (crouchStep s) = out s
     /\ (h (p_box (pl s)) == 12 -> crouch (pl s) = true ->
         h (p_box (pl (crouchStep s))) = 8
         /\ y (p_box (pl (crouchStep s))) == y (p_box (pl s)) + 4
         /\ y (p_box (pl (crouchStep s))) + h (p_box (pl (crouchStep s)))
            == y (p_box (pl s)) + h (p_box (pl s)))
     /\ (h (p_box (pl s)) == 8 -> crouch (pl s) = false ->
         h (p_box (pl (crouchStep s))) = 12
         /\ y (p_box (pl (crouchStep s))) = y (p_box (pl s))
         /\ y (p_box (pl (crouchStep s))) + h (p_box (pl (crouchStep s)))
            == y (p_box (pl s)) + h (p_box (pl s)) + 4))
  /\ (forall level p keys t dt,
        let s := beforeCrouch level p keys t dt in
        let q := pl (crouchStep s) in
        update level p keys t dt
        = afterContacts dt (cameraStep (integrateStep dt (crouchStep s)))
        /\ p_body (pl (integrateStep dt (crouchStep s)))
           = moveAndCollide (p_body q) (platforms (lv s)) dt
        /\ h (p_box (pl (update level p keys t dt))) = h (p_box q)
        /\ (h (p_box p) == 12 -> k_crouch keys = true ->
            onGround (p_body p) = true ->
            h (p_box q) = 8 /\ y (p_box q) == y (p_box p) + 4
            /\ y (p_box q) + h (p_box q) == y (p_box p) + h (p_box p))
        /\ (h (p_box p) == 8 ->
            k_crouch keys && onGround (p_body p) = false ->
            h (p_box q) = 12 /\ y (p_box q) = y (p_box p)
            /\ y (p_box q) + h (p_box q) == y (p_box p) + h (p_box p) + 4)).
Proof.
  split.
  - intros s. split; [reflexivity|]. split; [reflexivity|].
    unfold crouchStep. cbn [pl simPl]. split.
    + apply crouchHeight_shrinks.
    + apply crouchHeight_grows.
  - intros level p keys t dt. cbv zeta.
    destruct (beforeCrouch_player level p keys t dt) as (B & C).
    set (s := beforeCrouch level p keys t dt) in *.
    split; [apply update_crouch|]. split; [reflexivity|]. split.
    + rewrite update_crouch. fold s.
      destruct (integrateStep_player dt (crouchStep s)) as (_ & H1 & _).
      set (s1 := integrateStep dt (crouchStep s)) in *.
      pose proof (afterContacts_player dt (cameraStep s1)) as (H2 & _).
      rewrite H2. exact H1.
    + unfold crouchStep. cbn [pl simPl]. split.
      * intros Hh Hk Hg.
        destruct (crouchHeight_shrinks (pl s)) as (E1 & E2 & E3).
        -- now rewrite B.
        -- rewrite C, Hk, Hg. reflexivity.
        -- rewrite B in E2, E3. auto.
      * intros Hh Hc.
        destruct (crouchHeight_grows (pl s)) as (E1 & E2 & E3).
        -- now rewrite B.
        -- now rewrite C.
        -- rewrite B in E2, E3. auto.
Qed.

(** The player of [makePlayer] crouching and standing up again through the
    block: the bottom edge stays at 52 when the height shrinks and moves to
    56 when it is restored. *)
Example crouch_and_stand :
  let p := makePlayer 16 40 in
  let down := crouchHeight (withCrouch p true) in
  let up := crouchHeight (withCrouch down false) in
  (y (p_box p), h (p_box p)) = (40, 12)
  /\ (y (p_box down), h (p_box down)) = (40 + (12 - 8), 8)
  /\ (y (p_box up), h (p_box up)) = (40 + (12 - 8), 12).
Proof. vm_compute. repeat split. Qed.

(** The same through whole ticks on the intro level, for a player that
    crouches on the ground at [y = 102] and stands up.  The block hands
    [moveAndCollide] a body whose bottom edge is at 114, 4 inside the
    ground; with no key held the vertical pass puts the player back on the
    ground, and with a direction key held the horizontal pass moves it to
    the end of the ground first. *)
Example standing_up_on_the_intro_ground :
  let p := mkPlayer (mkBody (mkRect 100 102 8 8) 0 0 true) FaceRight true 0 0 in
  let rightKeys := mkKeys false true false false false false false in
  let box s := (Qred (x (p_box (pl s))), Qred (y (p_box (pl s))),
                Qred (h (p_box (pl s)))) in
  box (crouchStep (beforeCrouch levelIntro p noKeys 0 1)) = (100, 102, 12)
  /\ box (update levelIntro p noKeys 0 1) = (100, 98, 12)
  /\ box (update levelIntro p rightKeys 0 1) = (-8, Qred 102.35, 12).
Proof. vm_compute. repeat split. Qed.

(** The tick on which a player crouching on the intro ground stands up,
    through the theorem. *)
Lemma C10_standing_up_in_the_tick :
  let p := mkPlayer (mkBody (mkRect 100 102 8 8) 0 0 true) FaceRight true 0 0 in
  let q := pl (crouchStep (beforeCrouch levelIntro p noKeys 0 1)) in
  h (p_box p) == 8
  /\ k_crouch noKeys && onGround (p_body p) = false
  /\ h (p_box q) = 12 /\ y (p_box q) = y (p_box p)
  /\ y (p_box q) + h (p_box q) == y (p_box p) + h (p_box p) + 4.
Proof.
  cbv zeta. split; [reflexivity|]. split; [reflexivity|].
  destruct C10_crouch_height_asymmetric as (_ & H).
  pose proof (H levelIntro
                (mkPlayer (mkBody (mkRect 100 102 8 8) 0 0 true) FaceRight true 0 0)
                noKeys 0 1) as G.
  cbv zeta in G. destruct G as (_ & _ & _ & _ & G).
  apply G; reflexivity.
Defined.

(** ** Arrows against the player (C7) *)

Lemma arrowsStep_eq (s : Sim) :
  arrowsStep s
  = mkSim (lv s)
          (match find (strikes (pl s)) (rev (arrows (lv s))) with
           | Some ar => knockedBy ar (pl s)
           | None => pl s
           end)
          (out s ++ repeat SfxHit (length (filter (strikes (pl s)) (arrows (lv s))))).
Proof. unfold arrowsStep. rewrite arrowsHitPlayer_spec. reflexivity. Qed.

Lemma update_arrowsStep (level : Level) (p : Player) (keys : Keys) (t dt : Q) :
  update level p keys t dt
  = bossStep dt (arrowsStep (beforeArrows level p keys t dt)).
Proof. unfold update, beforeArrows, beforeCrouch, afterInput. reflexivity. Qed.

Lemma beforeBoss_beforeArrows (level : Level) (p : Player) (keys : Keys) (t dt : Q) :
  beforeBoss level p keys t dt = arrowsStep (beforeArrows level p keys t dt).
Proof. unfold beforeBoss, beforeArrows, beforeCrouch. reflexivity. Qed.

(** C7.  An arrow that overlaps the player knocks the player back (horizontal
    velocity 1.6 against the arrow's direction of travel, vertical velocity
    -2.5, one hit cue) unless the player is crouching and the arrow's vertical
    midpoint is above the head line at the top edge plus 4; a standing player
    (head line at the top edge plus 6) that the arrow overlaps is always
    knocked back; an arrow that does not overlap changes nothing.  Over the
    whole collection the player ends with the knockback of the last arrow
    that struck.  The "Arrows hit player" block of the tick, [arrowsStep],
    is that loop on the arrows and the player of the state it is given,
    and [update] runs it on the arrows that the cull of the tick has left
    and on the player as the earlier blocks have left it, just before the
    "Boss AI" block: the tick sounds one hit cue per arrow that struck, the
    boss block can only change the player's velocity again, and on a level
    without boss the player ends the tick with the knockback of the last
    arrow that struck. *)
Theorem C7_arrow_knockback :
  (forall p cues,
     (forall ar,
        aabb (pr_box ar) (p_box p) = true ->
        (crouch p = true /\ arrowMid ar < headLine p
         /\ headLine p == y (p_box p) + 4
         /\ arrowHit p cues ar = (p, cues))
        \/
        (~ (crouch p = true /\ arrowMid ar < y (p_box p) + 4)
         /\ arrowHit p cues ar = (knockedBy ar p, cues ++ [SfxHit])))
     /\ (forall ar,
           aabb (pr_box ar) (p_box p) = true -> crouch p = false ->
           headLine p == y (p_box p) + 6
           /\ arrowHit p cues ar = (knockedBy ar p, cues ++ [SfxHit]))
     /\ (forall ar,
           aabb (pr_box ar) (p_box p) = false -> arrowHit p cues ar = (p, cues))
     /\ (forall ar,
           vx (p_body (knockedBy ar p)) == - Qsign (pr_vx ar) * 1.6
           /\ (0 < pr_vx ar -> vx (p_body (knockedBy ar p)) == -1.6)
           /\ (pr_vx ar < 0 -> vx (p_body (knockedBy ar p)) == 1.6)
           /\ (pr_vx ar == 0 -> vx (p_body (knockedBy ar p)) == 0)
           /\ vy (p_body (knockedBy ar p)) == -2.5
           /\ p_box (knockedBy ar p) = p_box p)
     /\ (forall ars,
           arrowsHitPlayer ars p cues =
           (match find (strikes p) (rev ars) with
            | Some ar => knockedBy ar p
            | None => p
            end,
            cues ++ repeat SfxHit (length (filter (strikes p) ars)))))
  /\ (forall s,
        arrowsStep s
        = mkSim (lv s) (fst (arrowsHitPlayer (arrows (lv s)) (pl s) (out s)))
                (snd (arrowsHitPlayer (arrows (lv s)) (pl s) (out s)))
        /\ arrowsStep s
           = mkSim (lv s)
                   (match find (strikes (pl s)) (rev (arrows (lv s))) with
                    | Some ar => knockedBy ar (pl s)
                    | None => pl s
                    end)
                   (out s ++ repeat SfxHit
                                 (length (filter (strikes (pl s)) (arrows (lv s))))))
  /\ (forall level p keys t dt,
        let s := beforeArrows level p keys t dt in
        update level p keys t dt = bossStep dt (arrowsStep s)
        /\ (exists shot,
               Forall archerArrow shot
               /\ arrows (lv s) = cull (worldW level) dt (arrows level ++ shot))
        /\ out (update level p keys t dt)
           = out s ++ repeat SfxHit (length (filter (strikes (pl s)) (arrows (lv s))))
        /\ velocityOnly (pl (arrowsStep s)) (pl (update level p keys t dt))
        /\ (boss level = None ->
            pl (update level p keys t dt)
            = match find (strikes (pl s)) (rev (arrows (lv s))) with
              | Some ar => knockedBy ar (pl s)
              | None => pl s
              end)).
Proof.
  split; [|split].
  - intros p cues. split; [|split; [|split; [|split]]].
    + intros ar Hov. rewrite arrowHit_strikes. unfold strikes, headLine.
      rewrite Hov. cbn [andb].
      destruct (crouch p); cbn [andb negb].
      * destruct (Qltb (arrowMid ar) (y (p_box p) + 4)) eqn:E; cbn [negb].
        -- left. qbool. repeat split; try assumption; reflexivity.
        -- right. split; [|reflexivity]. intros [_ H]. qbool.
           revert H. now apply Qle_not_lt.
      * right. split; [|reflexivity]. intros [H _]. discriminate.
    + intros ar Hov Hc. unfold headLine. rewrite arrowHit_strikes. unfold strikes.
      rewrite Hov, Hc. split; reflexivity.
    + intros ar Hov. rewrite arrowHit_strikes. unfold strikes. now rewrite Hov.
    + intros ar. cbn [knockedBy withBody p_body bodyVy bodyVx vx vy p_box b_box].
      split; [reflexivity|]. split; [|split; [|split; [|split]]];
        try reflexivity.
      * intros H. now rewrite (Qsign_pos _ H).
      * intros H. now rewrite (Qsign_neg _ H).
      * intros H. now rewrite (Qsign_zero _ H).
    + intros ars. apply arrowsHitPlayer_spec.
  - intros s. split; [|apply arrowsStep_eq].
    unfold arrowsStep. destruct (arrowsHitPlayer _ _ _). reflexivity.
  - intros level p keys t dt. cbv zeta.
    pose proof (beforeBoss_fields level p keys t dt) as HB. cbv zeta in HB.
    rewrite beforeBoss_beforeArrows in HB.
    rewrite update_arrowsStep.
    set (s := beforeArrows level p keys t dt) in *.
    destruct HB as (HBo & _ & _ & _ & HA & _).
    destruct (bossStep_fields dt (arrowsStep s)) as (_ & _ & V & O & _).
    split; [reflexivity|]. split; [|split; [|split]].
    + destruct HA as (shot & FS & E). exists shot. split; [exact FS|].
      rewrite <- E. rewrite arrowsStep_eq. reflexivity.
    + rewrite O, arrowsStep_eq. reflexivity.
    + exact V.
    + intros Hb. rewrite Hb in HBo.
      destruct (boss (lv (arrowsStep s))) eqn:E; [contradiction|].
      rewrite bossStep_idle by (rewrite E; exact I).
      rewrite arrowsStep_eq. reflexivity.
Qed.

(** One arrow at chest height through a whole tick on the intro level: it
    knocks the standing player back and sounds the hit cue, and passes over
    the player that crouches in the same place; it stays in the collection
    either way. *)
Example arrow_over_a_crouching_player :
  let arrow := mkProjectile (mkRect 98 103 5 2) 1.6 0 100 false in
  let level := lvArrows levelIntro [arrow] in
  let standing := mkPlayer (mkBody (mkRect 100 98 8 12) 0 0 true) FaceRight false 0 0 in
  let crouching := mkPlayer (mkBody (mkRect 100 102 8 8) 0 0 true) FaceRight true 0 0 in
  let crouchKeys := mkKeys false false false false false false true in
  let view s := (Qred (vx (p_body (pl s))), Qred (vy (p_body (pl s))), out s,
                 length (arrows (lv s))) in
  view (update level standing noKeys 0 1) = (Qred (-1.6), Qred (-2.5), [SfxHit], 1%nat)
  /\ view (update level crouching crouchKeys 0 1) = (0, 0, [], 1%nat).
Proof. vm_compute. split; reflexivity. Qed.

(** The same arrow and the standing player, through the theorem. *)
Lemma C7_arrow_in_the_tick :
  let arrow := mkProjectile (mkRect 98 103 5 2) 1.6 0 100 false in
  let level := lvArrows levelIntro [arrow] in
  let p := mkPlayer (mkBody (mkRect 100 98 8 12) 0 0 true) FaceRight false 0 0 in
  let s := beforeArrows level p noKeys 0 1 in
  boss level = None
  /\ pl (update level p noKeys 0 1)
     = match find (strikes (pl s)) (rev (arrows (lv s))) with
       | Some ar => knockedBy ar (pl s)
       | None => pl s
       end.
Proof.
  cbv zeta. split; [reflexivity|].
  destruct C7_arrow_knockback as (_ & _ & H).
  pose proof (H (lvArrows levelIntro [mkProjectile (mkRect 98 103 5 2) 1.6 0 100 false])
                (mkPlayer (mkBody (mkRect 100 98 8 12) 0 0 true) FaceRight false 0 0)
                noKeys 0 1) as G.
  cbv zeta in G. destruct G as (_ & _ & _ & _ & G).
  apply G. reflexivity.
Defined.

(** ** The boss phase cycle (C5) *)

Lemma bossShots_hurt (b b1 : Boss) (p : Player) :
  hurt b b1 -> bossShots b1 p = bossShots b p.
Proof.
  intros (Hb & Hp & Ht & _).
  unfold bossShots, shockwaves, volleyArrow, bo_box. now rewrite Hb, Hp, Ht.
Qed.

Lemma bossShots_due (b : Boss) (p : Player) :
  length (bossShots b p) = due (phase b) (timer b).
Proof.
  unfold bossShots, due. destruct (phase b =? 1)%Z.
  - destruct (_ =? 1)%Z; reflexivity.
  - destruct (phase b =? 2)%Z; [|reflexivity].
    destruct (_ || _); reflexivity.
Qed.

(** The boss that enters the "Boss AI" block of a tick: the boss of the
    level less the hits of the tick. *)
Lemma beforeBoss_boss (level : Level) (p : Player) (keys : Keys) (t dt : Q)
      (b : Boss) :
  boss level = Some b -> bo_alive b = true -> (0 < hp b)%Z ->
  exists b1,
    boss (lv (beforeBoss level p keys t dt)) = Some b1
    /\ bo_body b1 = bo_body b /\ phase b1 = phase b /\ timer b1 = timer b
    /\ hp b1 = (hp b - Z.min (bossHits level p keys t dt b) (hp b))%Z
    /\ bo_alive b1 = (bossHits level p keys t dt b <? hp b)%Z.
Proof.
  intros Hb Ha Hhp. unfold beforeBoss, bossHits, projsInFlight, cull.
  pose proof (before_fire level p keys dt) as H0. cbv zeta in H0.
  fold (afterInput level p keys dt) in H0.
  set (s0 := afterInput level p keys dt) in *.
  destruct H0 as (P0 & _ & B0 & W0 & _ & C0 & _).
  pose proof (fireStep_fields keys t s0) as H1. cbv zeta in H1.
  set (s1 := fireStep keys t s0) in *.
  destruct H1 as (P1 & _ & _ & _ & _ & B1 & W1 & _).
  assert (G : fireGate keys t (pl s0) = fireGate keys t p)
    by (unfold fireGate; now rewrite C0).
  rewrite G in P1.
  pose proof (physics_fields dt s1) as H2. cbv zeta in H2.
  set (s2 := cameraStep _) in *.
  destruct H2 as (P2 & _ & B2 & W2 & _).
  destruct (enemiesStep_fields dt s2) as (P3 & B3 & W3 & _).
  set (s3 := enemiesStep dt s2) in *.
  pose proof (projectilesStep_fields dt s3) as H4. cbv zeta in H4.
  set (s4 := projectilesStep dt s3) in *.
  destruct H4 as (P4 & _ & B4 & _).
  assert (WW : worldW (lv s3) = worldW level) by congruence.
  assert (B : boss (lv s4) = Some b) by congruence.
  assert (P : projs (lv s4)
              = filter (inPlay (worldW level))
                       (map (integrateProj dt)
                            (if fireGate keys t p
                             then projs level ++ [fireball (pl s0)]
                             else projs level))).
  { rewrite P4, P3, P2, P1, P0, WW. destruct (fireGate keys t p); reflexivity. }
  destruct (arrowsStep_fields (fireballStep s4)) as (-> & _).
  unfold fireballStep. rewrite B.
  destruct (fireballCollisions_boss_hits (projs (lv s4)) (enemies (lv s4)) b
                                         (out s4) (fun _ => Hhp))
    as (b1 & E & K1 & K2 & K3 & K4 & _).
  destruct (fireballCollisions _ _ _ _) as [[[prs es] ob] cues].
  cbn [fst snd] in E. cbn [lv boss lvBoss]. subst ob.
  destruct (K4 Ha) as (K5 & K6). rewrite P in K5, K6.
  exists b1. repeat split; assumption.
Qed.

(** The boss block inside the tick, for a living boss that the hits of the
    tick do not kill. *)
Lemma update_boss_step (level : Level) (p : Player) (keys : Keys) (t dt : Q)
      (b : Boss) :
  boss level = Some b -> bo_alive b = true ->
  (bossHits level p keys t dt b < hp b)%Z ->
  exists b',
    boss (lv (update level p keys t dt)) = Some b'
    /\ bo_alive b' = true
    /\ hp b' = (hp b - bossHits level p keys t dt b)%Z
    /\ (phase b', timer b') = nextPhase (phase b) (timer b) (grounded b')
    /\ (phase b <> 0%Z -> bo_body b' = bo_body b)
    /\ arrows (lv (update level p keys t dt))
       = arrows (lv (beforeBoss level p keys t dt))
         ++ bossShots b (pl (beforeBoss level p keys t dt)).
Proof.
  intros Hb Ha Hk.
  assert (Hk0 : (0 <= bossHits level p keys t dt b)%Z) by (unfold bossHits; lia).
  assert (Hhp : (0 < hp b)%Z) by lia.
  destruct (beforeBoss_boss level p keys t dt b Hb Ha Hhp)
    as (b1 & Hb1 & K1 & K2 & K3 & K4 & K5).
  rewrite update_beforeBoss.
  set (sB := beforeBoss level p keys t dt) in *.
  assert (Ha1 : bo_alive b1 = true) by (rewrite K5; now apply Z.ltb_lt).
  destruct (bossStep_alive dt sB b1 Hb1 Ha1) as (E & A & _).
  destruct (bossAI_boss dt (lv sB) (pl sB) b1) as (N1 & N2 & N3 & N4).
  exists (snd (bossAI dt (lv sB) (pl sB) b1)).
  split; [exact E|]. split; [congruence|]. split; [rewrite N1, K4; lia|].
  split; [rewrite N3, K2, K3; reflexivity|]. split.
  - intros Hp. rewrite N4 by congruence. exact K1.
  - rewrite A. f_equal. apply bossShots_hurt.
    unfold hurt. repeat split; auto; lia.
Qed.

(** A living boss that the hits of the tick kill does not run the block. *)
Lemma update_boss_killed (level : Level) (p : Player) (keys : Keys) (t dt : Q)
      (b : Boss) :
  boss level = Some b -> bo_alive b = true -> (0 < hp b)%Z ->
  (hp b <= bossHits level p keys t dt b)%Z ->
  exists b',
    boss (lv (update level p keys t dt)) = Some b'
    /\ bo_alive b' = false /\ hp b' = 0%Z
    /\ bo_body b' = bo_body b /\ phase b' = phase b /\ timer b' = timer b
    /\ arrows (lv (update level p keys t dt))
       = arrows (lv (beforeBoss level p keys t dt)).
Proof.
  intros Hb Ha Hhp Hk.
  destruct (beforeBoss_boss level p keys t dt b Hb Ha Hhp)
    as (b1 & Hb1 & K1 & K2 & K3 & K4 & K5).
  rewrite update_beforeBoss.
  set (sB := beforeBoss level p keys t dt) in *.
  assert (Ha1 : bo_alive b1 = false) by (rewrite K5; now apply Z.ltb_ge).
  rewrite bossStep_idle by (rewrite Hb1; exact Ha1).
  exists b1. repeat split; auto. lia.
Qed.

Lemma update_boss_none (level : Level) (p : Player) (keys : Keys) (t dt : Q) :
  boss level = None -> boss (lv (update level p keys t dt)) = None.
Proof.
  intros Hb. rewrite update_beforeBoss.
  destruct (beforeBoss_fields level p keys t dt) as (HB & _).
  set (sB := beforeBoss level p keys t dt) in *.
  rewrite Hb in HB. destruct (boss (lv sB)) as [b1|] eqn:Hb1; [contradiction|].
  rewrite bossStep_idle by (rewrite Hb1; exact I). exact Hb1.
Qed.

(** A tick without fire key on a level without friendly projectiles: the
    boss takes no hit. *)
Lemma quiet_hits (level : Level) (p : Player) (keys : Keys) (t dt : Q) (b : Boss) :
  projs level = [] -> k_fire keys = false ->
  bossHits level p keys t dt b = 0%Z
  /\ projs (lv (update level p keys t dt)) = [].
Proof.
  intros Hp Hk.
  assert (E : cull (worldW level) dt (projsInFlight level p keys t dt) = []).
  { unfold projsInFlight, fireGate. rewrite Hk, Hp. reflexivity. }
  split.
  - unfold bossHits. rewrite E. reflexivity.
  - pose proof (update_projs level p keys t dt) as S. rewrite E in S.
    inversion S. reflexivity.
Qed.

Lemma skipn_length_app {A : Type} (a b : list A) : skipn (length a) (a ++ b) = b.
Proof. induction a as [|x0 a IH]; [reflexivity | exact IH]. Qed.

Lemma tickOn_quiet (s : Sim) (f : Frame) (b : Boss) :
  boss (lv s) = Some b -> bo_alive b = true -> (0 < hp b)%Z ->
  projs (lv s) = [] -> k_fire (f_keys f) = false ->
  exists b',
    boss (lv (tickOn s f)) = Some b'
    /\ bo_alive b' = true /\ hp b' = hp b
    /\ projs (lv (tickOn s f)) = []
    /\ (phase b', timer b') = nextPhase (phase b) (timer b) (grounded b')
    /\ (phase b <> 0%Z -> bo_body b' = bo_body b)
    /\ bossSpawned s f
       = bossShots b (pl (beforeBoss (lv s) (pl s) (f_keys f) (f_t f) (f_dt f))).
Proof.
  intros Hb Ha Hhp Hp Hk.
  destruct (quiet_hits (lv s) (pl s) (f_keys f) (f_t f) (f_dt f) b Hp Hk)
    as (K0 & P').
  destruct (update_boss_step (lv s) (pl s) (f_keys f) (f_t f) (f_dt f) b Hb Ha)
    as (b' & E & A' & H' & N & Bd & Ar); [rewrite K0; exact Hhp|].
  unfold bossSpawned. rewrite tickOn_eq.
  exists b'. split; [exact E|]. split; [exact A'|].
  split; [rewrite H', K0; lia|]. split; [exact P'|]. split; [exact N|].
  split; [exact Bd|].
  rewrite Ar. apply skipn_length_app.
Qed.

Lemma nextPhase_stay (ph n : Z) (g : bool) :
  (n + 1 <= phaseEnd ph)%Z -> nextPhase ph n g = (ph, (n + 1)%Z).
Proof.
  unfold nextPhase, phaseEnd. intros H.
  destruct (ph =? 0)%Z eqn:P0.
  - apply Z.eqb_eq in P0. subst ph.
    replace (90 <? n + 1)%Z with false by (symmetry; apply Z.ltb_ge; lia).
    now rewrite andb_false_r.
  - destruct (ph =? 1)%Z eqn:P1.
    + apply Z.eqb_eq in P1. subst ph.
      now replace (100 <? n + 1)%Z with false by (symmetry; apply Z.ltb_ge; lia).
    + destruct (ph =? 2)%Z eqn:P2; [|reflexivity].
      apply Z.eqb_eq in P2. subst ph.
      now replace (100 <? n + 1)%Z with false by (symmetry; apply Z.ltb_ge; lia).
Qed.

Lemma spawnedOver_app (a : list Frame) :
  forall (c : list Frame) (s : Sim),
    spawnedOver (a ++ c) s = spawnedOver a s ++ spawnedOver c (ticks a s).
Proof.
  induction a as [|f a IH]; intros c s.
  - rewrite ticks_nil. reflexivity.
  - cbn [app spawnedOver]. rewrite IH, ticks_cons, app_assoc. reflexivity.
Qed.

(** A run without fire key on a living boss, no longer than what is left
    of its phase and the tick that ends it: the boss takes no hit, the
    timer counts the ticks and the boss spawns what is due. *)
Lemma ticks_quiet (frames : list Frame) :
  forall (s : Sim) (b : Boss),
    boss (lv s) = Some b -> bo_alive b = true -> (0 < hp b)%Z ->
    projs (lv s) = [] -> noFire frames ->
    (timer b + Z.of_nat (length frames) <= phaseEnd (phase b) + 1)%Z ->
    exists b',
      boss (lv (ticks frames s)) = Some b'
      /\ bo_alive b' = true /\ hp b' = hp b
      /\ projs (lv (ticks frames s)) = []
      /\ length (spawnedOver frames s)
         = dueOver (phase b) (timer b) (length frames)
      /\ ((timer b + Z.of_nat (length frames) <= phaseEnd (phase b))%Z ->
          phase b' = phase b
          /\ timer b' = (timer b + Z.of_nat (length frames))%Z
          /\ (phase b <> 0%Z -> bo_body b' = bo_body b))
      /\ ((1 <= length frames)%nat ->
          (timer b + Z.of_nat (length frames) = phaseEnd (phase b) + 1)%Z ->
          (phase b', timer b')
          = nextPhase (phase b) (phaseEnd (phase b)) (grounded b')).
Proof.
  induction frames as [|f frames IH]; intros s b Hb Ha Hhp Hp HF Hw.
  - rewrite ticks_nil. exists b. cbn [length spawnedOver dueOver].
    split; [exact Hb|]. split; [exact Ha|]. split; [reflexivity|].
    split; [exact Hp|]. split; [reflexivity|]. split.
    + intros _. split; [reflexivity|]. split; [lia | reflexivity].
    + intros H. lia.
  - rewrite ticks_cons. cbn [length spawnedOver dueOver] in *.
    inversion HF as [|f0 l0 Hk HF']; subst f0 l0.
    destruct (tickOn_quiet s f b Hb Ha Hhp Hp Hk)
      as (b1 & Hb1 & Ha1 & Hh1 & Hp1 & N & Bd & Sp).
    assert (Hhp1 : (0 < hp b1)%Z) by lia.
    rewrite length_app, Sp, bossShots_due.
    destruct (Z.le_gt_cases (timer b + 1) (phaseEnd (phase b))) as [St | Ex].
    + rewrite nextPhase_stay in N by exact St. injection N as P1 T1.
      destruct (IH (tickOn s f) b1 Hb1 Ha1 Hhp1 Hp1 HF')
        as (b' & Hb' & Ha' & Hh' & Hp' & L & Stay & Exit).
      { rewrite P1, T1. lia. }
      exists b'. split; [exact Hb'|]. split; [exact Ha'|].
      split; [congruence|]. split; [exact Hp'|].
      split; [rewrite L, P1, T1; reflexivity|]. split.
      * intros H. destruct Stay as (S1 & S2 & S3); [rewrite P1, T1; lia|].
        split; [congruence|]. split; [rewrite S2, T1; lia|].
        intros Hne. rewrite S3 by congruence. now apply Bd.
      * intros _ H. rewrite <- P1. apply Exit; [|rewrite P1, T1; lia].
        destruct frames; [cbn in H; lia | cbn; lia].
    + assert (Hn : frames = []) by (destruct frames; [reflexivity | cbn in Hw; lia]).
      subst frames. rewrite ticks_nil. cbn [length spawnedOver dueOver] in *.
      assert (T : timer b = phaseEnd (phase b)) by lia.
      exists b1. split; [exact Hb1|]. split; [exact Ha1|]. split; [exact Hh1|].
      split; [exact Hp1|]. split; [reflexivity|]. split; [lia|].
      intros _ _. rewrite N, T. reflexivity.
Qed.

Lemma dueOver_0 (len : nat) : forall n, dueOver 0 n len = 0%nat.
Proof. induction len as [|len IH]; intros n; cbn; [reflexivity | apply IH]. Qed.

Lemma dueOver_1 (len : nat) : forall n, (1 <= n)%Z -> dueOver 1 n len = 0%nat.
Proof.
  induction len as [|len IH]; intros n Hn; cbn [dueOver]; [reflexivity|].
  rewrite IH by lia. unfold due. cbn [Z.eqb].
  replace (n + 1 =? 1)%Z with false by (symmetry; apply Z.eqb_neq; lia).
  reflexivity.
Qed.

Lemma ticks_quiet_alive (frames : list Frame) :
  forall (s : Sim) (b : Boss),
    boss (lv s) = Some b -> bo_alive b = true -> (0 < hp b)%Z ->
    projs (lv s) = [] -> noFire frames ->
    exists b',
      boss (lv (ticks frames s)) = Some b'
      /\ bo_alive b' = true /\ hp b' = hp b.
Proof.
  induction frames as [|f frames IH]; intros s b Hb Ha Hhp Hp HF.
  - rewrite ticks_nil. eauto.
  - rewrite ticks_cons. inversion HF as [|f0 l0 Hk HF']; subst f0 l0.
    destruct (tickOn_quiet s f b Hb Ha Hhp Hp Hk)
      as (b1 & Hb1 & Ha1 & Hh1 & Hp1 & _).
    destruct (IH (tickOn s f) b1 Hb1 Ha1) as (b' & Hb' & Ha' & Hh');
      [lia | exact Hp1 | exact HF' |].
    exists b'. repeat split; auto. congruence.
Qed.

Lemma volleyArrow_body (b b1 : Boss) (p : Player) :
  bo_body b1 = bo_body b -> volleyArrow b1 p = volleyArrow b p.
Proof. intros H. unfold volleyArrow, bo_box. now rewrite H. Qed.

(** What the boss spawns on the tick after the frames [pre] of a run that
    it began in phase 2 with timer 0. *)
Lemma volley_tick (pre : list Frame) (f : Frame) (s : Sim) (b : Boss) :
  boss (lv s) = Some b -> bo_alive b = true -> (0 < hp b)%Z ->
  projs (lv s) = [] -> noFire (pre ++ [f]) ->
  timer b = 0%Z -> phase b = 2%Z -> (length pre <= 100)%nat ->
  bossSpawned (ticks pre s) f
  = if (Z.of_nat (length pre) + 1 =? 1)%Z || (Z.of_nat (length pre) + 1 =? 30)%Z
       || (Z.of_nat (length pre) + 1 =? 60)%Z
    then [volleyArrow b (pl (beforeBoss (lv (ticks pre s)) (pl (ticks pre s))
                                        (f_keys f) (f_t f) (f_dt f)))]
    else [].
Proof.
  intros Hb Ha Hhp Hp HF T0 P2 L.
  apply Forall_app in HF as (HF1 & HF2).
  inversion HF2 as [|f0 l0 Hk _]; subst f0 l0.
  destruct (ticks_quiet pre s b Hb Ha Hhp Hp HF1)
    as (bi & Hbi & Hai & Hhi & Hpi & _ & Stay & _).
  { rewrite T0, P2. change (phaseEnd 2) with 100%Z. lia. }
  destruct Stay as (S1 & S2 & S3);
    [rewrite T0, P2; change (phaseEnd 2) with 100%Z; lia|].
  destruct (tickOn_quiet (ticks pre s) f bi Hbi Hai) as (_ & _ & _ & _ & _ & _ & _ & Sp);
    [lia | exact Hpi | exact Hk |].
  rewrite Sp. unfold bossShots. rewrite S1, S2, P2, T0. cbn [Z.eqb Z.add].
  rewrite (volleyArrow_body b bi) by (apply S3; rewrite P2; discriminate).
  reflexivity.
Qed.

Lemma volley_count (v : Projectile) :
  length (flat_map (fun n : Z =>
                      if (n + 1 =? 1)%Z || (n + 1 =? 30)%Z || (n + 1 =? 60)%Z
                      then [v] else [])
                   (map Z.of_nat (seq 0 101))) = 3%nat.
Proof. vm_compute. reflexivity. Qed.

(** The cycle on the boss level itself, with the player standing left of
    the boss and no key held: phase 1 after 91 ticks, the two shockwaves
    on the tick after, phase 2 after 101 more, one volley arrow on ticks 1,
    30 and 60 of it, phase 0 after 101 more. *)
Example boss_cycle_on_the_boss_level :
  map (fun n => bossView (bossLevelAfter n))
      [90; 91; 92; 191; 192; 193; 221; 222; 251; 252; 292; 293]%nat
  = [(Some (0, 90, true), 0); (Some (1, 0, true), 0); (Some (1, 1, true), 2);
     (Some (1, 100, true), 0); (Some (2, 0, true), 0); (Some (2, 1, true), 1);
     (Some (2, 29, true), 1); (Some (2, 30, true), 2);
     (Some (2, 59, true), 2); (Some (2, 60, true), 3);
     (Some (2, 100, true), 3); (Some (0, 0, true), 3)]%Z.
Proof. vm_compute. reflexivity. Qed.

(** C5, as the code has it.  The boss state machine, for a living boss
    that the fireballs of the tick do not kill (a boss that they kill keeps
    its phase and timer and spawns nothing).  The timer first counts the
    tick.  Phase 0 goes to phase 1 with the timer reset to 0 on the first
    tick where the timer exceeds 90 and the boss is grounded after its
    integration in that very tick; otherwise it stays in phase 0 and the
    timer counts on.  From phase 0 with timer 0, on a run in which the
    player does not fire, the boss is in phase 0 with the timer at the
    number of ticks for the first 90 ticks, and after the 91st tick it is
    in phase 1 with timer 0 if that tick left it grounded and in phase 0
    with timer 91 if not; phase 0 spawns nothing.  Phase 1 spawns the two
    shockwaves on its first tick and nothing after, and goes to phase 2
    with timer 0 when the timer exceeds 100, on its 101st tick.  Phase 2
    spawns one arrow aimed at the player's side when the timer is 1, 30 or
    60 and nothing on its other ticks, three in the 101 ticks of the phase,
    and goes back to phase 0 with timer 0 when the timer exceeds 100. *)
Theorem C5_boss_phase_cycle :
  (forall level p keys t dt b,
     boss level = Some b -> bo_alive b = true ->
     ((bossHits level p keys t dt b < hp b)%Z ->
      exists b',
        boss (lv (update level p keys t dt)) = Some b'
        /\ bo_alive b' = true
        /\ hp b' = (hp b - bossHits level p keys t dt b)%Z
        /\ (phase b = 0%Z ->
            (phase b', timer b')
            = if grounded b' && (90 <? timer b + 1)%Z
              then (1, 0)%Z else (0, timer b + 1)%Z)
        /\ (phase b = 1%Z ->
            (phase b', timer b')
            = if (100 <? timer b + 1)%Z then (2, 0)%Z else (1, timer b + 1)%Z)
        /\ (phase b = 2%Z ->
            (phase b', timer b')
            = if (100 <? timer b + 1)%Z then (0, 0)%Z else (2, timer b + 1)%Z)
        /\ arrows (lv (update level p keys t dt))
           = arrows (lv (beforeBoss level p keys t dt))
             ++ bossShots b (pl (beforeBoss level p keys t dt)))
     /\ ((0 < hp b)%Z -> (hp b <= bossHits level p keys t dt b)%Z ->
         exists b',
           boss (lv (update level p keys t dt)) = Some b'
           /\ bo_alive b' = false
           /\ phase b' = phase b /\ timer b' = timer b
           /\ arrows (lv (update level p keys t dt))
              = arrows (lv (beforeBoss level p keys t dt))))
  /\ (forall b p,
        (phase b = 0%Z -> bossShots b p = [])
        /\ (phase b = 1%Z ->
            bossShots b p = (if (timer b + 1 =? 1)%Z then shockwaves b else [])
            /\ length (shockwaves b) = 2%nat)
        /\ (phase b = 2%Z ->
            bossShots b p
            = (if (timer b + 1 =? 1)%Z || (timer b + 1 =? 30)%Z
                  || (timer b + 1 =? 60)%Z
               then [volleyArrow b p] else [])
            /\ length (flat_map (fun n => bossShots (bossTimer b n) p)
                                (map Z.of_nat (seq 0 101))) = 3%nat)
        /\ pr_vx (volleyArrow b p)
           = (if Qltb (x (p_box p)) (x (bo_box b)) then -1 else 1) * 1.8
        /\ friendly (volleyArrow b p) = false)
  /\ (forall frames s b,
        boss (lv s) = Some b -> bo_alive b = true -> (0 < hp b)%Z ->
        projs (lv s) = [] -> noFire frames -> timer b = 0%Z ->
        exists b',
          boss (lv (ticks frames s)) = Some b' /\ bo_alive b' = true
          /\ (phase b = 0%Z ->
              ((length frames <= 90)%nat ->
               phase b' = 0%Z /\ timer b' = Z.of_nat (length frames))
              /\ (length frames = 91%nat ->
                  (phase b', timer b')
                  = if grounded b' then (1, 0)%Z else (0, 91)%Z)
              /\ ((length frames <= 91)%nat -> spawnedOver frames s = []))
          /\ (phase b = 1%Z ->
              ((length frames <= 100)%nat ->
               phase b' = 1%Z /\ timer b' = Z.of_nat (length frames))
              /\ (length frames = 101%nat -> phase b' = 2%Z /\ timer b' = 0%Z)
              /\ ((1 <= length frames <= 101)%nat ->
                  spawnedOver frames s = shockwaves b
                  /\ spawnedOver (firstn 1 frames) s = shockwaves b))
          /\ (phase b = 2%Z ->
              ((length frames <= 100)%nat ->
               phase b' = 2%Z /\ timer b' = Z.of_nat (length frames))
              /\ (length frames = 101%nat ->
                  phase b' = 0%Z /\ timer b' = 0%Z
                  /\ length (spawnedOver frames s) = 3%nat)
              /\ (forall pre f post,
                    frames = pre ++ f :: post -> (length pre <= 100)%nat ->
                    bossSpawned (ticks pre s) f
                    = if (Z.of_nat (length pre) + 1 =? 1)%Z
                         || (Z.of_nat (length pre) + 1 =? 30)%Z
                         || (Z.of_nat (length pre) + 1 =? 60)%Z
                      then [volleyArrow b
                              (pl (beforeBoss (lv (ticks pre s)) (pl (ticks pre s))
                                              (f_keys f) (f_t f) (f_dt f)))]
                      else []))).
Proof.
  split; [|split].
  - intros level p keys t dt b Hb Ha. split.
    + intros Hk.
      destruct (update_boss_step level p keys t dt b Hb Ha Hk)
        as (b' & E & A' & H' & N & _ & Ar).
      exists b'. split; [exact E|]. split; [exact A'|]. split; [exact H'|].
      repeat split; try exact Ar; intros P; rewrite N, P; reflexivity.
    + intros Hhp Hk.
      destruct (update_boss_killed level p keys t dt b Hb Ha Hhp Hk)
        as (b' & E & A' & _ & _ & P & T & Ar).
      exists b'. auto.
  - intros b p. unfold bossShots.
    split; [|split; [|split; [|split]]].
    + intros ->. reflexivity.
    + intros ->. split; reflexivity.
    + intros P. rewrite P. split; [reflexivity|].
      rewrite <- (volley_count (volleyArrow b p)). f_equal.
      apply flat_map_ext. intros n. cbn [phase timer bossTimer]. rewrite P.
      reflexivity.
    + reflexivity.
    + reflexivity.
  - intros frames s b Hb Ha Hhp Hp HF T0.
    destruct (ticks_quiet_alive frames s b Hb Ha Hhp Hp HF) as (b' & Hb' & Ha' & _).
    exists b'. split; [exact Hb'|]. split; [exact Ha'|].
    assert (Win : (Z.of_nat (length frames) <= phaseEnd (phase b) + 1)%Z ->
                  length (spawnedOver frames s)
                  = dueOver (phase b) 0 (length frames)
                  /\ ((Z.of_nat (length frames) <= phaseEnd (phase b))%Z ->
                      phase b' = phase b
                      /\ timer b' = Z.of_nat (length frames))
                  /\ ((Z.of_nat (length frames) = phaseEnd (phase b) + 1)%Z ->
                      (phase b', timer b')
                      = nextPhase (phase b) (phaseEnd (phase b)) (grounded b'))).
    { intros W.
      destruct (ticks_quiet frames s b Hb Ha Hhp Hp HF)
        as (b2 & Hb2 & _ & _ & _ & L & Stay & Exit); [rewrite T0; lia|].
      rewrite Hb' in Hb2. injection Hb2 as <-.
      rewrite T0 in L, Stay, Exit. split; [exact L|]. split.
      - intros H. destruct Stay as (S1 & S2 & _); [lia|].
        split; [exact S1 | rewrite S2; lia].
      - intros H. apply Exit; [|lia].
        unfold phaseEnd in H. destruct (phase b =? 0)%Z; lia. }
    split; [|split]; intros P; rewrite P in Win; cbn [phaseEnd Z.eqb] in Win.
    + split; [|split].
      * intros L. destruct Win as (_ & St & _); [lia|]. apply St. lia.
      * intros L. destruct Win as (_ & _ & Ex); [lia|]. rewrite Ex by lia.
        unfold nextPhase. cbn. destruct (grounded b'); reflexivity.
      * intros L. apply length_zero_iff_nil.
        destruct Win as (Ln & _); [lia|]. rewrite Ln. apply dueOver_0.
    + split; [|split].
      * intros L. destruct Win as (_ & St & _); [lia|]. apply St. lia.
      * intros L. destruct Win as (_ & _ & Ex); [lia|].
        assert (E : (phase b', timer b') = (2, 0)%Z) by (rewrite Ex by lia; reflexivity).
        injection E as -> ->. auto.
      * intros L. destruct frames as [|f rest]; [cbn in L; lia|].
        cbn [length] in L. inversion HF as [|f0 l0 Hk HF']; subst f0 l0.
        destruct (tickOn_quiet s f b Hb Ha Hhp Hp Hk)
          as (b1 & Hb1 & Ha1 & Hh1 & Hp1 & N & _ & Sp).
        rewrite P, T0 in N. cbn in N. injection N as P1 T1.
        assert (S0 : bossSpawned s f = shockwaves b).
        { rewrite Sp. unfold bossShots. rewrite P, T0. reflexivity. }
        destruct (ticks_quiet rest (tickOn s f) b1 Hb1 Ha1)
          as (_ & _ & _ & _ & _ & Ln & _); [lia | exact Hp1 | exact HF' | |].
        { rewrite P1, T1. change (phaseEnd 1) with 100%Z. lia. }
        rewrite P1, T1, dueOver_1 in Ln by lia.
        apply length_zero_iff_nil in Ln.
        cbn [firstn spawnedOver]. rewrite Ln, S0, app_nil_r. auto.
    + split; [|split].
      * intros L. destruct Win as (_ & St & _); [lia|]. apply St. lia.
      * intros L. destruct Win as (Ln & _ & Ex); [lia|].
        assert (E : (phase b', timer b') = (0, 0)%Z) by (rewrite Ex by lia; reflexivity).
        injection E as -> ->. rewrite Ln, L. repeat split; reflexivity.
      * intros pre f post E L. rewrite E in HF.
        apply (volley_tick pre f s b); auto.
        apply Forall_app in HF as (HF1 & HF2).
        apply Forall_app. split; [exact HF1|].
        inversion HF2; subst. constructor; [assumption | constructor].
Qed.

(** The run of the cycle on the boss level, through the theorem: 91 idle
    frames from the start of the level. *)
Lemma C5_first_phase_on_the_boss_level :
  let s := mkSim levelBoss (makePlayer 24 40) [] in
  let b := mkBoss (mkBody (mkRect 550 90 18 20) 0 0 true) 3 true 0 0 in
  boss (lv s) = Some b
  /\ exists b',
      boss (lv (ticks (repeat idle 91) s)) = Some b' /\ bo_alive b' = true
      /\ (phase b', timer b') = if grounded b' then (1, 0)%Z else (0, 91)%Z.
Proof.
  cbv zeta. split; [reflexivity|].
  destruct C5_boss_phase_cycle as (_ & _ & H).
  destruct (H (repeat idle 91) (mkSim levelBoss (makePlayer 24 40) [])
              (mkBoss (mkBody (mkRect 550 90 18 20) 0 0 true) 3 true 0 0))
    as (b' & Hb' & Ha' & H0 & _); try reflexivity.
  - apply Forall_forall. intros f Hf. apply repeat_spec in Hf. subst f. reflexivity.
  - exists b'. split; [exact Hb'|]. split; [exact Ha'|].
    apply (H0 eq_refl). reflexivity.
Defined.

(** C5, as the specification states it, fails: a boss that is grounded by
    tick 90 need not be in phase 1 after 91 ticks.  On the boss level with
    the player right of the boss, the boss walks towards the end of the
    ground.  At the frame scale 0.83 it is grounded from tick 30 to tick
    90 and steps off the ground on tick 91; at the nominal frame scale it
    is grounded from tick 25 and steps off on tick 75.  Either way it is in
    phase 0 with timer 91 after 91 ticks. *)
Lemma C5_grounded_by_tick_90_still_phase_0 :
  let s := mkSim levelBoss (makePlayer 600 40) [] in
  let slow := mkFrame noKeys 0 0.83 in
  option_map (fun b => (phase b, timer b, bo_alive b)) (boss levelBoss)
  = Some (0, 0, true)%Z
  /\ 0.5 <= f_dt slow <= 1.5
  /\ map (fun n => fst (bossView (ticks (repeat slow n) s))) [30; 60; 90; 91]%nat
     = [Some (0, 30, true); Some (0, 60, true); Some (0, 90, true);
        Some (0, 91, false)]%Z
  /\ map (fun n => fst (bossView (ticks (repeat idle n) s))) [25; 74; 75; 91]%nat
     = [Some (0, 25, true); Some (0, 74, true); Some (0, 75, false);
        Some (0, 91, false)]%Z.
Proof.
  cbv zeta. split; [reflexivity|]. split; [split; vm_compute; discriminate|].
  split; vm_compute; reflexivity.
Qed.
